(** * fivem-socket.io: the connection pool of [SocketManager]

    A shallow embedding of [src/server/socket/SocketManager.ts] (with the
    types of [types.ts], the validators of [validations/validators.ts] and
    the [socketDisconnect] export of [FiveMSocketAdapter.ts]).

    The socket.io client is a black box in the source.  It is modelled as
    an event emitter: a socket carries the listeners the manager registered
    on it, the payloads [socket.emit] accepted, whether the client holds the
    socket connected, and whether [socket.disconnect] was called.  What the
    client does on its own (the handshake, its retries) enters the model as
    transport events raised on a socket.  The model takes this much from
    the client (socket.io-client 4, the [io] the source imports):
    - [emit] throws on the names the client reserves ([reserved_events]) and
      sends nothing;
    - an event is dispatched to the listeners registered when it is raised,
      in registration order, with no [try]: an exception of a listener ends
      the dispatch and leaves the emitter;
    - the client sets [socket.connected] before it raises 'connect' and
      clears it before it raises 'disconnect';
    - [disconnect()] on a connected socket raises 'disconnect' with the
      reason [io client disconnect] before it returns; on a socket that is
      not connected it raises nothing;
    - a socket raises nothing once [disconnect()] was called on it, and
      raises 'connect_error' only while it is not connected.

    The manager's records are JavaScript objects shared between the pool
    ([Map<string, SocketConnection>]) and the closures registered on the
    sockets, so the model keeps an object store ([heap]) and the pool maps
    keys to addresses in it; [pool_order] is the order in which the [Map]
    iterates.  Every [async] method is split at its [await]: the code after
    the [await] is a continuation ([Cont]).

    Time is cut into turns of the event loop.  A turn is the synchronous
    code of one call of a public method, of one timer, or of the events the
    transport raises in one go (the packets of one payload).  A promise
    settled during a turn does not resume the code that awaits it at once:
    the continuation is a microtask, run when the synchronous code of the
    turn is over and before the next turn ([Microtasks], [run_microtasks]).
    A call is taken with the microtasks that follow it, which is what a
    caller that awaits the call sees. *)

From stdpp Require Import gmap strings list fin_maps.
From Stdlib Require Import ZArith Ascii.
From Stdlib Require PrimFloat.

Open Scope Z_scope.

(** ** Values *)

(** Payloads ([any]) are opaque to the manager. *)
Definition Data := string.

(** A callback is a function reference: an identity that a [Set] compares
    by reference. *)
Definition Callback := nat.

(** Addresses of records and of promises in the object store. *)
Abbreviation ConnId := nat.
Abbreviation WaitId := nat.

(** ** [SocketOptions] (types.ts) *)

Record SocketOptions := mkOptions {
  reconnectionAttempts : option Z;
  reconnectionDelay : option Z;
  timeout : option Z;
  autoConnect : option bool;
  headers : option (list (string * string));
  params : option (list (string * Data));
}.

Definition defaultOptions : SocketOptions :=
  {| reconnectionAttempts := Some 3;
     reconnectionDelay := Some 1000;
     timeout := Some 5000;
     autoConnect := Some true;
     headers := Some [];
     params := Some [] |}.

(** One field of an object spread [{ ...d, ...o }]: a field present in [o]
    wins. *)
Definition spread_field {A} (d o : option A) : option A :=
  match o with Some v => Some v | None => d end.

(** [{ ...this.defaultOptions, ...options }], [options] possibly
    [undefined]. *)
Definition spread (d : SocketOptions) (options : option SocketOptions)
  : SocketOptions :=
  match options with
  | None => d
  | Some o =>
      {| reconnectionAttempts :=
           spread_field (reconnectionAttempts d) (reconnectionAttempts o);
         reconnectionDelay :=
           spread_field (reconnectionDelay d) (reconnectionDelay o);
         timeout := spread_field (timeout d) (timeout o);
         autoConnect := spread_field (autoConnect d) (autoConnect o);
         headers := spread_field (headers d) (headers o);
         params := spread_field (params d) (params o) |}
  end.

(** [x || d] on [number | undefined]: [undefined] and [0] are falsy. *)
Definition js_or (x : option Z) (d : Z) : Z :=
  match x with
  | Some v => if v =? 0 then d else v
  | None => d
  end.

(** The delay [setTimeout] uses for its second argument: Node sets a delay
    that is missing, below 1 or above 2^31-1 to 1. *)
Definition js_delay (x : option Z) : Z :=
  match x with
  | Some v => if (v <? 1) || (2147483647 <? v) then 1 else v
  | None => 1
  end.

(** ** The socket, as an event emitter *)

(** The closures the manager registers on a socket.  Each of them captures
    the record the socket belongs to ([connection] in the source), so the
    record is not repeated here. *)
Inductive Handler :=
  | OnConnect                  (* setupConnectionHandlers, 'connect' *)
  | OnDisconnect               (* setupConnectionHandlers, 'disconnect' *)
  | OnConnectError             (* setupConnectionHandlers, 'connect_error' *)
  | FanOut (event : string)    (* subscribe: the wire listener of [event] *)
  | WaitConnect (w : WaitId)   (* waitForConnection, once('connect') *)
  | WaitConnectError (w : WaitId). (* waitForConnection, once('connect_error') *)

Global Instance Handler_eq_dec : EqDecision Handler.
Proof. solve_decision. Defined.

(** The options object handed to [io]. *)
Record IoOptions := mkIo {
  io_reconnectionAttempts : option Z;
  io_reconnectionDelay : option Z;
  io_timeout : option Z;
  io_autoConnect : option bool;
  io_extraHeaders : option (list (string * string));
  io_query : option (list (string * Data));
}.

Record Socket := mkSocket {
  sock_uri : string;
  sock_opts : IoOptions;
  sock_handlers : list (string * Handler); (* in registration order *)
  sock_connected : bool;                   (* socket.connected *)
  sock_closed : bool;                      (* socket.disconnect() was called *)
  sock_emitted : list (string * Data);     (* payloads socket.emit sent *)
}.

Definition io (uri : string) (o : IoOptions) : Socket :=
  {| sock_uri := uri; sock_opts := o; sock_handlers := [];
     sock_connected := false; sock_closed := false; sock_emitted := [] |}.

Definition socket_on (event : string) (h : Handler) (s : Socket) : Socket :=
  {| sock_uri := sock_uri s; sock_opts := sock_opts s;
     sock_handlers := sock_handlers s ++ [(event, h)];
     sock_connected := sock_connected s;
     sock_closed := sock_closed s; sock_emitted := sock_emitted s |}.

(** [socket.off(event)], no listener given: every listener of [event]
    goes. *)
Definition socket_off (event : string) (s : Socket) : Socket :=
  {| sock_uri := sock_uri s; sock_opts := sock_opts s;
     sock_handlers :=
       filter (λ eh, eh.1 ≠ event) (sock_handlers s);
     sock_connected := sock_connected s;
     sock_closed := sock_closed s; sock_emitted := sock_emitted s |}.

Fixpoint remove_first (eh : string * Handler) (l : list (string * Handler))
  : list (string * Handler) :=
  match l with
  | [] => []
  | x :: r => if decide (x = eh) then r else x :: remove_first eh r
  end.

(** What a [once] listener does to itself before it runs. *)
Definition socket_off_one (event : string) (h : Handler) (s : Socket)
  : Socket :=
  {| sock_uri := sock_uri s; sock_opts := sock_opts s;
     sock_handlers := remove_first (event, h) (sock_handlers s);
     sock_connected := sock_connected s;
     sock_closed := sock_closed s; sock_emitted := sock_emitted s |}.

(** The event names the client keeps for itself: [socket.emit] throws on
    them. *)
Definition reserved_events : list string :=
  ["connect"; "connect_error"; "disconnect"; "disconnecting";
   "newListener"; "removeListener"].

(** [socket.emit(event, d)] on a name that is not reserved: the payload
    goes to the transport (buffered while the socket is not connected). *)
Definition socket_send (event : string) (d : Data) (s : Socket) : Socket :=
  {| sock_uri := sock_uri s; sock_opts := sock_opts s;
     sock_handlers := sock_handlers s;
     sock_connected := sock_connected s;
     sock_closed := sock_closed s;
     sock_emitted := sock_emitted s ++ [(event, d)] |}.

(** [socket.emit(event, d)]; [None] where it throws. *)
Definition socket_emit (event : string) (d : Data) (s : Socket)
  : option Socket :=
  if decide (event ∈ reserved_events) then None
  else Some (socket_send event d s).

(** What [socket.disconnect()] does to the socket itself; the 'disconnect'
    event it raises on a connected socket is dispatched by
    [close_socket]. *)
Definition socket_disconnect (s : Socket) : Socket :=
  {| sock_uri := sock_uri s; sock_opts := sock_opts s;
     sock_handlers := sock_handlers s;
     sock_connected := false;
     sock_closed := true; sock_emitted := sock_emitted s |}.

(** What the client does to the socket before it raises [event]. *)
Definition socket_sees (event : string) (s : Socket) : Socket :=
  {| sock_uri := sock_uri s; sock_opts := sock_opts s;
     sock_handlers := sock_handlers s;
     sock_connected :=
       if decide (event = "connect") then true
       else if decide (event = "disconnect") then false
       else sock_connected s;
     sock_closed := sock_closed s; sock_emitted := sock_emitted s |}.

(** The listeners of [event], in registration order. *)
Definition handlers_of (event : string) (s : Socket) : list Handler :=
  (filter (λ eh, eh.1 = event) (sock_handlers s)).*2.

(** ** [SocketConnection] (types.ts) *)

(** A JavaScript [Set] iterates in insertion order and holds no element
    twice: a list, with [set_add] and [set_delete] as the only writers. *)
Definition set_add (cb : Callback) (s : list Callback) : list Callback :=
  if decide (cb ∈ s) then s else s ++ [cb].

Definition set_delete (cb : Callback) (s : list Callback) : list Callback :=
  filter (λ x, x ≠ cb) s.

Record SocketConnection := mkConn {
  socket : Socket;
  url : string;
  namespace : string;
  reconnectAttempts : nat;
  connected : bool;
  listeners : gmap string (list Callback);
}.

Definition with_socket (f : Socket → Socket) (c : SocketConnection)
  : SocketConnection :=
  {| socket := f (socket c); url := url c; namespace := namespace c;
     reconnectAttempts := reconnectAttempts c; connected := connected c;
     listeners := listeners c |}.

Definition with_listeners
    (f : gmap string (list Callback) → gmap string (list Callback))
    (c : SocketConnection) : SocketConnection :=
  {| socket := socket c; url := url c; namespace := namespace c;
     reconnectAttempts := reconnectAttempts c; connected := connected c;
     listeners := f (listeners c) |}.

Definition with_state (attempts : nat) (conn : bool) (c : SocketConnection)
  : SocketConnection :=
  {| socket := socket c; url := url c; namespace := namespace c;
     reconnectAttempts := attempts; connected := conn;
     listeners := listeners c |}.

(** ** The subscription registry of one record *)

(** [subscribe], the code after [await this.getOrCreateConnection(...)]. *)
Definition subscribe_on (event : string) (callback : Callback)
    (connection : SocketConnection) : SocketConnection :=
  let connection1 :=
    match listeners connection !! event with
    | Some _ => connection
    | None =>
        with_socket (socket_on event (FanOut event))
          (with_listeners (insert event []) connection)
    end in
  match listeners connection1 !! event with
  | Some eventListeners =>
      with_listeners (insert event (set_add callback eventListeners))
        connection1
  | None => connection1
  end.

(** [unsubscribe], the code after [if (!connection) return]. *)
Definition unsubscribe_on (event : string) (callback : option Callback)
    (connection : SocketConnection) : SocketConnection :=
  match callback, listeners connection !! event with
  | Some cb, Some eventListeners =>
      let eventListeners' := set_delete cb eventListeners in
      if decide (length eventListeners' = 0)%nat
      then with_socket (socket_off event)
             (with_listeners (delete event) connection)
      else with_listeners (insert event eventListeners') connection
  | None, Some _ =>
      with_socket (socket_off event)
        (with_listeners (delete event) connection)
  | _, None => connection
  end.

(** The number of wire-level listeners [subscribe] has installed for
    [event] on this record's socket. *)
Definition wire_listeners (event : string) (connection : SocketConnection)
  : nat :=
  length (filter (λ h, h = FanOut event)
            (handlers_of event (socket connection))).

(** ** The manager *)

Inductive Error :=
  | ConnectionTimeout (target : string)   (* Connection timeout for <url><namespace> *)
  | ConnectError (error : Data)           (* the error of a 'connect_error' event *)
  | SocketNotConnected (target : string)  (* Socket not connected: <url><namespace> *)
  | ReservedEvent (event : string).       (* what socket.emit throws on a reserved name *)

(** How a call ends: with the record it resolved, or with an error. *)
Inductive Outcome :=
  | Resolved (c : ConnId)
  | Rejected (e : Error).

(** The code after the [await] of the three [async] methods. *)
Inductive Cont :=
  | KConnect                                         (* return connection *)
  | KSubscribe (event : string) (callback : Callback)
  | KPublish (target : string) (event : string) (data : Data).

(** The promise of [waitForConnection] with the call that awaits it;
    [w_outcome] is [None] while the promise is pending. *)
Record Wait := mkWait {
  w_conn : ConnId;
  w_cont : Cont;
  w_outcome : option Outcome;
}.

(** A pending [setTimeout] of [waitForConnection]. *)
Record Timer := mkTimer {
  t_due : Z;
  t_wait : WaitId;
}.

Record SocketManager := mkManager {
  connections : gmap string ConnId;       (* Map<string, SocketConnection> *)
  pool_order : list string;               (* its keys, in insertion order *)
  heap : list SocketConnection;           (* every record allocated so far *)
  waits : list Wait;
  timers : list Timer;                    (* ordered by due time *)
  now : Z;                                (* milliseconds *)
  delivered : list (Callback * Data);     (* callback invocations, in order *)
}.

Definition empty_manager : SocketManager :=
  {| connections := ∅; pool_order := []; heap := []; waits := [];
     timers := []; now := 0; delivered := [] |}.

(** [this.connections.set(key, c)]: a key the [Map] holds keeps its place
    in the iteration order, a new key goes last. *)
Definition pool_set (key : string) (c : ConnId) (m : SocketManager)
  : SocketManager :=
  {| connections := <[key := c]> (connections m);
     pool_order :=
       if decide (key ∈ pool_order m) then pool_order m
       else pool_order m ++ [key];
     heap := heap m; waits := waits m;
     timers := timers m; now := now m; delivered := delivered m |}.

(** [this.connections.delete(key)] *)
Definition pool_delete (key : string) (m : SocketManager) : SocketManager :=
  {| connections := delete key (connections m);
     pool_order := filter (λ k, k ≠ key) (pool_order m);
     heap := heap m; waits := waits m;
     timers := timers m; now := now m; delivered := delivered m |}.

(** [this.connections.clear()] *)
Definition pool_clear (m : SocketManager) : SocketManager :=
  {| connections := ∅; pool_order := [];
     heap := heap m; waits := waits m;
     timers := timers m; now := now m; delivered := delivered m |}.

Definition with_heap (f : list SocketConnection → list SocketConnection)
    (m : SocketManager) : SocketManager :=
  {| connections := connections m; pool_order := pool_order m;
     heap := f (heap m); waits := waits m;
     timers := timers m; now := now m; delivered := delivered m |}.

Definition with_waits (f : list Wait → list Wait) (m : SocketManager)
  : SocketManager :=
  {| connections := connections m; pool_order := pool_order m;
     heap := heap m; waits := f (waits m);
     timers := timers m; now := now m; delivered := delivered m |}.

Definition with_timers (f : list Timer → list Timer) (m : SocketManager)
  : SocketManager :=
  {| connections := connections m; pool_order := pool_order m;
     heap := heap m; waits := waits m;
     timers := f (timers m); now := now m; delivered := delivered m |}.

Definition with_now (t : Z) (m : SocketManager) : SocketManager :=
  {| connections := connections m; pool_order := pool_order m;
     heap := heap m; waits := waits m;
     timers := timers m; now := t; delivered := delivered m |}.

Definition with_delivered
    (f : list (Callback * Data) → list (Callback * Data))
    (m : SocketManager) : SocketManager :=
  {| connections := connections m; pool_order := pool_order m;
     heap := heap m; waits := waits m;
     timers := timers m; now := now m; delivered := f (delivered m) |}.

(** A write through a reference to a record. *)
Definition update_conn (c : ConnId) (f : SocketConnection → SocketConnection)
    (m : SocketManager) : SocketManager :=
  with_heap (alter f c) m.

(** [connection.connected] through a reference. *)
Definition is_connected (c : ConnId) (m : SocketManager) : bool :=
  default false (connected <$> heap m !! c).

Definition getConnectionKey (url namespace : string) : string :=
  url +:+ namespace.

(** [this.connections.get(key)] *)
Definition get_connection (key : string) (m : SocketManager)
  : option SocketConnection :=
  c ← connections m !! key; heap m !! c.

(** [existingConnection?.connected]: the record of [key], when there is
    one and its flag is set. *)
Definition existing_connected (key : string) (m : SocketManager)
  : option ConnId :=
  match connections m !! key with
  | Some c => if is_connected c m then Some c else None
  | None => None
  end.

(** *** Timers *)

Fixpoint timer_insert (x : Timer) (l : list Timer) : list Timer :=
  match l with
  | [] => [x]
  | y :: r => if t_due x <? t_due y then x :: y :: r
              else y :: timer_insert x r
  end.

Definition setTimeout (delay : option Z) (w : WaitId) (m : SocketManager)
  : SocketManager :=
  with_timers (timer_insert {| t_due := now m + js_delay delay; t_wait := w |})
    m.

Definition clearTimeout (w : WaitId) (m : SocketManager) : SocketManager :=
  with_timers (filter (λ x, t_wait x ≠ w)) m.

(** *** Settling a promise *)

Definition settle (w : WaitId) (o : Outcome) (m : SocketManager)
  : SocketManager :=
  with_waits
    (alter (λ x, {| w_conn := w_conn x; w_cont := w_cont x;
                    w_outcome := Some o |}) w) m.

Definition pending (w : WaitId) (m : SocketManager) : option Wait :=
  match waits m !! w with
  | Some x => match w_outcome x with None => Some x | Some _ => None end
  | None => None
  end.

(** The code after the [await], run on the record [c] the awaited promise
    produced. *)
Definition resume (k : Cont) (c : ConnId) (m : SocketManager)
  : SocketManager * Outcome :=
  match k with
  | KConnect => (m, Resolved c)
  | KSubscribe event callback =>
      (update_conn c (subscribe_on event callback) m, Resolved c)
  | KPublish target event data =>
      if is_connected c m
      then
        match heap m !! c ≫= socket_emit event data ∘ socket with
        | Some s => (update_conn c (with_socket (λ _, s)) m, Resolved c)
        | None => (m, Rejected (ReservedEvent event))
        end
      else (m, Rejected (SocketNotConnected target))
  end.

(** The microtask of a fulfilled promise: the code that awaits it resumes,
    unless the promise was settled before. *)
Definition resolve (w : WaitId) (m : SocketManager) : SocketManager :=
  match pending w m with
  | Some x =>
      let '(m', o) := resume (w_cont x) (w_conn x) m in settle w o m'
  | None => m
  end.

(** The microtask of a promise rejected with [error]: unless the promise
    was settled before, the [await] throws and the call fails with
    [error] ([connect] logs and rethrows). *)
Definition reject (w : WaitId) (e : Error) (m : SocketManager)
  : SocketManager :=
  match pending w m with
  | Some _ => settle w (Rejected e) m
  | None => m
  end.

(** *** [connect] and [waitForConnection] *)

Inductive Status :=
  | Settled (o : Outcome)
  | Awaiting (w : WaitId).

Definition setupConnectionHandlers (connection : SocketConnection)
  : SocketConnection :=
  with_socket
    (λ s, socket_on "connect_error" OnConnectError
            (socket_on "disconnect" OnDisconnect
               (socket_on "connect" OnConnect s)))
    connection.

Definition target_of (m : SocketManager) (c : ConnId) : string :=
  match heap m !! c with
  | Some conn => url conn +:+ namespace conn
  | None => ""
  end.

(** The callback of the [setTimeout] in [waitForConnection]. *)
Definition on_timeout (w : WaitId) (m : SocketManager) : SocketManager :=
  match waits m !! w with
  | Some x =>
      let c := w_conn x in
      reject w (ConnectionTimeout (target_of m c))
        (update_conn c
           (with_socket (λ s, socket_off "connect_error"
                                (socket_off "connect" s))) m)
  | None => m
  end.

Definition waitForConnection (k : Cont) (c : ConnId) (m : SocketManager)
  : SocketManager * Status :=
  if is_connected c m
  then let '(m', o) := resume k c m in (m', Settled o)
  else
    let w := length (waits m) in
    let m1 :=
      with_waits (λ ws, (ws ++ [{| w_conn := c; w_cont := k;
                                   w_outcome := None |}])%list) m in
    let m2 := setTimeout (timeout defaultOptions) w m1 in
    let m3 :=
      update_conn c
        (with_socket
           (λ s, socket_on "connect_error" (WaitConnectError w)
                   (socket_on "connect" (WaitConnect w) s))) m2 in
    (m3, Awaiting w).

(** [connect], with the continuation of its caller. *)
Definition connect_k (k : Cont) (url namespace : string)
    (options : option SocketOptions) (m : SocketManager)
  : SocketManager * Status :=
  let connectionKey := getConnectionKey url namespace in
  match existing_connected connectionKey m with
  | Some c => let '(m', o) := resume k c m in (m', Settled o)
  | None =>
      let socketOptions := spread defaultOptions options in
      let socket :=
        io (url +:+ namespace)
           {| io_reconnectionAttempts := reconnectionAttempts socketOptions;
              io_reconnectionDelay := reconnectionDelay socketOptions;
              io_timeout := timeout socketOptions;
              io_autoConnect := autoConnect socketOptions;
              io_extraHeaders := headers socketOptions;
              io_query := params socketOptions |} in
      let connection :=
        {| socket := socket; url := url; namespace := namespace;
           reconnectAttempts := 0; connected := false; listeners := ∅ |} in
      let c := length (heap m) in
      let m1 := with_heap (λ h, (h ++ [setupConnectionHandlers connection])%list) m in
      let m2 := pool_set connectionKey c m1 in
      waitForConnection k c m2
  end.

Definition connect := connect_k KConnect.

Definition getOrCreateConnection (k : Cont) (url namespace : string)
    (options : option SocketOptions) (m : SocketManager)
  : SocketManager * Status :=
  match existing_connected (getConnectionKey url namespace) m with
  | Some c => let '(m', o) := resume k c m in (m', Settled o)
  | None => connect_k k url namespace options m
  end.

Definition subscribe (url namespace event : string) (callback : Callback)
    (options : option SocketOptions) (m : SocketManager)
  : SocketManager * Status :=
  getOrCreateConnection (KSubscribe event callback) url namespace options m.

Definition publish (url namespace event : string) (data : Data)
    (options : option SocketOptions) (m : SocketManager)
  : SocketManager * Status :=
  getOrCreateConnection (KPublish (url +:+ namespace) event data)
    url namespace options m.

(** [unsubscribe] never awaits: it returns at once, and never throws. *)
Definition unsubscribe (url namespace event : string)
    (callback : option Callback) (options : option SocketOptions)
    (m : SocketManager) : SocketManager :=
  match connections m !! getConnectionKey url namespace with
  | Some c => update_conn c (unsubscribe_on event callback) m
  | None => m
  end.

(** *** Microtasks *)

(** The promises settled during a turn, in the order they were settled:
    [None] for [resolve()], [Some e] for [reject(e)]. *)
Definition Microtasks := list (WaitId * option Error).

(** [resolve()] or [reject(e)] during a turn.  A promise settles once:
    the call is ignored when the promise was settled earlier in the turn
    (or before it, which [resolve] and [reject] check when the microtask
    runs). *)
Definition settle_later (w : WaitId) (r : option Error) (q : Microtasks)
  : Microtasks :=
  if decide (w ∈ q.*1) then q else q ++ [(w, r)].

(** The code that awaits a settled promise resumes. *)
Definition run_microtask (x : WaitId * option Error) (m : SocketManager)
  : SocketManager :=
  match x.2 with
  | None => resolve x.1 m
  | Some e => reject x.1 e m
  end.

Definition run_microtasks (q : Microtasks) (m : SocketManager)
  : SocketManager :=
  foldl (λ acc x, run_microtask x acc) m q.

(** ** Events: what the transport and the clock do to the manager *)

Section Dispatch.

(** Whether a callback throws on a payload.  Callbacks are the caller's
    code; all the manager sees of one is whether the call returns. *)
Variable cb_throws : Callback → Data → bool.

(** [eventListeners.forEach((listener) => listener(data))]: the loop has
    no [try], so the first callback that throws ends it.  Returns the
    invocations made and whether the loop threw. *)
Fixpoint forEach_listener (eventListeners : list Callback) (data : Data)
  : list (Callback * Data) * bool :=
  match eventListeners with
  | [] => ([], false)
  | listener :: rest =>
      if cb_throws listener data then ([(listener, data)], true)
      else let '(log, threw) := forEach_listener rest data in
           ((listener, data) :: log, threw)
  end.

(** The body of the 'connect_error' listener of
    [setupConnectionHandlers].  The client raises 'connect_error' only on
    a socket that is not connected, on which [socket.disconnect()] raises
    no event. *)
Definition on_connect_error (c : ConnId) (m : SocketManager)
  : SocketManager :=
  let m1 :=
    update_conn c
      (λ conn, with_state (S (reconnectAttempts conn)) false conn) m in
  match heap m1 !! c with
  | Some conn =>
      if Z.of_nat (reconnectAttempts conn)
           >=? js_or (reconnectionAttempts defaultOptions) 3
      then pool_delete (getConnectionKey (url conn) (namespace conn))
             (update_conn c (with_socket socket_disconnect) m1)
      else m1
  | None => m1
  end.

(** One listener of record [c]'s socket, called with [data] during a turn
    whose settled promises so far are [q].  The last component tells
    whether the listener threw.  The listeners of [waitForConnection]
    settle their promise; the code that awaits it resumes later. *)
Definition handle (q : Microtasks) (h : Handler) (c : ConnId) (data : Data)
    (m : SocketManager) : SocketManager * Microtasks * bool :=
  match h with
  | OnConnect => (update_conn c (with_state 0 true) m, q, false)
  | OnDisconnect =>
      (update_conn c (λ conn, with_state (reconnectAttempts conn) false conn)
         m, q, false)
  | OnConnectError => (on_connect_error c m, q, false)
  | FanOut event =>
      match heap m !! c with
      | Some conn =>
          match listeners conn !! event with
          | Some eventListeners =>
              let '(log, threw) := forEach_listener eventListeners data in
              (with_delivered (λ l, (l ++ log)%list) m, q, threw)
          | None => (m, q, false)
          end
      | None => (m, q, false)
      end
  | WaitConnect w =>
      (clearTimeout w
         (update_conn c (with_socket (socket_off_one "connect" h)) m),
       settle_later w None q, false)
  | WaitConnectError w =>
      (clearTimeout w
         (update_conn c
            (with_socket (socket_off_one "connect_error" h)) m),
       settle_later w (Some (ConnectError data)) q, false)
  end.

(** The emitter calls the listeners it had when the event arrived, in
    registration order; a listener that throws ends the round. *)
Fixpoint handle_all (q : Microtasks) (hs : list Handler) (c : ConnId)
    (data : Data) (m : SocketManager) : SocketManager * Microtasks * bool :=
  match hs with
  | [] => (m, q, false)
  | h :: rest =>
      let '(m', q', threw) := handle q h c data m in
      if threw then (m', q', true) else handle_all q' rest c data m'
  end.

(** [event] is dispatched with [data] on the socket of record [c]. *)
Definition emit (q : Microtasks) (c : ConnId) (event : string) (data : Data)
    (m : SocketManager) : SocketManager * Microtasks * bool :=
  match heap m !! c with
  | Some conn => handle_all q (handlers_of event (socket conn)) c data m
  | None => (m, q, false)
  end.


(** The listeners of [event] on the socket of record [c] run with [data]
    in a turn of their own, followed by the turn's microtasks.  The second
    component tells whether a listener threw. *)
Definition receive (c : ConnId) (event : string) (data : Data)
    (m : SocketManager) : SocketManager * bool :=
  let '(m', q, threw) := emit [] c event data m in
  (run_microtasks q m', threw).

(** Whether the client can raise [event] on the socket of record [c]. *)
Definition raises (c : ConnId) (event : string) (m : SocketManager) : bool :=
  match heap m !! c with
  | Some conn =>
      negb (sock_closed (socket conn))
      && negb (bool_decide (event = "connect_error")
               && sock_connected (socket conn))
  | None => false
  end.

(** The events the transport raises in one turn, in order.  An exception
    of a listener leaves the transport's loop: the events after it are
    not dispatched. *)
Fixpoint dispatch (events : list (ConnId * string * Data)) (q : Microtasks)
    (m : SocketManager) : SocketManager * Microtasks * bool :=
  match events with
  | [] => (m, q, false)
  | (c, event, data) :: rest =>
      if raises c event m
      then
        let '(m', q', threw) :=
          emit q c event data
            (update_conn c (with_socket (socket_sees event)) m) in
        if threw then (m', q', true) else dispatch rest q' m'
      else dispatch rest q m
  end.

(** A turn of the transport: its events, then the microtasks. *)
Definition turn (events : list (ConnId * string * Data)) (m : SocketManager)
  : SocketManager :=
  let '(m', q, _) := dispatch events [] m in run_microtasks q m'.

(** [connection.socket.disconnect()] on record [c]. *)
Definition close_socket (q : Microtasks) (c : ConnId) (m : SocketManager)
  : SocketManager * Microtasks * bool :=
  match heap m !! c with
  | Some conn =>
      let m1 := update_conn c (with_socket socket_disconnect) m in
      if sock_connected (socket conn)
      then emit q c "disconnect" "io client disconnect" m1
      else (m1, q, false)
  | None => (m, q, false)
  end.

(** [disconnect] is not [async]: an exception of [socket.disconnect()]
    leaves it before [this.connections.delete].  The second component
    tells whether the call threw. *)
Definition disconnect (url namespace : string) (m : SocketManager)
  : SocketManager * bool :=
  let connectionKey := getConnectionKey url namespace in
  match connections m !! connectionKey with
  | Some c =>
      let '(m1, q, threw) := close_socket [] c m in
      (run_microtasks q (if threw then m1 else pool_delete connectionKey m1),
       threw)
  | None => (m, false)
  end.

(** [this.connections.forEach((connection) => connection.socket.disconnect())] *)
Fixpoint close_all (cs : list ConnId) (q : Microtasks) (m : SocketManager)
  : SocketManager * Microtasks * bool :=
  match cs with
  | [] => (m, q, false)
  | c :: rest =>
      let '(m', q', threw) := close_socket q c m in
      if threw then (m', q', true) else close_all rest q' m'
  end.

(** The records of the pool, in the order the [Map] iterates. *)
Definition pool_records (m : SocketManager) : list ConnId :=
  omap (λ key, connections m !! key) (pool_order m).

(** An exception inside the [forEach] leaves [disconnectAll] before
    [this.connections.clear()]. *)
Definition disconnectAll (m : SocketManager) : SocketManager * bool :=
  let '(m1, q, threw) := close_all (pool_records m) [] m in
  (run_microtasks q (if threw then m1 else pool_clear m1), threw).

(** The clock reaches [t]: the timers due by then fire, earliest
    first. *)
Definition advance (t : Z) (m : SocketManager) : SocketManager :=
  let due := filter (λ x, t_due x ≤ t) (timers m) in
  foldl (λ acc x, on_timeout (t_wait x) acc)
    (with_now (Z.max (now m) t)
       (with_timers (filter (λ x, ¬ (t_due x ≤ t))) m))
    due.

(** A transport event that arrives at time [t]. *)
Definition receive_at (t : Z) (c : ConnId) (event : string) (data : Data)
    (m : SocketManager) : SocketManager :=
  (receive c event data (advance t m)).1.

(** [n] consecutive 'connect_error' events on record [c]. *)
Fixpoint connect_errors (n : nat) (c : ConnId) (error : Data)
    (m : SocketManager) : SocketManager :=
  match n with
  | O => m
  | S n' =>
      connect_errors n' c error (receive c "connect_error" error m).1
  end.

End Dispatch.

(** How a call stands: the outcome it returned with, or that of the
    promise it awaits. *)
Definition outcome_of (st : Status) (m : SocketManager) : option Outcome :=
  match st with
  | Settled o => Some o
  | Awaiting w => w ← waits m !! w; w_outcome w
  end.

(** Callbacks that return on every payload.  The adapter's callbacks are
    such: it wraps what it subscribes in a [try] of its own. *)
Definition never_throws : Callback → Data → bool := λ _ _, false.

(** ** The adapter's [socketDisconnect] export *)

Inductive ExportResult :=
  | Success (message : option string) (url namespace : string)
  | Failure (error : string).

(** [isValidNamespace] on a string. *)
Definition isValidNamespace (namespace : string) : bool :=
  String.prefix "/" namespace
  && negb (bool_decide (" "%char ∈ String.list_ascii_of_string namespace)).

Section Adapter.

(** [new URL(url).toString()] and [new URL(url).hostname]: the
    platform's URL parser, [None] where it throws. *)
Variable url_toString : string → option string.
Variable url_hostname : string → option string.

Definition startsWith (p s : string) : bool := String.prefix p s.

(** [normaliseUrl] on a string. *)
Definition normaliseUrl (url : string) : option string :=
  if bool_decide (url = "") then None
  else
    let url :=
      if negb (startsWith "http://" url) && negb (startsWith "https://" url)
         && negb (startsWith "ws://" url) && negb (startsWith "wss://" url)
      then "http://" +:+ url else url in
    match url_toString url with
    | Some parsedUrl =>
        Some (String.substring 0 (String.length parsedUrl - 1)%nat parsedUrl)
    | None => None
    end.

(** [isValidUrl] on a string. *)
Definition isValidUrl (url : string) : bool :=
  if bool_decide (url = "") then false
  else match url_hostname url with
       | Some hostname => negb (bool_decide (hostname = ""))
       | None => false
       end.

(** The [socketDisconnect] export on string arguments; nothing in its
    [try] block throws on them: the callbacks subscribed through the
    adapter never throw, so [disconnect] returns. *)
Definition socketDisconnect (url namespace : string) (m : SocketManager)
  : SocketManager * ExportResult :=
  match normaliseUrl url with
  | None =>
      (m, Failure
            "Invalid URL format. Expected format: http(s)://hostname[:port]")
  | Some url =>
      if negb (isValidUrl url)
      then (m, Failure
                 "Invalid URL format. Expected format: http(s)://hostname[:port]")
      else
        let namespace :=
          if isValidNamespace namespace then namespace else "/" in
        let connectionKey := url +:+ namespace in
        match connections m !! connectionKey with
        | None =>
            (m, Success (Some "No active connection found to disconnect")
                  url namespace)
        | Some _ =>
            ((disconnect never_throws url namespace m).1,
             Success None url namespace)
        end
  end.

End Adapter.

(** ** Predicates the properties are stated with *)

(** The event a listener is registered for in the source. *)
Definition handler_event (h : Handler) : string :=
  match h with
  | OnConnect | WaitConnect _ => "connect"
  | OnDisconnect => "disconnect"
  | OnConnectError | WaitConnectError _ => "connect_error"
  | FanOut event => event
  end.

(** The events the manager itself listens to on every socket. *)
Definition lifecycle_event (event : string) : Prop :=
  event ∈ ["connect"; "disconnect"; "connect_error"].

(** The registry invariant of one record: every listener sits under its own
    event; an event that has an entry has a non-empty, duplicate-free
    callback set and exactly one wire listener; an event without an entry
    has no wire listener. *)
Definition registry_ok (conn : SocketConnection) : Prop :=
  (∀ ev h, (ev, h) ∈ sock_handlers (socket conn) → handler_event h = ev)
  ∧ ∀ event,
      match listeners conn !! event with
      | Some s => s ≠ [] ∧ NoDup s ∧ wire_listeners event conn = 1%nat
      | None => wire_listeners event conn = 0%nat
      end.

Definition all_registry_ok (m : SocketManager) : Prop :=
  ∀ c conn, heap m !! c = Some conn → registry_ok conn.

(** A record as [connect] creates it, before [waitForConnection]. *)
Definition fresh_connection (url namespace : string)
    (options : option SocketOptions) : SocketConnection :=
  let socketOptions := spread defaultOptions options in
  setupConnectionHandlers
    {| socket :=
         io (url +:+ namespace)
            {| io_reconnectionAttempts := reconnectionAttempts socketOptions;
               io_reconnectionDelay := reconnectionDelay socketOptions;
               io_timeout := timeout socketOptions;
               io_autoConnect := autoConnect socketOptions;
               io_extraHeaders := headers socketOptions;
               io_query := params socketOptions |};
       url := url; namespace := namespace;
       reconnectAttempts := 0; connected := false; listeners := ∅ |}.

(** The listeners [waitForConnection] adds for the promise [w]. *)
Definition with_wait_handlers (w : WaitId) (conn : SocketConnection)
  : SocketConnection :=
  with_socket
    (λ s, socket_on "connect_error" (WaitConnectError w)
            (socket_on "connect" (WaitConnect w) s)) conn.

(** The state [connect] leaves when it opens a socket: a new record at the
    next free address, registered under the key, its promise pending and
    its timer set. *)
Definition connecting (k : Cont) (url namespace : string)
    (options : option SocketOptions) (m : SocketManager) : SocketManager :=
  let c := length (heap m) in
  let w := length (waits m) in
  {| connections := <[getConnectionKey url namespace := c]> (connections m);
     pool_order :=
       (if decide (getConnectionKey url namespace ∈ pool_order m)
        then pool_order m
        else pool_order m ++ [getConnectionKey url namespace]);
     heap :=
       heap m ++ [with_wait_handlers w (fresh_connection url namespace options)];
     waits := waits m ++ [{| w_conn := c; w_cont := k; w_outcome := None |}];
     timers := timer_insert {| t_due := now m + 5000; t_wait := w |} (timers m);
     now := now m;
     delivered := delivered m |}.

(** The claimed invariant in its own words: a wire listener for an event
    exists exactly when the event has a non-empty callback set. *)
Definition wire_iff_callbacks (conn : SocketConnection) : Prop :=
  ∀ event,
    (0 < wire_listeners event conn)%nat
    ↔ ∃ s, listeners conn !! event = Some s ∧ s ≠ [].

(** One invocation with [data] of each callback of [s], in order. *)
Definition invocations (s : list Callback) (data : Data)
  : list (Callback * Data) :=
  (λ x, (x, data)) <$> s.

(** The invocations a step added to the log. *)
Definition new_deliveries (m m' : SocketManager) : list (Callback * Data) :=
  drop (length (delivered m)) (delivered m').




(** "If the connected flag of the resolved record is true at send time,
    the payload is handed to the transport and the call does not wait",
    for a [publish] whose key leads to a connected record: the payload is
    appended to what the socket sends, and the call is settled when it
    returns. *)
Definition publish_sends_when_connected (url namespace event : string)
    (data : Data) (options : option SocketOptions) (m : SocketManager)
  : Prop :=
  ∀ c conn,
    connections m !! getConnectionKey url namespace = Some c →
    heap m !! c = Some conn → connected conn = true →
    (sock_emitted ∘ socket)
      <$> heap (publish url namespace event data options m).1 !! c
    = Some (sock_emitted (socket conn) ++ [(event, data)])
    ∧ ∃ o, (publish url namespace event data options m).2 = Settled o.

(** *** States used as concrete inputs *)

(** A callback behaviour: only [bad] throws. *)
Definition throws_on (bad : Callback) : Callback → Data → bool :=
  λ cb _, bool_decide (cb = bad).

(** [connect('http://h:3000', '/')] on a new manager, before the
    handshake. *)
Definition example_connecting : SocketManager :=
  (connect "http://h:3000" "/" None empty_manager).1.

(** The same after the transport's 'connect' event. *)
Definition example_connected : SocketManager :=
  turn never_throws [(0%nat, "connect", "")] example_connecting.

(** Callbacks 7, 8 and 9 subscribed to event x, in this order. *)
Definition example_three_subscribers : SocketManager :=
  (subscribe "http://h:3000" "/" "x" 9%nat None
     (subscribe "http://h:3000" "/" "x" 8%nat None
        (subscribe "http://h:3000" "/" "x" 7%nat None example_connected).1).1).1.

(** "Get-or-create hands back the record registered under the key, without
    allocating another one", for one call. *)
Definition reuses_registered_record (k : Cont) (url namespace : string)
    (options : option SocketOptions) (m : SocketManager) : Prop :=
  ∀ c,
    connections m !! getConnectionKey url namespace = Some c →
    connections (getOrCreateConnection k url namespace options m).1
      !! getConnectionKey url namespace = Some c
    ∧ length (heap (getOrCreateConnection k url namespace options m).1)
      = length (heap m).

(** Per-call options that set one field. *)
Definition attempts_option (n : Z) : option SocketOptions :=
  Some {| reconnectionAttempts := Some n; reconnectionDelay := None;
          timeout := None; autoConnect := None; headers := None;
          params := None |}.

Definition timeout_option (ms : Z) : option SocketOptions :=
  Some {| reconnectionAttempts := None; reconnectionDelay := None;
          timeout := Some ms; autoConnect := None; headers := None;
          params := None |}.

(** A stand-in for the platform's URL parser on the inputs of the
    examples: [toString] adds the trailing slash of an origin, [hostname]
    is what follows the scheme. *)
Definition example_toString (url : string) : option string :=
  Some (url +:+ "/").

Definition example_hostname (url : string) : option string :=
  Some (String.substring 7 (String.length url - 7)%nat url).

(** [connect('http://h/a', '/b')] after its handshake. *)
Definition example_collision : SocketManager :=
  turn never_throws [(0%nat, "connect", "")]
    (connect "http://h/a" "/b" None empty_manager).1.


(** ** Runs of the manager *)

(** What can happen to a manager, one turn each: a call of one of its
    public methods, an event the transport raises on one of the sockets
    ([Transport]) or several of them raised in one go ([Turn]), or the
    clock reaching a time. *)
Inductive Action :=
  | CallConnect (url namespace : string) (options : option SocketOptions)
  | CallSubscribe (url namespace event : string) (callback : Callback)
      (options : option SocketOptions)
  | CallUnsubscribe (url namespace event : string)
      (callback : option Callback) (options : option SocketOptions)
  | CallPublish (url namespace event : string) (data : Data)
      (options : option SocketOptions)
  | CallDisconnect (url namespace : string)
  | CallDisconnectAll
  | Transport (c : ConnId) (event : string) (data : Data)
  | Turn (events : list (ConnId * string * Data))
  | Elapse (t : Z).

Definition step (cb_throws : Callback → Data → bool) (a : Action)
    (m : SocketManager) : SocketManager :=
  match a with
  | CallConnect url namespace options => (connect url namespace options m).1
  | CallSubscribe url namespace event callback options =>
      (subscribe url namespace event callback options m).1
  | CallUnsubscribe url namespace event callback options =>
      unsubscribe url namespace event callback options m
  | CallPublish url namespace event data options =>
      (publish url namespace event data options m).1
  | CallDisconnect url namespace => (disconnect cb_throws url namespace m).1
  | CallDisconnectAll => (disconnectAll cb_throws m).1
  | Transport c event data => turn cb_throws [(c, event, data)] m
  | Turn events => turn cb_throws events m
  | Elapse t => advance t m
  end.

Definition run (cb_throws : Callback → Data → bool) (l : list Action)
    (m : SocketManager) : SocketManager :=
  foldl (λ acc a, step cb_throws a acc) m l.

(** A run: connect, handshake, then callbacks 7, 8 and 9 subscribe to
    event x. *)
Definition example_run : list Action :=
  [CallConnect "http://h:3000" "/" None;
   Transport 0%nat "connect" "";
   CallSubscribe "http://h:3000" "/" "x" 7%nat None;
   CallSubscribe "http://h:3000" "/" "x" 8%nat None;
   CallSubscribe "http://h:3000" "/" "x" 9%nat None].

(** A run: connect and handshake. *)
Definition example_run_connected : list Action :=
  [CallConnect "http://h:3000" "/" None; Transport 0%nat "connect" ""].

(** What holds of the promises and timers of a manager between two steps.
    Every record satisfies the registry invariant.  A promise awaits a
    record of the store, and no two promises await the same record.  At
    most one timer is pending per promise, and the record a pending timer
    belongs to has no subscription yet, still carries the promise's
    'connect' listener, and is not connected.  While the listeners of a
    'connect' event on record [c] run, the last part is suspended for [c]:
    [exempt] is then [Some c]. *)
Record manager_ok (exempt : option ConnId) (m : SocketManager) : Prop := {
  ok_registry : all_registry_ok m;
  ok_waits_bounded :
    ∀ w x, waits m !! w = Some x → (w_conn x < length (heap m))%nat;
  ok_waits_inj :
    ∀ w w' x x',
      waits m !! w = Some x → waits m !! w' = Some x' →
      w_conn x = w_conn x' → w = w';
  ok_timers_nodup : NoDup (t_wait <$> timers m);
  ok_timers :
    ∀ t, t ∈ timers m →
      ∃ x conn,
        waits m !! t_wait t = Some x ∧ heap m !! w_conn x = Some conn
        ∧ listeners conn = ∅
        ∧ ("connect", WaitConnect (t_wait t)) ∈ sock_handlers (socket conn)
        ∧ (exempt ≠ Some (w_conn x) → connected conn = false);
}.

(** ** States of a record during [connect] *)

(** The record of a pending [connect] after the handshake, before the code
    that awaits it resumes. *)
Definition handshaken (w : WaitId) (url namespace : string)
    (options : option SocketOptions) : SocketConnection :=
  with_socket (socket_off_one "connect" (WaitConnect w))
    (with_state 0 true
       (with_wait_handlers w (fresh_connection url namespace options))).

(** The record of a pending [connect] after a first 'connect_error'. *)
Definition refused (w : WaitId) (url namespace : string)
    (options : option SocketOptions) : SocketConnection :=
  with_socket (socket_off_one "connect_error" (WaitConnectError w))
    (with_state 1 false
       (with_wait_handlers w (fresh_connection url namespace options))).

(** How the code after the [await] ends on a connected record. *)
Definition resumed (k : Cont) (c : ConnId) : Outcome :=
  match k with
  | KPublish _ event _ =>
      if decide (event ∈ reserved_events)
      then Rejected (ReservedEvent event) else Resolved c
  | _ => Resolved c
  end.

(** What the code after the [await] leaves of a connected record. *)
Definition resumed_record (k : Cont) (conn : SocketConnection)
  : SocketConnection :=
  match k with
  | KConnect => conn
  | KSubscribe event callback => subscribe_on event callback conn
  | KPublish _ event d =>
      if decide (event ∈ reserved_events) then conn
      else with_socket (socket_send event d) conn
  end.

(** ** Invariants of the pool and of the promises *)

(** Every promise of [m] is still there in [m'], for the same record and
    the same awaiting code, and with the outcome it had if it had one. *)
Definition promises_kept (m m' : SocketManager) : Prop :=
  ∀ w x, waits m !! w = Some x →
    ∃ x', waits m' !! w = Some x'
          ∧ w_conn x' = w_conn x ∧ w_cont x' = w_cont x
          ∧ ∀ o, w_outcome x = Some o → w_outcome x' = Some o.

(** The pool invariant: the socket of every record was opened on the
    record's URL followed by its namespace, and every key of the pool
    leads to a record of the store that bears this key. *)
Definition pool_ok (m : SocketManager) : Prop :=
  (∀ c conn, heap m !! c = Some conn →
     sock_uri (socket conn) = url conn +:+ namespace conn)
  ∧ ∀ key c, connections m !! key = Some c →
      ∃ conn, heap m !! c = Some conn
              ∧ getConnectionKey (url conn) (namespace conn) = key.

(** No key of the pool leads to a socket on which [socket.disconnect()]
    was called. *)
Definition pool_open (m : SocketManager) : Prop :=
  ∀ key c conn, connections m !! key = Some c → heap m !! c = Some conn →
    sock_closed (socket conn) = false.

(** The iteration order of the pool lists each of its keys once. *)
Definition pool_order_ok (m : SocketManager) : Prop :=
  NoDup (pool_order m)
  ∧ ∀ key, key ∈ pool_order m ↔ is_Some (connections m !! key).

(** Callbacks that return when they are handed the reason of a
    'disconnect' the manager itself asked for. *)
Definition returns_on_disconnect (cb_throws : Callback → Data → bool)
  : Prop :=
  ∀ cb, cb_throws cb "io client disconnect" = false.

(** No promise settled during the turn has a timer left. *)
Definition settled_without_timer (q : Microtasks) (m : SocketManager) : Prop :=
  ∀ w t, w ∈ q.*1 → t ∈ timers m → t_wait t ≠ w.

(** Writes to a record that leave its URL, its namespace and the address
    of its socket alone. *)
Definition keeps_names (f : SocketConnection → SocketConnection) : Prop :=
  ∀ conn, url (f conn) = url conn ∧ namespace (f conn) = namespace conn
          ∧ sock_uri (socket (f conn)) = sock_uri (socket conn).

Definition keeps_open (f : SocketConnection → SocketConnection) : Prop :=
  ∀ conn, sock_closed (socket (f conn)) = sock_closed (socket conn).

(** A run: two [connect] calls for one key before any handshake, the
    handshake of the second socket, then three 'connect_error' events on
    the first. *)
Definition example_run_stale : list Action :=
  [CallConnect "http://h:3000" "/" None;
   CallConnect "http://h:3000" "/" None;
   Transport 1%nat "connect" "";
   Transport 0%nat "connect_error" "refused";
   Transport 0%nat "connect_error" "refused"].

(** Every pending promise has its timer pending, due within the default
    timeout. *)
Definition deadline_ok (m : SocketManager) : Prop :=
  ∀ w x, waits m !! w = Some x → w_outcome x = None →
    ∃ t, t ∈ timers m ∧ t_wait t = w ∧ t_due t ≤ now m + 5000.

(** A step that takes no time, makes no promise, and clears no timer of
    a promise it leaves pending. *)
Definition quiet_step (m m' : SocketManager) : Prop :=
  now m' = now m
  ∧ (∀ w x, waits m' !! w = Some x → w_outcome x = None →
            waits m !! w = Some x)
  ∧ ∀ t x, t ∈ timers m → waits m' !! t_wait t = Some x →
           w_outcome x = None → t ∈ timers m'.

(** No key of the pool leads to a closed socket, the records of [X]
    apart. *)
Definition open_except (X : ConnId → Prop) (m : SocketManager) : Prop :=
  ∀ key c conn, connections m !! key = Some c → heap m !! c = Some conn →
    ¬ X c → sock_closed (socket conn) = false.

(** The keys a step leaves in the pool were there before. *)
Definition pool_shrinks (m m' : SocketManager) : Prop :=
  ∀ key c, connections m' !! key = Some c → connections m !! key = Some c.

(** What [disconnect] relies on while the socket of record [c], found
    under [key], is closed and still in the pool. *)
Definition closing (key : string) (c : ConnId) (m : SocketManager) : Prop :=
  pool_ok m ∧ open_except (λ c', c' = c) m
  ∧ ∀ key', connections m !! key' = Some c → key' = key.

(** A run: connect, handshake, callback 7 subscribes to 'disconnect',
    then [disconnect]. *)
Definition example_run_thrower : list Action :=
  [CallConnect "http://h:3000" "/" None;
   Transport 0%nat "connect" "";
   CallSubscribe "http://h:3000" "/" "disconnect" 7%nat None;
   CallDisconnect "http://h:3000" "/"].

(** The state during a turn that started in [m]: no time has passed, the
    promises are as they were, and a timer that is gone belongs to a
    promise settled in the turn. *)
Definition turn_quiet (m m' : SocketManager) (q : Microtasks) : Prop :=
  now m' = now m ∧ waits m' = waits m
  ∧ ∀ t, t ∈ timers m → t ∈ timers m' ∨ t_wait t ∈ q.*1.

(** [m'] differs from [m] by the connected flag of record [c] and by the
    invocations recorded. *)
Definition flag_only (c : ConnId) (m m' : SocketManager) : Prop :=
  connections m' = connections m ∧ pool_order m' = pool_order m
  ∧ waits m' = waits m ∧ timers m' = timers m ∧ now m' = now m
  ∧ (∀ c', c' ≠ c → heap m' !! c' = heap m !! c')
  ∧ ∀ conn, heap m !! c = Some conn →
      ∃ b, heap m' !! c = Some (with_state (reconnectAttempts conn) b conn).

(** ** JavaScript values, as the validators and the sanitiser see them *)

(** A plain object is the list of its own enumerable string-keyed
    properties, in the order of [Object.entries], no key twice; its
    prototype is not part of the value.  An array is the list of its
    elements. *)
#[local] Unset Elimination Schemes.
Inductive JsValue :=
  | JUndefined
  | JNull
  | JBoolean (b : bool)
  | JNumber (x : PrimFloat.float)
  | JBigInt (z : Z)
  | JString (s : string)
  | JSymbol (id : nat)
  | JFunction (id : nat)
  | JArray (items : list JsValue)
  | JObject (entries : list (string * JsValue)).
#[local] Set Elimination Schemes.

(** The results of [typeof]. *)
Inductive JsType :=
  | TUndefined | TObject | TBoolean | TNumber | TBigInt | TString
  | TSymbol | TFunction.

Global Instance JsType_eq_dec : EqDecision JsType.
Proof. solve_decision. Defined.

Definition typeof (v : JsValue) : JsType :=
  match v with
  | JUndefined => TUndefined
  | JNull | JArray _ | JObject _ => TObject
  | JBoolean _ => TBoolean
  | JNumber _ => TNumber
  | JBigInt _ => TBigInt
  | JString _ => TString
  | JSymbol _ => TSymbol
  | JFunction _ => TFunction
  end.

(** What [if (v)] and [!v] test. *)
Definition truthy (v : JsValue) : bool :=
  match v with
  | JUndefined | JNull => false
  | JBoolean b => b
  | JNumber x => negb (PrimFloat.is_zero x || PrimFloat.is_nan x)
  | JBigInt z => negb (z =? 0)
  | JString s => negb (bool_decide (s = ""))
  | JSymbol _ | JFunction _ | JArray _ | JObject _ => true
  end.

(** [o[key]] on the entries of a plain object, for a key that
    [Object.prototype] does not define. *)
Fixpoint get_entry (key : string) (entries : list (string * JsValue))
  : JsValue :=
  match entries with
  | [] => JUndefined
  | (k, v) :: rest => if decide (k = key) then v else get_entry key rest
  end.

(** [o[key] = value] on the entries of a plain object whose prototype is
    [Object.prototype]: a property that exists keeps its place, a new one
    goes last, and the key __proto__ reaches the accessor of the
    prototype, which adds no property. *)
Fixpoint set_entry (key : string) (value : JsValue)
    (entries : list (string * JsValue)) : list (string * JsValue) :=
  match entries with
  | [] => if decide (key = "__proto__") then [] else [(key, value)]
  | (k, v) :: rest =>
      if decide (k = key) then (k, value) :: rest
      else (k, v) :: set_entry key value rest
  end.

(** ** [sanitiseData] (validations/sanitisers.ts) *)

(** [s.replace(/c/g, r)] for a one-character pattern. *)
Fixpoint replace_all (c : ascii) (r : string) (s : string) : string :=
  match s with
  | EmptyString => EmptyString
  | String a s' =>
      if Ascii.eqb a c then r +:+ replace_all c r s'
      else String a (replace_all c r s')
  end.

(** The double quote. *)
Definition quot : ascii := "034"%char.

(** The chain of [replace] calls on a string. *)
Definition sanitise_string (data : string) : string :=
  replace_all "'" "&#039;"
    (replace_all quot "&quot;"
       (replace_all ">" "&gt;"
          (replace_all "<" "&lt;"
             (replace_all "&" "&amp;" data)))).

(** The body of the loop over [Object.entries(data)], with [sanitised]
    the object built so far. *)
Definition assign_sanitised (sanitiseData : JsValue → JsValue)
    (sanitised : list (string * JsValue)) (entry : string * JsValue)
  : list (string * JsValue) :=
  let '(key, value) := entry in
  match typeof value with
  | TFunction | TSymbol => sanitised
  | _ => set_entry key (sanitiseData value) sanitised
  end.

Fixpoint sanitiseData (data : JsValue) : JsValue :=
  match data with
  | JUndefined | JNull => JNull
  | JArray items => JArray (sanitiseData <$> items)
  | JObject entries =>
      JObject (fold_left (assign_sanitised sanitiseData) entries [])
  | JString s => JString (sanitise_string s)
  | JBoolean _ | JNumber _ | JBigInt _ | JSymbol _ | JFunction _ => data
  end.

(** ** [isValidOptions] (validations/validators.ts) *)

(** [options.key] for one of the six option names, which no prototype
    defines: the own property of a plain object, [undefined] on any other
    value that has properties. *)
Definition get_property (options : JsValue) (key : string) : JsValue :=
  match options with
  | JObject entries => get_entry key entries
  | _ => JUndefined
  end.

(** [options.key = value], reached only where [options.key] was found
    truthy. *)
Definition set_property (options : JsValue) (key : string) (value : JsValue)
  : JsValue :=
  match options with
  | JObject entries => JObject (set_entry key value entries)
  | _ => options
  end.

Definition is_undefined (v : JsValue) : bool :=
  match v with JUndefined => true | _ => false end.

(** [v !== undefined && typeof v !== t] *)
Definition wrong_type (v : JsValue) (t : JsType) : bool :=
  negb (is_undefined v) && negb (bool_decide (typeof v = t)).

Definition isValidOptions (options : JsValue) : bool :=
  if negb (truthy options) then true
  else if negb (bool_decide (typeof options = TObject)) then false
  else if wrong_type (get_property options "reconnectionAttempts") TNumber
  then false
  else if wrong_type (get_property options "reconnectionDelay") TNumber
  then false
  else if wrong_type (get_property options "timeout") TNumber then false
  else if wrong_type (get_property options "autoConnect") TBoolean then false
  else if wrong_type (get_property options "headers") TObject then false
  else if wrong_type (get_property options "params") TObject then false
  else true.

(** The block of the exports that sanitises [options.headers] and
    [options.params] before [isValidOptions] is asked. *)
Definition sanitise_options (options : JsValue) : JsValue :=
  if truthy options then
    let options1 :=
      if truthy (get_property options "headers")
      then set_property options "headers"
             (sanitiseData (get_property options "headers"))
      else options in
    if truthy (get_property options1 "params")
    then set_property options1 "params"
           (sanitiseData (get_property options1 "params"))
    else options1
  else options.

(** ** [getConnectionMetrics] and the [socketDisconnectAll] export *)

Record ConnectionMetrics := mkConnectionMetrics {
  cm_key : string;
  cm_url : string;
  cm_namespace : string;
  cm_connected : bool;
  cm_reconnectAttempts : nat;
  cm_events : nat;
  cm_totalListeners : nat;
}.

Record Metrics := mkMetrics {
  metrics_total : nat;
  metrics_connected : nat;
  metrics_connections : list ConnectionMetrics;
}.

(** The body of the loop over the pool, for one record. *)
Definition connection_metrics (key : string) (connection : SocketConnection)
  : ConnectionMetrics :=
  let listenerCount :=
    map_fold (λ _ listeners listenerCount,
                (listenerCount + length listeners)%nat)
      0%nat (listeners connection) in
  {| cm_key := key;
     cm_url := url connection;
     cm_namespace := namespace connection;
     cm_connected := connected connection;
     cm_reconnectAttempts := reconnectAttempts connection;
     cm_events := size (listeners connection);
     cm_totalListeners := listenerCount |}.

(** The pool is enumerated in the order of its model, which is not the
    insertion order of the [Map]: the list below is the source's up to
    the order of its items. *)
Definition getConnectionMetrics (m : SocketManager) : Metrics :=
  let entries :=
    omap (λ entry, connection_metrics entry.1 <$> heap m !! entry.2)
      (map_to_list (connections m)) in
  {| metrics_total := size (connections m);
     metrics_connected := length (filter (λ x, cm_connected x = true) entries);
     metrics_connections := entries |}.

(** The export: the manager after it, and the [disconnectedCount] it
    returns with [success: true]. *)
Definition socketDisconnectAll (m : SocketManager) : SocketManager * nat :=
  let metrics := getConnectionMetrics m in
  ((disconnectAll never_throws m).1, metrics_total metrics).

(** ** The logger's level (index.ts) *)

Definition validLevels : list string :=
  ["error"; "warn"; "info"; "http"; "verbose"; "debug"; "silly"].

Definition DEFAULT_LOG_LEVEL : string := "info".

Section Logger.

(** [String.prototype.toLowerCase] *)
Variable toLowerCase : string → string.

(** [configuredLevel] is what [GetResourceMetadata] returned, [None] for
    [null] and where the call throws. *)
Definition getConfiguredLogLevel (configuredLevel : option string) : string :=
  match configuredLevel with
  | Some level =>
      if negb (bool_decide (level = ""))
         && bool_decide (toLowerCase level ∈ validLevels)
      then toLowerCase level
      else DEFAULT_LOG_LEVEL
  | None => DEFAULT_LOG_LEVEL
  end.

End Logger.

(** Every string value of a value, at any depth. *)
Fixpoint strings_of (v : JsValue) : list string :=
  match v with
  | JString s => [s]
  | JArray items => items ≫= strings_of
  | JObject entries => entries ≫= λ entry, strings_of entry.2
  | _ => []
  end.

(** A value with the values it contains, at any depth. *)
Fixpoint subvalues (v : JsValue) : list JsValue :=
  v :: match v with
       | JArray items => items ≫= subvalues
       | JObject entries => entries ≫= λ entry, subvalues entry.2
       | _ => []
       end.

(** Induction on values, with the elements of arrays and the values of
    properties. *)
Section JsValue_induction.
Variable P : JsValue → Prop.
Hypothesis Hundefined : P JUndefined.
Hypothesis Hnull : P JNull.
Hypothesis Hboolean : ∀ b, P (JBoolean b).
Hypothesis Hnumber : ∀ x, P (JNumber x).
Hypothesis Hbigint : ∀ z, P (JBigInt z).
Hypothesis Hstring : ∀ s, P (JString s).
Hypothesis Hsymbol : ∀ id, P (JSymbol id).
Hypothesis Hfunction : ∀ id, P (JFunction id).
Hypothesis Harray : ∀ items, Forall P items → P (JArray items).
Hypothesis Hobject :
  ∀ entries, Forall (λ kv, P kv.2) entries → P (JObject entries).

Fixpoint JsValue_ind (v : JsValue) : P v :=
  match v with
  | JUndefined => Hundefined
  | JNull => Hnull
  | JBoolean b => Hboolean b
  | JNumber x => Hnumber x
  | JBigInt z => Hbigint z
  | JString s => Hstring s
  | JSymbol id => Hsymbol id
  | JFunction id => Hfunction id
  | JArray items =>
      Harray items
        ((fix go (l : list JsValue) : Forall P l :=
            match l with
            | [] => @List.Forall_nil _ P
            | x :: r => @List.Forall_cons _ P x r (JsValue_ind x) (go r)
            end) items)
  | JObject entries =>
      Hobject entries
        ((fix go (l : list (string * JsValue)) : Forall (λ kv, P kv.2) l :=
            match l with
            | [] => @List.Forall_nil _ _
            | kv :: r =>
                @List.Forall_cons _ (λ kv, P kv.2) kv r (JsValue_ind kv.2) (go r)
            end) entries)
  end.

End JsValue_induction.


(** The entity one character is replaced by, or the character itself. *)
Definition escape_char (a : ascii) : string :=
  if Ascii.eqb a "&" then "&amp;"
  else if Ascii.eqb a "<" then "&lt;"
  else if Ascii.eqb a ">" then "&gt;"
  else if Ascii.eqb a quot then "&quot;"
  else if Ascii.eqb a "'" then "&#039;"
  else String a EmptyString.

(** One pass over a string that replaces each character on its own. *)
Fixpoint escape_each (s : string) : string :=
  match s with
  | EmptyString => EmptyString
  | String a s' => escape_char a +:+ escape_each s'
  end.

(** The characters the sanitiser replaces. *)
Definition special_chars : list ascii := ["&"; "<"; ">"; quot; "'"]%char.

(** The properties [sanitiseData] copies. *)
Definition kept (entry : string * JsValue) : Prop :=
  typeof entry.2 ≠ TFunction ∧ typeof entry.2 ≠ TSymbol
  ∧ entry.1 ≠ "__proto__".

Global Instance kept_dec entry : Decision (kept entry).
Proof. unfold kept. apply _. Defined.

(** * Properties *)

(** ** The emitter *)

Lemma handlers_of_on e ev h s :
  handlers_of e (socket_on ev h s)
  = (handlers_of e s ++ if decide (ev = e) then [h] else [])%list.
Proof.
  unfold handlers_of, socket_on; simpl.
  rewrite filter_app, fmap_app. f_equal.
  rewrite filter_cons, filter_nil; simpl.
  destruct (decide (ev = e)); reflexivity.
Qed.

Lemma filter_event_off e ev (l : list (string * Handler)) :
  filter (λ eh, eh.1 = e) (filter (λ eh, eh.1 ≠ ev) l)
  = if decide (e = ev) then [] else filter (λ eh, eh.1 = e) l.
Proof.
  induction l as [|[ev' h] l IH].
  - destruct (decide (e = ev)); reflexivity.
  - rewrite (filter_cons (λ eh, eh.1 ≠ ev)); simpl.
    destruct (decide (ev' ≠ ev)) as [Hne|He].
    + rewrite !filter_cons; simpl. rewrite IH.
      destruct (decide (ev' = e)), (decide (e = ev)); congruence.
    + apply dec_stable in He; subst ev'. rewrite IH.
      destruct (decide (e = ev)) as [->|Hne]; [reflexivity|].
      rewrite filter_cons; simpl. rewrite decide_False; congruence.
Qed.

Lemma handlers_of_off e ev s :
  handlers_of e (socket_off ev s)
  = if decide (e = ev) then [] else handlers_of e s.
Proof.
  unfold handlers_of, socket_off; simpl. rewrite filter_event_off.
  destruct (decide (e = ev)); reflexivity.
Qed.

Lemma elem_of_handlers_off ev h e s :
  (ev, h) ∈ sock_handlers (socket_off e s) → (ev, h) ∈ sock_handlers s.
Proof. unfold socket_off; simpl. rewrite list_elem_of_filter. tauto. Qed.

Lemma wire_listeners_on e e' conn :
  wire_listeners e (with_socket (socket_on e' (FanOut e')) conn)
  = (wire_listeners e conn + if decide (e' = e) then 1 else 0)%nat.
Proof.
  unfold wire_listeners; simpl. rewrite handlers_of_on.
  rewrite filter_app, length_app. f_equal.
  destruct (decide (e' = e)) as [->|?]; [|reflexivity].
  rewrite filter_cons, filter_nil. rewrite decide_True by reflexivity.
  reflexivity.
Qed.

Lemma wire_listeners_off e e' conn :
  wire_listeners e (with_socket (socket_off e') conn)
  = if decide (e = e') then 0%nat else wire_listeners e conn.
Proof.
  unfold wire_listeners; simpl. rewrite handlers_of_off.
  destruct (decide (e = e')); reflexivity.
Qed.

Lemma wire_listeners_with_listeners e f conn :
  wire_listeners e (with_listeners f conn) = wire_listeners e conn.
Proof. reflexivity. Qed.

(** ** Sets of callbacks *)

Lemma set_add_nonempty cb s : set_add cb s ≠ [].
Proof.
  unfold set_add. destruct (decide (cb ∈ s)) as [Hin|_].
  - intros ->. inversion Hin.
  - destruct s; discriminate.
Qed.

Lemma set_add_NoDup cb s : NoDup s → NoDup (set_add cb s).
Proof.
  unfold set_add. destruct (decide (cb ∈ s)); [done|].
  intros Hs. apply NoDup_app. split; [done|]. split.
  - intros x Hx ->%list_elem_of_singleton. contradiction.
  - apply NoDup_singleton.
Qed.

Lemma elem_of_set_add x cb s : x ∈ set_add cb s ↔ x = cb ∨ x ∈ s.
Proof.
  unfold set_add. destruct (decide (cb ∈ s)).
  - split; [tauto|]. intros [->|?]; done.
  - rewrite elem_of_app, list_elem_of_singleton. tauto.
Qed.

Lemma set_add_idemp cb s : set_add cb (set_add cb s) = set_add cb s.
Proof.
  unfold set_add at 1. rewrite decide_True; [done|].
  apply elem_of_set_add. by left.
Qed.

Lemma set_delete_NoDup cb s : NoDup s → NoDup (set_delete cb s).
Proof. apply NoDup_filter. Qed.

(** ** The registry invariant *)

Lemma registry_ok_fresh url namespace options :
  registry_ok (fresh_connection url namespace options).
Proof.
  split.
  - intros ev h. unfold fresh_connection; simpl.
    rewrite !elem_of_cons, elem_of_nil.
    intros [H|[H|[H|[]]]]; inversion H; reflexivity.
  - intros event. unfold fresh_connection; simpl. rewrite lookup_empty.
    unfold wire_listeners, handlers_of; simpl.
    rewrite !filter_cons, filter_nil; simpl.
    repeat case_decide; simpl; rewrite ?filter_cons, ?filter_nil;
      repeat case_decide; simpl; congruence.
Qed.

Lemma registry_ok_subscribe_on event callback conn :
  registry_ok conn → registry_ok (subscribe_on event callback conn).
Proof.
  intros [Hwf Hreg]. unfold subscribe_on.
  destruct (listeners conn !! event) as [s|] eqn:He.
  - rewrite He. split; [exact Hwf|].
    intros e; simpl. specialize (Hreg e).
    destruct (decide (event = e)) as [<-|Hne].
    + rewrite lookup_insert_eq. rewrite He in Hreg.
      destruct Hreg as (_ & Hnd & Hw).
      split; [apply set_add_nonempty|]. split; [by apply set_add_NoDup|].
      exact Hw.
    + rewrite lookup_insert_ne by done. exact Hreg.
  - simpl. rewrite lookup_insert_eq. split.
    + intros ev h; simpl. rewrite elem_of_app, list_elem_of_singleton.
      intros [Hin|Heq]; [by apply Hwf|]. by inversion Heq.
    + intros e. specialize (Hreg e).
      rewrite wire_listeners_with_listeners, wire_listeners_on,
        wire_listeners_with_listeners.
      simpl. destruct (decide (event = e)) as [<-|Hne].
      * rewrite lookup_insert_eq. rewrite He in Hreg. rewrite Hreg.
        split; [apply set_add_nonempty|].
        split; [apply set_add_NoDup, NoDup_nil_2|reflexivity].
      * rewrite !lookup_insert_ne by done.
        destruct (listeners conn !! e); rewrite Nat.add_0_r; exact Hreg.
Qed.

Lemma registry_ok_off event conn :
  registry_ok conn →
  registry_ok (with_socket (socket_off event)
                 (with_listeners (delete event) conn)).
Proof.
  intros [Hwf Hreg]. split.
  - intros ev h Hin. apply Hwf. by apply elem_of_handlers_off in Hin.
  - intros e. rewrite wire_listeners_off, wire_listeners_with_listeners.
    simpl. destruct (decide (e = event)) as [->|Hne].
    + rewrite lookup_delete_eq. reflexivity.
    + rewrite lookup_delete_ne by done. apply Hreg.
Qed.

Lemma registry_ok_unsubscribe_on event callback conn :
  registry_ok conn → registry_ok (unsubscribe_on event callback conn).
Proof.
  intros Hok. unfold unsubscribe_on.
  destruct callback as [cb|], (listeners conn !! event) as [s|] eqn:He;
    try exact Hok; [|by apply registry_ok_off].
  destruct (decide (length (set_delete cb s) = 0%nat)) as [_|Hlen];
    [by apply registry_ok_off|].
  destruct Hok as [Hwf Hreg]. split; [exact Hwf|].
  intros e; simpl. specialize (Hreg e).
  destruct (decide (event = e)) as [<-|Hne].
  - rewrite lookup_insert_eq. rewrite He in Hreg.
    destruct Hreg as (_ & Hnd & Hw).
    split; [intros Hnil; by rewrite Hnil in Hlen|].
    split; [by apply set_delete_NoDup|exact Hw].
  - rewrite lookup_insert_ne by done. exact Hreg.
Qed.

(** The writes that touch neither the callback sets nor the wire
    listeners keep the invariant. *)
Lemma registry_ok_send event data conn :
  registry_ok conn →
  registry_ok (with_socket (socket_send event data) conn).
Proof. intros H; exact H. Qed.

Lemma registry_ok_disconnect conn :
  registry_ok conn → registry_ok (with_socket socket_disconnect conn).
Proof. intros H; exact H. Qed.

Lemma wire_listeners_on_other e ev h conn :
  (∀ x, h ≠ FanOut x) →
  wire_listeners e (with_socket (socket_on ev h) conn) = wire_listeners e conn.
Proof.
  intros Hh. unfold wire_listeners; simpl. rewrite handlers_of_on.
  rewrite filter_app, length_app.
  destruct (decide (ev = e)); simpl; [|lia].
  rewrite filter_cons, filter_nil. rewrite decide_False by apply Hh.
  simpl; lia.
Qed.

Lemma registry_ok_wait_handlers w conn :
  registry_ok conn → registry_ok (with_wait_handlers w conn).
Proof.
  intros [Hwf Hreg]. split.
  - intros ev h; simpl. rewrite !elem_of_app, !list_elem_of_singleton.
    intros [[Hin|Heq]|Heq]; [by apply Hwf| |]; by inversion Heq.
  - intros e. specialize (Hreg e).
    unfold with_wait_handlers.
    change (with_socket (λ s, socket_on "connect_error" (WaitConnectError w)
                                (socket_on "connect" (WaitConnect w) s)) conn)
      with (with_socket (socket_on "connect_error" (WaitConnectError w))
              (with_socket (socket_on "connect" (WaitConnect w)) conn)).
    rewrite !wire_listeners_on_other by done. exact Hreg.
Qed.

Lemma elem_of_remove_first eh x l : x ∈ remove_first eh l → x ∈ l.
Proof.
  induction l as [|y l IH]; simpl; [done|].
  destruct (decide (y = eh)).
  - intros ?. by right.
  - intros [->|?]%elem_of_cons; [by left|]. right. by apply IH.
Qed.

Lemma wire_listeners_off_one e ev h conn :
  (∀ x, h ≠ FanOut x) →
  wire_listeners e (with_socket (socket_off_one ev h) conn)
  = wire_listeners e conn.
Proof.
  intros Hh. unfold wire_listeners, handlers_of; simpl. f_equal.
  induction (sock_handlers (socket conn)) as [|[ev' h'] l IH]; simpl; [done|].
  destruct (decide ((ev', h') = (ev, h))) as [[= -> ->]|Hne].
  - rewrite filter_cons; simpl. destruct (decide (ev = e)); [|done].
    rewrite fmap_cons, filter_cons_False; [done|]. simpl. apply Hh.
  - rewrite !(filter_cons (λ eh, eh.1 = e)); simpl.
    destruct (decide (ev' = e)); [|done].
    rewrite !fmap_cons, !(filter_cons (λ x, x = FanOut e)); simpl.
    destruct (decide (h' = FanOut e)); by rewrite IH.
Qed.

Lemma registry_ok_off_one ev h conn :
  (∀ x, h ≠ FanOut x) → registry_ok conn →
  registry_ok (with_socket (socket_off_one ev h) conn).
Proof.
  intros Hh [Hwf Hreg]. split.
  - intros ev' h' Hin. apply Hwf. by apply elem_of_remove_first in Hin.
  - intros e. rewrite wire_listeners_off_one by done. apply Hreg.
Qed.

(** ** Writes through a reference *)

Lemma alter_snoc {A} (f : A → A) (l : list A) (x : A) :
  alter f (length l) (l ++ [x]) = l ++ [f x].
Proof.
  rewrite <- (Nat.add_0_r (length l)) at 1. by rewrite alter_app_r.
Qed.

Lemma heap_update_conn c f m :
  heap (update_conn c f m) !! c = f <$> heap m !! c.
Proof. apply list_lookup_alter_eq. Qed.

Lemma heap_update_conn_ne c c' f m :
  c ≠ c' → heap (update_conn c f m) !! c' = heap m !! c'.
Proof. intros. by apply list_lookup_alter_ne. Qed.

Lemma update_conn_id c f m :
  (∀ conn, heap m !! c = Some conn → f conn = conn) → update_conn c f m = m.
Proof.
  intros Hf. destruct m as [cs po h ws ts n d]; unfold update_conn, with_heap;
    simpl in *. f_equal.
  rewrite <- (list_alter_id id h c) at 2 by done.
  apply list_alter_ext; [|done]. intros x Hx. by apply Hf.
Qed.

Lemma update_conn_compose c f g m :
  update_conn c f (update_conn c g m) = update_conn c (f ∘ g) m.
Proof.
  destruct m; unfold update_conn, with_heap; simpl. f_equal.
  apply list_alter_alter_eq.
Qed.

Lemma update_conn_ext c f g m :
  (∀ conn, heap m !! c = Some conn → f conn = g conn) →
  update_conn c f m = update_conn c g m.
Proof.
  intros Hfg. destruct m; unfold update_conn, with_heap; simpl in *. f_equal.
  by apply list_alter_ext.
Qed.

(** [publish], the code after the [await]: what [socket.emit] does on the
    record's socket, by the name of the event. *)
Lemma resume_publish target event data c m :
  resume (KPublish target event data) c m
  = if is_connected c m
    then if decide (event ∈ reserved_events)
         then (m, Rejected (ReservedEvent event))
         else (update_conn c (with_socket (socket_send event data)) m,
               Resolved c)
    else (m, Rejected (SocketNotConnected target)).
Proof.
  unfold resume. destruct (is_connected c m) eqn:Hc; [|done].
  unfold is_connected in Hc.
  destruct (heap m !! c) as [conn|] eqn:Hconn; [|done].
  simpl. unfold socket_emit.
  destruct (decide (event ∈ reserved_events)); [done|].
  f_equal. apply update_conn_ext. intros conn' Hc'.
  rewrite Hconn in Hc'. by injection Hc' as <-.
Qed.

Lemma all_registry_ok_update c f m :
  (∀ conn, registry_ok conn → registry_ok (f conn)) →
  all_registry_ok m → all_registry_ok (update_conn c f m).
Proof.
  intros Hf Hm c' conn'. destruct (decide (c = c')) as [<-|Hne].
  - rewrite heap_update_conn. destruct (heap m !! c) as [conn|] eqn:Hc;
      [|discriminate].
    intros [= <-]. apply Hf. by apply (Hm c).
  - rewrite heap_update_conn_ne by done. apply Hm.
Qed.

(** ** [connect] *)

Lemma existing_connected_Some key m c :
  existing_connected key m = Some c ↔
  connections m !! key = Some c ∧ is_connected c m = true.
Proof.
  unfold existing_connected. destruct (connections m !! key) as [c'|].
  - destruct (is_connected c' m) eqn:Hc; split.
    + intros [= ->]. done.
    + intros [[= ->] _]. done.
    + discriminate.
    + intros [[= ->] ?]. congruence.
  - split; [discriminate|]. intros [? _]; discriminate.
Qed.

Lemma existing_connected_None key m :
  existing_connected key m = None ↔
  ∀ c, connections m !! key = Some c → is_connected c m = false.
Proof.
  unfold existing_connected. destruct (connections m !! key) as [c'|].
  - destruct (is_connected c' m) eqn:Hc; split.
    + discriminate.
    + intros H. specialize (H c' eq_refl). congruence.
    + intros _ c [= <-]. done.
    + done.
  - split; [|done]. intros _ c. discriminate.
Qed.

(** When the key has no connected record, [connect] allocates. *)
Lemma connect_k_fresh k url namespace options m :
  existing_connected (getConnectionKey url namespace) m = None →
  connect_k k url namespace options m
  = (connecting k url namespace options m, Awaiting (length (waits m))).
Proof.
  intros Hnone. unfold connect_k. rewrite Hnone.
  unfold waitForConnection.
  match goal with
  | |- context [is_connected ?c ?mm] =>
      assert (Hfalse : is_connected c mm = false)
  end.
  { unfold is_connected; simpl.
    rewrite lookup_app_r, Nat.sub_diag by lia. reflexivity. }
  rewrite Hfalse. f_equal.
  unfold connecting, update_conn, setTimeout, with_heap, with_timers,
    with_waits, pool_set; simpl.
  f_equal. apply alter_snoc.
Qed.

(** ** The invariant across the manager *)

Lemma all_registry_ok_heap m m' :
  heap m' = heap m → all_registry_ok m → all_registry_ok m'.
Proof. unfold all_registry_ok. intros ->. done. Qed.

Lemma all_registry_ok_empty : all_registry_ok empty_manager.
Proof. intros c conn. simpl. by rewrite lookup_nil. Qed.

Lemma all_registry_ok_connecting k url namespace options m :
  all_registry_ok m → all_registry_ok (connecting k url namespace options m).
Proof.
  intros Hm c conn; simpl. rewrite lookup_app_Some.
  intros [Hc|[_ Hc]]; [by apply (Hm c)|].
  apply list_lookup_singleton_Some in Hc as [_ <-].
  apply registry_ok_wait_handlers, registry_ok_fresh.
Qed.

Lemma all_registry_ok_resume k c m :
  all_registry_ok m → all_registry_ok (resume k c m).1.
Proof.
  intros Hm. destruct k as [|event callback|target event data].
  - done.
  - apply all_registry_ok_update; [|done].
    intros conn. apply registry_ok_subscribe_on.
  - rewrite resume_publish.
    destruct (is_connected c m); simpl; [|done].
    destruct (decide (event ∈ reserved_events)); simpl; [done|].
    apply all_registry_ok_update; [|done].
    intros conn. apply registry_ok_send.
Qed.

Lemma all_registry_ok_resolve w m :
  all_registry_ok m → all_registry_ok (resolve w m).
Proof.
  intros Hm. unfold resolve. destruct (pending w m) as [x|]; [|done].
  pose proof (all_registry_ok_resume (w_cont x) (w_conn x) m Hm) as Hr.
  destruct (resume (w_cont x) (w_conn x) m) as [m' o]; simpl in *.
  revert Hr. by apply all_registry_ok_heap.
Qed.

Lemma all_registry_ok_getOrCreate k url namespace options m :
  all_registry_ok m →
  all_registry_ok (getOrCreateConnection k url namespace options m).1.
Proof.
  intros Hm. unfold getOrCreateConnection.
  destruct (existing_connected _ m) as [c|] eqn:He.
  - pose proof (all_registry_ok_resume k c m Hm) as Hr.
    by destruct (resume k c m).
  - rewrite connect_k_fresh by done. simpl.
    by apply all_registry_ok_connecting.
Qed.

Lemma registry_ok_off_unsubscribed event conn :
  registry_ok conn → listeners conn !! event = None →
  registry_ok (with_socket (socket_off event) conn).
Proof.
  intros [Hwf Hreg] Hev. split.
  - intros ev h Hin. apply Hwf. by apply elem_of_handlers_off in Hin.
  - intros e. rewrite wire_listeners_off. simpl.
    destruct (decide (e = event)) as [->|Hne]; [by rewrite Hev|apply Hreg].
Qed.

Lemma all_registry_ok_reject w e m :
  all_registry_ok m → all_registry_ok (reject w e m).
Proof.
  unfold reject. destruct (pending w m); [|done].
  by apply all_registry_ok_heap.
Qed.

Lemma all_registry_ok_on_timeout w m :
  (∀ x conn, waits m !! w = Some x → heap m !! w_conn x = Some conn →
             listeners conn !! "connect" = None
             ∧ listeners conn !! "connect_error" = None) →
  all_registry_ok m → all_registry_ok (on_timeout w m).
Proof.
  intros Hw Hm. unfold on_timeout.
  destruct (waits m !! w) as [x|] eqn:Hx; [|done].
  apply all_registry_ok_reject.
  intros c conn. destruct (decide (w_conn x = c)) as [<-|Hne].
  - rewrite heap_update_conn.
    destruct (heap m !! w_conn x) as [conn0|] eqn:Hc; [|discriminate].
    intros [= <-]. destruct (Hw x conn0 eq_refl Hc) as [Hc1 Hc2].
    change (with_socket (λ s, socket_off "connect_error"
                                (socket_off "connect" s)) conn0)
      with (with_socket (socket_off "connect_error")
              (with_socket (socket_off "connect") conn0)).
    apply registry_ok_off_unsubscribed; [|done].
    apply registry_ok_off_unsubscribed; [|done]. by apply (Hm (w_conn x)).
  - rewrite heap_update_conn_ne by done. apply Hm.
Qed.

Lemma registry_ok_wire_iff conn :
  registry_ok conn → wire_iff_callbacks conn.
Proof.
  intros [_ Hreg] event. specialize (Hreg event).
  destruct (listeners conn !! event) as [s|].
  - destruct Hreg as (Hne & _ & ->). split; [|lia]. intros _. by exists s.
  - rewrite Hreg. split; [lia|]. intros (s & [=] & _).
Qed.

(** Every subscribe and unsubscribe keeps the registry invariant of
    every record of the manager (for subscribe: the part that runs at the
    call, the part that runs when an awaited connection resolves, and the
    timeout of an awaited connection, whose record has no subscription
    yet), and the invariant says that an event has a wire-level listener
    exactly when its callback set is non-empty.  An unsubscribe with a callback
    that empties the set, and an unsubscribe without a callback, remove
    the event's entry and every listener of the event from the socket. *)
Lemma registry_invariant_step
    (url namespace event : string) (cb : Callback)
    (callback : option Callback) (options : option SocketOptions)
    (m : SocketManager) :
  all_registry_ok m →
  all_registry_ok (subscribe url namespace event cb options m).1
  ∧ (∀ w, all_registry_ok (resolve w m))
  ∧ (∀ w, (∀ x conn, waits m !! w = Some x → heap m !! w_conn x = Some conn →
                     listeners conn !! "connect" = None
                     ∧ listeners conn !! "connect_error" = None) →
          all_registry_ok (on_timeout w m))
  ∧ all_registry_ok (unsubscribe url namespace event callback options m)
  ∧ ∀ c conn, heap m !! c = Some conn →
      wire_iff_callbacks conn
      ∧ registry_ok (subscribe_on event cb conn)
      ∧ registry_ok (unsubscribe_on event callback conn)
      ∧ (∀ s, listeners conn !! event = Some s → set_delete cb s = [] →
           listeners (unsubscribe_on event (Some cb) conn) !! event = None
           ∧ handlers_of event (socket (unsubscribe_on event (Some cb) conn))
             = [])
      ∧ listeners (unsubscribe_on event None conn) !! event = None
      ∧ wire_listeners event (unsubscribe_on event None conn) = 0%nat.
Proof.
  intros Hm. split; [by apply all_registry_ok_getOrCreate|].
  split; [intros w; by apply all_registry_ok_resolve|].
  split; [intros w Hw; by apply all_registry_ok_on_timeout|].
  split.
  { unfold unsubscribe. destruct (connections m !! _) as [c|]; [|done].
    apply all_registry_ok_update; [|done].
    intros conn. apply registry_ok_unsubscribe_on. }
  intros c conn Hc. pose proof (Hm c conn Hc) as Hok.
  split; [by apply registry_ok_wire_iff|].
  split; [by apply registry_ok_subscribe_on|].
  split; [by apply registry_ok_unsubscribe_on|].
  split.
  - intros s Hs Hdel. unfold unsubscribe_on. rewrite Hs, Hdel; simpl.
    split; [apply lookup_delete_eq|].
    rewrite handlers_of_off. by rewrite decide_True.
  - unfold unsubscribe_on.
    destruct (listeners conn !! event) as [s|] eqn:Hs.
    + simpl. split; [apply lookup_delete_eq|].
      rewrite wire_listeners_off. by rewrite decide_True.
    + split; [done|]. destruct Hok as [_ Hreg]. specialize (Hreg event).
      by rewrite Hs in Hreg.
Qed.

(** ** Subscribing twice *)

Lemma filter_none {A} (P : A → Prop) `{∀ x, Decision (P x)} (l : list A) :
  (∀ x, x ∈ l → ¬ P x) → filter P l = [].
Proof.
  induction l as [|x l IH]; [done|]. intros Hl.
  rewrite filter_cons_False by (apply Hl; by left).
  apply IH. intros y Hy. apply Hl. by right.
Qed.

Lemma count_NoDup (cb : Callback) (s : list Callback) :
  NoDup s → cb ∈ s → length (filter (λ x, x = cb) s) = 1%nat.
Proof.
  induction 1 as [|x s Hx Hs IH]; [by intros ?%elem_of_nil|].
  rewrite filter_cons. destruct (decide (x = cb)) as [->|Hne].
  - intros _. simpl. f_equal. rewrite filter_none; [done|].
    intros y Hy ->. contradiction.
  - intros [?|Hin]%elem_of_cons; [congruence|]. by apply IH.
Qed.

Lemma subscribe_on_Some event cb conn s :
  listeners conn !! event = Some s →
  subscribe_on event cb conn
  = with_listeners (insert event (set_add cb s)) conn.
Proof. intros Hs. unfold subscribe_on. by rewrite !Hs. Qed.

Lemma subscribe_on_None event cb conn :
  listeners conn !! event = None →
  subscribe_on event cb conn
  = with_listeners (insert event [cb])
      (with_socket (socket_on event (FanOut event)) conn).
Proof.
  intros Hs. unfold subscribe_on. rewrite Hs; simpl.
  rewrite lookup_insert_eq. unfold with_listeners; simpl. f_equal.
  by rewrite insert_insert_eq.
Qed.

Lemma subscribe_on_idemp event cb conn :
  subscribe_on event cb (subscribe_on event cb conn)
  = subscribe_on event cb conn.
Proof.
  destruct (listeners conn !! event) as [s|] eqn:Hs.
  - rewrite (subscribe_on_Some event cb conn s) by done.
    rewrite (subscribe_on_Some event cb _ (set_add cb s))
      by apply lookup_insert_eq.
    unfold with_listeners; simpl. f_equal.
    by rewrite insert_insert_eq, set_add_idemp.
  - rewrite (subscribe_on_None event cb conn) by done.
    rewrite (subscribe_on_Some event cb _ [cb]) by apply lookup_insert_eq.
    unfold with_listeners; simpl. f_equal.
    rewrite insert_insert_eq. unfold set_add.
    rewrite decide_True; [done|]. by apply list_elem_of_singleton.
Qed.

Lemma subscribe_on_connected event cb conn :
  connected (subscribe_on event cb conn) = connected conn.
Proof.
  destruct (listeners conn !! event) as [s|] eqn:Hs.
  - by rewrite (subscribe_on_Some event cb conn s).
  - by rewrite subscribe_on_None.
Qed.

Lemma is_connected_update c c' f m :
  (∀ conn, connected (f conn) = connected conn) →
  is_connected c (update_conn c' f m) = is_connected c m.
Proof.
  intros Hf. unfold is_connected. destruct (decide (c' = c)) as [->|Hne].
  - rewrite heap_update_conn. destruct (heap m !! c); simpl; [|done].
    by rewrite Hf.
  - by rewrite heap_update_conn_ne.
Qed.

Lemma subscribe_connected url namespace event cb options m c :
  existing_connected (getConnectionKey url namespace) m = Some c →
  subscribe url namespace event cb options m
  = (update_conn c (subscribe_on event cb) m, Settled (Resolved c)).
Proof.
  intros He. unfold subscribe, getOrCreateConnection. by rewrite He.
Qed.

Lemma existing_connected_subscribed key event cb c' m :
  existing_connected key (update_conn c' (subscribe_on event cb) m)
  = existing_connected key m.
Proof.
  unfold existing_connected; simpl.
  destruct (connections m !! key) as [c0|]; [|done].
  by rewrite is_connected_update by (intros; apply subscribe_on_connected).
Qed.

(** Subscribing the same callback to the same event twice leaves a
    record exactly as subscribing it once does; on a record that satisfies
    the registry invariant the callback is then once in the event's set
    and the event has one wire-level listener.  Through the manager, two
    calls for a key whose record is connected leave the state one call
    leaves. *)
Lemma subscribe_idempotent_on_record
    (event : string) (cb : Callback) (conn : SocketConnection) :
  subscribe_on event cb (subscribe_on event cb conn)
  = subscribe_on event cb conn
  ∧ (registry_ok conn →
     ∃ s, listeners (subscribe_on event cb conn) !! event = Some s
          ∧ length (filter (λ x, x = cb) s) = 1%nat
          ∧ wire_listeners event (subscribe_on event cb conn) = 1%nat)
  ∧ ∀ url namespace options m c,
      existing_connected (getConnectionKey url namespace) m = Some c →
      subscribe url namespace event cb options
        (subscribe url namespace event cb options m).1
      = subscribe url namespace event cb options m.
Proof.
  split; [apply subscribe_on_idemp|]. split.
  - intros Hok. apply (registry_ok_subscribe_on event cb) in Hok as Hok'.
    destruct Hok' as [_ Hreg]. specialize (Hreg event).
    assert (∃ s, listeners (subscribe_on event cb conn) !! event = Some s
                 ∧ cb ∈ s) as (s & Hs & Hcb).
    { destruct (listeners conn !! event) as [s|] eqn:He.
      - rewrite (subscribe_on_Some event cb conn s) by done; simpl.
        rewrite lookup_insert_eq. eexists; split; [done|].
        apply elem_of_set_add; by left.
      - rewrite subscribe_on_None by done; simpl.
        rewrite lookup_insert_eq. eexists; split; [done|].
        by apply list_elem_of_singleton. }
    rewrite Hs in Hreg. destruct Hreg as (_ & Hnd & Hw).
    exists s. split; [done|]. split; [by apply count_NoDup|done].
  - intros url namespace options m c He.
    rewrite (subscribe_connected _ _ _ _ _ m c) by done. simpl.
    rewrite (subscribe_connected _ _ _ _ _ _ c)
      by (by rewrite existing_connected_subscribed).
    f_equal. rewrite update_conn_compose. apply update_conn_ext.
    intros conn' _. apply subscribe_on_idemp.
Qed.

(** ** Delivery of a message *)

Lemma forEach_listener_all cb_throws s data :
  (∀ x, x ∈ s → cb_throws x data = false) →
  forEach_listener cb_throws s data = (invocations s data, false).
Proof.
  induction s as [|x s IH]; [done|]. intros Hs; simpl.
  rewrite Hs by (by left). rewrite IH; [done|].
  intros y Hy. apply Hs. by right.
Qed.



Lemma elem_of_handlers_of event h s :
  h ∈ handlers_of event s ↔ (event, h) ∈ sock_handlers s.
Proof.
  unfold handlers_of. rewrite list_elem_of_fmap. split.
  - intros ([ev h'] & -> & [Hev Hin]%list_elem_of_filter).
    simpl in *. by subst.
  - intros Hin. exists (event, h). split; [done|].
    by apply list_elem_of_filter.
Qed.

(** On a record that satisfies the invariant, an event the manager does
    not listen to itself has the fan-out listener as its only listener. *)
Lemma handlers_of_ordinary conn event :
  registry_ok conn → ¬ lifecycle_event event →
  is_Some (listeners conn !! event) →
  handlers_of event (socket conn) = [FanOut event].
Proof.
  intros [Hwf Hreg] Hord [s Hs]. specialize (Hreg event).
  rewrite Hs in Hreg. destruct Hreg as (_ & _ & Hw).
  unfold wire_listeners in Hw.
  assert (Hall : ∀ h, h ∈ handlers_of event (socket conn) → h = FanOut event).
  { intros h Hin%elem_of_handlers_of. apply Hwf in Hin.
    destruct h; simpl in Hin; subst;
      try (exfalso; apply Hord; unfold lifecycle_event; set_solver).
    done. }
  revert Hw Hall. generalize (handlers_of event (socket conn)) as hs.
  intros [|h [|h' hs]] Hw Hall.
  - discriminate.
  - f_equal. apply Hall. by left.
  - exfalso. rewrite !filter_cons_True in Hw; [discriminate| |];
      apply Hall; set_solver.
Qed.

Lemma receive_ordinary cb_throws c conn event s data m :
  heap m !! c = Some conn → registry_ok conn → ¬ lifecycle_event event →
  listeners conn !! event = Some s →
  receive cb_throws c event data m
  = (with_delivered
       (λ l, l ++ (forEach_listener cb_throws s data).1) m,
     (forEach_listener cb_throws s data).2).
Proof.
  intros Hc Hok Hord Hs. unfold receive, emit. rewrite Hc.
  rewrite handlers_of_ordinary by eauto.
  cbn [handle_all handle]. rewrite Hc, Hs.
  by destruct (forEach_listener cb_throws s data) as [log []].
Qed.

Lemma new_deliveries_app m log :
  new_deliveries m (with_delivered (λ l, l ++ log) m) = log.
Proof. unfold new_deliveries; simpl. by rewrite drop_app_length. Qed.





(** ** Get-or-create *)

Lemma resume_keeps_pool k c m :
  connections (resume k c m).1 = connections m
  ∧ length (heap (resume k c m).1) = length (heap m)
  ∧ waits (resume k c m).1 = waits m
  ∧ timers (resume k c m).1 = timers m.
Proof.
  destruct k as [|event callback|target event data].
  - done.
  - simpl. by rewrite length_alter.
  - rewrite resume_publish.
    destruct (is_connected c m); simpl; [|done].
    destruct (decide (event ∈ reserved_events)); simpl; [done|].
    by rewrite length_alter.
Qed.

(** C3 (as amended). Get-or-create returns the record registered under
    the key when that record's connected flag is true, and then allocates
    nothing.  When the key has no record, or has one whose flag is false
    (still connecting, or disconnected), it allocates a new record with a
    new socket at the next free address and registers it under the key in
    the place of the previous one; the new record is not connected, has
    attempt counter 0 and no subscription, and the records allocated
    before are left as they were. *)
Theorem getOrCreate_reuses_connected_only
    (k : Cont) (url namespace : string) (options : option SocketOptions)
    (m : SocketManager) :
  (∀ c, connections m !! getConnectionKey url namespace = Some c →
        is_connected c m = true →
        getOrCreateConnection k url namespace options m
        = ((resume k c m).1, Settled (resume k c m).2)
        ∧ connections (getOrCreateConnection k url namespace options m).1
          = connections m
        ∧ length (heap (getOrCreateConnection k url namespace options m).1)
          = length (heap m))
  ∧ ((∀ c, connections m !! getConnectionKey url namespace = Some c →
           is_connected c m = false) →
     ∃ m' conn,
       getOrCreateConnection k url namespace options m
       = (m', Awaiting (length (waits m)))
       ∧ length (heap m') = S (length (heap m))
       ∧ connections m' !! getConnectionKey url namespace
         = Some (length (heap m))
       ∧ heap m' !! length (heap m) = Some conn
       ∧ connected conn = false ∧ reconnectAttempts conn = 0%nat
       ∧ listeners conn = ∅
       ∧ sock_uri (socket conn) = url +:+ namespace
       ∧ ∀ c conn0, heap m !! c = Some conn0 → heap m' !! c = Some conn0).
Proof.
  split.
  - intros c Hc Hconn.
    assert (He : existing_connected (getConnectionKey url namespace) m
                 = Some c) by (by apply existing_connected_Some).
    unfold getOrCreateConnection. rewrite He.
    destruct (resume_keeps_pool k c m) as (Hcs & Hlen & _).
    destruct (resume k c m) as [m' o]; simpl in *. done.
  - intros Hnot.
    assert (He : existing_connected (getConnectionKey url namespace) m = None)
      by (by apply existing_connected_None).
    unfold getOrCreateConnection. rewrite He, connect_k_fresh by done.
    eexists _, _. split; [done|]. simpl.
    split; [rewrite length_app; simpl; lia|].
    split; [apply lookup_insert_eq|].
    split; [by rewrite lookup_app_r, Nat.sub_diag by lia|].
    repeat (split; [done|]).
    intros c conn0 Hc. by apply lookup_app_l_Some.
Qed.

Lemma getOrCreate_reuses_connected_only_witness :
  ∃ m' conn,
    getOrCreateConnection KConnect "http://h:3000" "/" None example_connecting
    = (m', Awaiting (length (waits example_connecting)))
    ∧ length (heap m') = S (length (heap example_connecting))
    ∧ connections m' !! getConnectionKey "http://h:3000" "/"
      = Some (length (heap example_connecting))
    ∧ heap m' !! length (heap example_connecting) = Some conn
    ∧ connected conn = false ∧ reconnectAttempts conn = 0%nat
    ∧ listeners conn = ∅
    ∧ sock_uri (socket conn) = "http://h:3000" +:+ "/"
    ∧ ∀ c conn0, heap example_connecting !! c = Some conn0 →
                 heap m' !! c = Some conn0.
Proof.
  apply (proj2 (getOrCreate_reuses_connected_only KConnect "http://h:3000" "/"
                  None example_connecting)).
  intros c Hc. vm_compute in Hc. injection Hc as <-. reflexivity.
Defined.

(** C3 as stated fails: a second call for a key whose record is still
    connecting allocates a second record and registers it in place of the
    first. *)
Lemma reuses_registered_record_fails :
  ¬ reuses_registered_record KConnect "http://h:3000" "/" None
      example_connecting.
Proof.
  intros H.
  assert (Hkey : connections example_connecting
                   !! getConnectionKey "http://h:3000" "/" = Some 0%nat)
    by (vm_compute; reflexivity).
  specialize (H 0%nat Hkey). vm_compute in H.
  destruct H as [H _]. discriminate.
Qed.

(** ** The retry budget *)

Lemma on_connect_error_spec c m conn :
  heap m !! c = Some conn →
  on_connect_error c m
  = if decide (3 ≤ S (reconnectAttempts conn))%nat
    then pool_delete (getConnectionKey (url conn) (namespace conn))
           (update_conn c
              (λ x, with_socket socket_disconnect
                      (with_state (S (reconnectAttempts x)) false x)) m)
    else update_conn c
           (λ x, with_state (S (reconnectAttempts x)) false x) m.
Proof.
  intros Hc. unfold on_connect_error.
  rewrite heap_update_conn, Hc. simpl.
  change (js_or (reconnectionAttempts defaultOptions) 3) with 3.
  destruct (decide (3 ≤ S (reconnectAttempts conn))%nat) as [Hle|Hlt].
  - replace (Z.of_nat (S (reconnectAttempts conn)) >=? 3) with true
      by (symmetry; apply Z.geb_le; lia).
    by rewrite update_conn_compose.
  - replace (Z.of_nat (S (reconnectAttempts conn)) >=? 3) with false; [done|].
    symmetry. apply not_true_is_false. rewrite Z.geb_le. lia.
Qed.

(** C1 (the code departs from it). The 'connect_error' listener counts
    the error and compares the counter with the default limit, 3, in every
    state and for every record, whatever options the record was created
    with: below 3 the pool is left as it is and the socket open; at 3 the
    socket is closed and the record's key removed from the pool.  So,
    whatever options a [connect] call is given, also with a per-call limit
    of 1 (which is handed to the transport), the record is still in the
    pool with its socket open after one and after two connect errors, and
    is evicted with its socket closed by the third.  After the eviction a
    new [connect] for the key creates a record with counter 0. *)
Theorem eviction_uses_default_limit :
  (∀ m c conn,
     heap m !! c = Some conn →
     ((S (reconnectAttempts conn) < 3)%nat →
      connections (on_connect_error c m) = connections m
      ∧ heap (on_connect_error c m) !! c
        = Some (with_state (S (reconnectAttempts conn)) false conn))
     ∧ ((3 ≤ S (reconnectAttempts conn))%nat →
        connections (on_connect_error c m)
        = delete (getConnectionKey (url conn) (namespace conn)) (connections m)
        ∧ heap (on_connect_error c m) !! c
          = Some (with_socket socket_disconnect
                    (with_state (S (reconnectAttempts conn)) false conn))))
  ∧ ∀ options,
      let m0 := (connect "http://h:3000" "/" options empty_manager).1 in
      let errors n :=
        connect_errors never_throws n 0%nat "xhr poll error" m0 in
      reconnectionAttempts (spread defaultOptions (attempts_option 1))
      = Some 1
      ∧ (io_reconnectionAttempts ∘ sock_opts ∘ socket) <$> heap m0 !! 0%nat
        = Some (reconnectionAttempts (spread defaultOptions options))
      ∧ (connections (errors 1%nat) !! "http://h:3000/" = Some 0%nat
         ∧ reconnectAttempts <$> heap (errors 1%nat) !! 0%nat = Some 1%nat
         ∧ (sock_closed ∘ socket) <$> heap (errors 1%nat) !! 0%nat
           = Some false)
      ∧ (connections (errors 2%nat) !! "http://h:3000/" = Some 0%nat
         ∧ reconnectAttempts <$> heap (errors 2%nat) !! 0%nat = Some 2%nat
         ∧ (sock_closed ∘ socket) <$> heap (errors 2%nat) !! 0%nat
           = Some false)
      ∧ (connections (errors 3%nat) !! "http://h:3000/" = None
         ∧ (sock_closed ∘ socket) <$> heap (errors 3%nat) !! 0%nat
           = Some true)
      ∧ (let m4 := (connect "http://h:3000" "/" options (errors 3%nat)).1 in
         connections m4 !! "http://h:3000/" = Some 1%nat
         ∧ reconnectAttempts <$> heap m4 !! 1%nat = Some 0%nat).
Proof.
  split.
  - intros m c conn Hc. rewrite (on_connect_error_spec c m conn Hc). split.
    + intros Hlt. rewrite decide_False by lia. split; [done|].
      by rewrite heap_update_conn, Hc.
    + intros Hle. rewrite decide_True by lia. split; [done|]. simpl.
      by rewrite list_lookup_alter_eq, Hc.
  - intros [[a d t ac h p]|]; vm_compute; repeat split.
Qed.

Lemma eviction_uses_default_limit_witness :
  connections
    (on_connect_error 0%nat
       (connect "http://h:3000" "/" (attempts_option 1) empty_manager).1)
  = connections
      (connect "http://h:3000" "/" (attempts_option 1) empty_manager).1
  ∧ reconnectAttempts
      <$> heap (on_connect_error 0%nat
                  (connect "http://h:3000" "/" (attempts_option 1)
                     empty_manager).1) !! 0%nat
    = Some 1%nat.
Proof.
  eassert (Hc : heap (connect "http://h:3000" "/" (attempts_option 1)
                        empty_manager).1 !! 0%nat = Some _)
    by (vm_compute; reflexivity).
  destruct (proj1 eviction_uses_default_limit _ 0%nat _ Hc) as [Hbelow _].
  destruct Hbelow as [Hcs Hrec]; [vm_compute; lia|].
  split; [exact Hcs|]. rewrite Hrec. reflexivity.
Defined.

(** ** The connect deadline *)

(** C2 (the code departs from it). A [connect] that has to open a socket
    sets its timer to 5000 ms after the call whatever [options.timeout]
    is; the per-call value only reaches the transport.  With
    [timeout: 10] and a transport that stays silent the call is still
    pending after 10 ms and after 4999 ms, and fails with the timeout
    error at 5000 ms.  With [timeout: 10000] the call fails with the
    timeout error at 5000 ms, and a handshake at 7000 ms comes too late:
    the call stays failed and the record stays not connected. *)
Theorem wait_deadline_is_default :
  (∀ k url namespace options m,
     existing_connected (getConnectionKey url namespace) m = None →
     timers (connect_k k url namespace options m).1
     = timer_insert {| t_due := now m + 5000; t_wait := length (waits m) |}
         (timers m)
     ∧ (io_timeout ∘ sock_opts ∘ socket)
         <$> heap (connect_k k url namespace options m).1 !! length (heap m)
       = Some (timeout (spread defaultOptions options)))
  ∧ (let call := connect "http://h:3000" "/" (timeout_option 10) empty_manager in
     outcome_of call.2 (advance 10 call.1) = None
     ∧ outcome_of call.2 (advance 4999 call.1) = None
     ∧ outcome_of call.2 (advance 5000 call.1)
       = Some (Rejected (ConnectionTimeout "http://h:3000/")))
  ∧ (let call :=
       connect "http://h:3000" "/" (timeout_option 10000) empty_manager in
     outcome_of call.2 (advance 5000 call.1)
     = Some (Rejected (ConnectionTimeout "http://h:3000/"))
     ∧ outcome_of call.2
         (receive_at never_throws 7000 0%nat "connect" "" call.1)
       = Some (Rejected (ConnectionTimeout "http://h:3000/"))
     ∧ is_connected 0%nat
         (receive_at never_throws 7000 0%nat "connect" "" call.1) = false).
Proof.
  split.
  - intros k url namespace options m He.
    rewrite connect_k_fresh by done. simpl. split; [done|].
    by rewrite lookup_app_r, Nat.sub_diag by lia.
  - split; vm_compute; repeat split.
Qed.

Lemma wait_deadline_is_default_witness :
  timers (connect_k KConnect "http://h:3000" "/" (timeout_option 10000)
            empty_manager).1
  = timer_insert {| t_due := now empty_manager + 5000;
                    t_wait := length (waits empty_manager) |}
      (timers empty_manager)
  ∧ (io_timeout ∘ sock_opts ∘ socket)
      <$> heap (connect_k KConnect "http://h:3000" "/" (timeout_option 10000)
                  empty_manager).1 !! length (heap empty_manager)
    = Some (timeout (spread defaultOptions (timeout_option 10000))).
Proof.
  apply (proj1 wait_deadline_is_default). reflexivity.
Defined.

(** ** [publish] *)

(** C7 as stated fails on the names the client reserves: [publish] of
    'connect' for a key whose record is connected does not send the
    payload, and the call fails. *)
Lemma publish_sends_when_connected_fails :
  ¬ publish_sends_when_connected "http://h:3000" "/" "connect" "1" None
      example_connected.
Proof.
  intros H.
  eassert (Hc : heap example_connected !! 0%nat = Some _)
    by (vm_compute; reflexivity).
  destruct (H 0%nat _ eq_refl Hc eq_refl) as [Hsent _].
  vm_compute in Hsent. discriminate.
Qed.

(** C7 (as amended). [publish] reads the connected flag of the record it
    resolved when the code after its [await] runs: within the call for a
    key whose record is connected, and otherwise in the microtask of the
    awaited promise, after the turn that brought the handshake.  When the
    flag is false then, the call fails with the not-connected error and
    nothing changes, so nothing is emitted.  When it is true and the event
    is not a name the client reserves, the payload is appended to what the
    socket sends and the call is over: it resolves at once and leaves no
    promise and no timer behind, so it waits for no acknowledgement.  When
    it is true and the event is a reserved name, [socket.emit] throws: the
    call fails with that error and nothing changes.  For a call on a new
    manager: a 'connect' alone in its turn makes the call resolve with the
    payload sent once; a 'connect' followed by a 'disconnect' in the same
    turn makes it fail with the not-connected error, with nothing sent. *)
Theorem publish_checks_connected_flag
    (url namespace event : string) (data : Data)
    (options : option SocketOptions) (m : SocketManager) :
  (∀ c target,
     is_connected c m = false →
     resume (KPublish target event data) c m
     = (m, Rejected (SocketNotConnected target)))
  ∧ (∀ c target conn,
       heap m !! c = Some conn → connected conn = true →
       (event ∉ reserved_events →
        resume (KPublish target event data) c m
        = (update_conn c (with_socket (socket_send event data)) m, Resolved c)
        ∧ (sock_emitted ∘ socket)
            <$> heap (resume (KPublish target event data) c m).1 !! c
          = Some (sock_emitted (socket conn) ++ [(event, data)]))
       ∧ (event ∈ reserved_events →
          resume (KPublish target event data) c m
          = (m, Rejected (ReservedEvent event))))
  ∧ (∀ c conn,
       connections m !! getConnectionKey url namespace = Some c →
       heap m !! c = Some conn → connected conn = true →
       (event ∉ reserved_events →
        publish url namespace event data options m
        = (update_conn c (with_socket (socket_send event data)) m,
           Settled (Resolved c))
        ∧ waits (publish url namespace event data options m).1 = waits m
        ∧ timers (publish url namespace event data options m).1 = timers m
        ∧ connections (publish url namespace event data options m).1
          = connections m)
       ∧ (event ∈ reserved_events →
          publish url namespace event data options m
          = (m, Settled (Rejected (ReservedEvent event)))))
  ∧ (∀ w x target,
       pending w m = Some x → w_cont x = KPublish target event data →
       (is_connected (w_conn x) m = false →
        resolve w m = settle w (Rejected (SocketNotConnected target)) m)
       ∧ (is_connected (w_conn x) m = true → event ∉ reserved_events →
          resolve w m
          = settle w (Resolved (w_conn x))
              (update_conn (w_conn x)
                 (with_socket (socket_send event data)) m))
       ∧ (is_connected (w_conn x) m = true → event ∈ reserved_events →
          resolve w m = settle w (Rejected (ReservedEvent event)) m))
  ∧ (∀ cb_throws,
       let call := publish "http://h:3000" "/" "ping" "1" None empty_manager in
       let alone := turn cb_throws [(0%nat, "connect", "")] call.1 in
       let cut :=
         turn cb_throws
           [(0%nat, "connect", ""); (0%nat, "disconnect", "transport close")]
           call.1 in
       call.2 = Awaiting 0%nat
       ∧ (sock_emitted ∘ socket) <$> heap call.1 !! 0%nat = Some []
       ∧ outcome_of call.2 alone = Some (Resolved 0%nat)
       ∧ (sock_emitted ∘ socket) <$> heap alone !! 0%nat
         = Some [("ping", "1")]
       ∧ outcome_of call.2 cut
         = Some (Rejected (SocketNotConnected "http://h:3000/"))
       ∧ (sock_emitted ∘ socket) <$> heap cut !! 0%nat = Some []).
Proof.
  assert (Hflag : ∀ c conn, heap m !! c = Some conn → connected conn = true →
                            is_connected c m = true).
  { intros c conn Hc Hconn. unfold is_connected. by rewrite Hc. }
  split; [|split; [|split; [|split]]].
  - intros c target Hc. rewrite resume_publish. by rewrite Hc.
  - intros c target conn Hc Hconn. rewrite resume_publish.
    rewrite (Hflag c conn) by done. split.
    + intros Hord. rewrite decide_False by done. split; [done|].
      change ((update_conn c (with_socket (socket_send event data)) m,
               Resolved c).1)
        with (update_conn c (with_socket (socket_send event data)) m).
      rewrite heap_update_conn, Hc. reflexivity.
    + intros Hres. by rewrite decide_True.
  - intros c conn Hkey Hc Hconn.
    assert (He : existing_connected (getConnectionKey url namespace) m
                 = Some c).
    { apply existing_connected_Some. eauto. }
    unfold publish, getOrCreateConnection. rewrite He.
    rewrite resume_publish, (Hflag c conn) by done. split.
    + intros Hord. by rewrite decide_False.
    + intros Hres. by rewrite decide_True.
  - intros w x target Hp Hk. unfold resolve. rewrite Hp, Hk.
    rewrite resume_publish. split; [|split].
    + by intros ->.
    + intros -> Hord. by rewrite decide_False.
    + intros -> Hres. by rewrite decide_True.
  - intros cb_throws. vm_compute. repeat split.
Qed.

Lemma publish_checks_connected_flag_witness :
  (resume (KPublish "http://h:3000/" "ping" "1") 0%nat example_connecting
   = (example_connecting, Rejected (SocketNotConnected "http://h:3000/")))
  ∧ (publish "http://h:3000" "/" "ping" "1" None example_connected).2
    = Settled (Resolved 0%nat)
  ∧ (sock_emitted ∘ socket)
      <$> heap (publish "http://h:3000" "/" "ping" "1" None
                  example_connected).1 !! 0%nat
    = Some [("ping", "1")]
  ∧ waits (publish "http://h:3000" "/" "ping" "1" None example_connected).1
    = waits example_connected
  ∧ publish "http://h:3000" "/" "disconnect" "1" None example_connected
    = (example_connected, Settled (Rejected (ReservedEvent "disconnect"))).
Proof.
  destruct (publish_checks_connected_flag "http://h:3000" "/" "ping" "1"
              None example_connecting) as (Hfalse & _).
  destruct (publish_checks_connected_flag "http://h:3000" "/" "ping" "1"
              None example_connected) as (_ & _ & Htrue & _).
  destruct (publish_checks_connected_flag "http://h:3000" "/" "disconnect"
              "1" None example_connected) as (_ & _ & Hreserved & _).
  split; [apply Hfalse; reflexivity|].
  edestruct (Htrue 0%nat) as [Hord _];
    [reflexivity | vm_compute; reflexivity | reflexivity |].
  destruct Hord as (Heq & Hw & _).
  { intros Hin. vm_compute in Hin.
    repeat (apply elem_of_cons in Hin as [Hin|Hin]; [discriminate|]).
    by apply not_elem_of_nil in Hin. }
  split; [by rewrite Heq|]. split; [vm_compute; reflexivity|].
  split; [exact Hw|].
  edestruct (Hreserved 0%nat) as [_ Hres];
    [reflexivity | vm_compute; reflexivity | reflexivity |].
  apply Hres. unfold reserved_events. repeat constructor.
Defined.

(** ** Calls for a key that has no record *)

(** C8. For a key with no record in the pool, [unsubscribe] and
    [disconnect] return the manager as it was; neither has an error
    result, and [disconnect] does not throw, whatever the callbacks do.
    [unsubscribe] also changes nothing when the key has a record but the
    event has no entry.  At the adapter, [socketDisconnect] for a URL that
    normalises and validates and whose key has no record changes nothing
    and reports success with the message that no active connection was
    found. *)
Theorem absent_connection_is_no_op
    (url_toString url_hostname : string → option string)
    (url namespace event : string) (callback : option Callback)
    (options : option SocketOptions) (m : SocketManager) :
  (connections m !! getConnectionKey url namespace = None →
   unsubscribe url namespace event callback options m = m
   ∧ ∀ cb_throws, disconnect cb_throws url namespace m = (m, false))
  ∧ (∀ c conn,
       connections m !! getConnectionKey url namespace = Some c →
       heap m !! c = Some conn → listeners conn !! event = None →
       unsubscribe url namespace event callback options m = m)
  ∧ (∀ u,
       normaliseUrl url_toString url = Some u →
       isValidUrl url_hostname u = true →
       connections m
         !! (u +:+ if isValidNamespace namespace then namespace else "/")
       = None →
       socketDisconnect url_toString url_hostname url namespace m
       = (m, Success (Some "No active connection found to disconnect") u
               (if isValidNamespace namespace then namespace else "/"))).
Proof.
  split; [|split].
  - intros Hnone. unfold unsubscribe, disconnect. by rewrite Hnone.
  - intros c conn Hkey Hc Hev. unfold unsubscribe. rewrite Hkey.
    apply update_conn_id. intros conn' Hc'.
    assert (conn' = conn) as -> by congruence.
    unfold unsubscribe_on. rewrite Hev. by destruct callback.
  - intros u Hu Hvalid Hnone. unfold socketDisconnect.
    rewrite Hu, Hvalid; simpl. by rewrite Hnone.
Qed.

Lemma absent_connection_is_no_op_witness :
  (unsubscribe "http://h:3000" "/" "x" (Some 7%nat) None empty_manager
   = empty_manager
   ∧ ∀ cb_throws,
       disconnect cb_throws "http://h:3000" "/" empty_manager
       = (empty_manager, false))
  ∧ unsubscribe "http://h:3000" "/" "x" (Some 7%nat) None example_connected
    = example_connected
  ∧ socketDisconnect example_toString example_hostname "http://h:3000" "/"
      empty_manager
    = (empty_manager,
       Success (Some "No active connection found to disconnect")
         "http://h:3000" "/").
Proof.
  destruct (absent_connection_is_no_op example_toString example_hostname
              "http://h:3000" "/" "x" (Some 7%nat) None empty_manager)
    as (Habsent & _ & Hexport).
  destruct (absent_connection_is_no_op example_toString example_hostname
              "http://h:3000" "/" "x" (Some 7%nat) None example_connected)
    as (_ & Hevent & _).
  split; [apply Habsent; reflexivity|]. split.
  - eapply (Hevent 0%nat); [reflexivity | vm_compute; reflexivity |].
    reflexivity.
  - apply (Hexport "http://h:3000"); reflexivity.
Defined.

(** ** Promises and timers along a run *)

Lemma NoDup_fmap_filter {A B} (f : A → B) (P : A → Prop)
    `{∀ x, Decision (P x)} (l : list A) :
  NoDup (f <$> l) → NoDup (f <$> filter P l).
Proof.
  induction l as [|x l IH]; [done|].
  rewrite fmap_cons, NoDup_cons. intros [Hx Hl].
  rewrite filter_cons. destruct (decide (P x)); [|by apply IH].
  rewrite fmap_cons, NoDup_cons. split; [|by apply IH].
  intros (y & Hy & [_ Hin]%list_elem_of_filter)%list_elem_of_fmap.
  apply Hx. apply list_elem_of_fmap. eauto.
Qed.

Lemma manager_ok_frame e m m' :
  heap m' = heap m → waits m' = waits m → timers m' = timers m →
  manager_ok e m → manager_ok e m'.
Proof.
  intros Hh Hw Ht [H1 H2 H3 H4 H5].
  split; rewrite ?Hh, ?Hw, ?Ht; try done.
  by apply (all_registry_ok_heap m).
Qed.

Lemma manager_ok_weaken e m : manager_ok None m → manager_ok e m.
Proof.
  intros [H1 H2 H3 H4 H5]. split; try done.
  intros t Ht. destruct (H5 t Ht) as (x & conn & ? & ? & ? & ? & Hc).
  exists x, conn. repeat (split; [done|]). intros _. by apply Hc.
Qed.

(** A write to record [c] keeps [manager_ok] when it keeps the registry
    invariant and, where [c] belongs to a pending timer, what the timer
    needs of the record. *)
Lemma manager_ok_update e c f m :
  manager_ok e m →
  (∀ conn, registry_ok conn → registry_ok (f conn)) →
  (∀ conn t x,
     heap m !! c = Some conn → t ∈ timers m →
     waits m !! t_wait t = Some x → w_conn x = c →
     listeners conn = ∅ →
     ("connect", WaitConnect (t_wait t)) ∈ sock_handlers (socket conn) →
     (e ≠ Some c → connected conn = false) →
     listeners (f conn) = ∅
     ∧ ("connect", WaitConnect (t_wait t)) ∈ sock_handlers (socket (f conn))
     ∧ (e ≠ Some c → connected (f conn) = false)) →
  manager_ok e (update_conn c f m).
Proof.
  intros [H1 H2 H3 H4 H5] Hf Ht. split.
  - by apply all_registry_ok_update.
  - intros w x Hw. simpl. rewrite length_alter. by apply (H2 w).
  - exact H3.
  - exact H4.
  - intros t Hin.
    destruct (H5 t Hin) as (x & conn & Hx & Hc & Hl & Hh & Hcon).
    destruct (decide (w_conn x = c)) as [Heq|Hne].
    + subst c. exists x, (f conn).
      destruct (Ht conn t x Hc Hin Hx eq_refl Hl Hh Hcon) as (? & ? & ?).
      rewrite heap_update_conn, Hc. done.
    + exists x, conn. rewrite heap_update_conn_ne by done. done.
Qed.

Lemma waits_settle w o m w' :
  waits (settle w o m) !! w'
  = (λ x, if decide (w = w')
          then {| w_conn := w_conn x; w_cont := w_cont x;
                  w_outcome := Some o |}
          else x) <$> waits m !! w'.
Proof.
  simpl. rewrite list_lookup_alter.
  destruct (waits m !! w') as [x|] eqn:Hw;
    repeat case_decide; subst; simpl; rewrite ?Hw; done.
Qed.

Lemma waits_settle_conn w o m w' x' :
  waits (settle w o m) !! w' = Some x' →
  ∃ x, waits m !! w' = Some x ∧ w_conn x' = w_conn x.
Proof.
  rewrite waits_settle. destruct (waits m !! w') as [x|]; [|done].
  intros [= <-]. exists x. split; [done|]. by destruct (decide (w = w')).
Qed.

Lemma manager_ok_settle e w o m :
  manager_ok e m → manager_ok e (settle w o m).
Proof.
  intros [H1 H2 H3 H4 H5]. split.
  - by apply (all_registry_ok_heap m).
  - intros w' x' (x & Hx & ->)%waits_settle_conn. by apply (H2 w').
  - intros w1 w2 x1 x2 (y1 & Hy1 & ->)%waits_settle_conn
      (y2 & Hy2 & ->)%waits_settle_conn. by apply H3.
  - exact H4.
  - intros t Hin.
    destruct (H5 t Hin) as (x & conn & Hx & Hc & Hl & Hh & Hcon).
    eexists _, conn. rewrite waits_settle, Hx. split; [done|].
    by destruct (decide (w = t_wait t)).
Qed.

Lemma manager_ok_clearTimeout e w m :
  manager_ok e m → manager_ok e (clearTimeout w m).
Proof.
  intros [H1 H2 H3 H4 H5]. split; try done.
  - simpl. by apply NoDup_fmap_filter.
  - intros t [_ Hin]%list_elem_of_filter. by apply H5.
Qed.

Lemma timers_clearTimeout w m t :
  t ∈ timers (clearTimeout w m) ↔ t_wait t ≠ w ∧ t ∈ timers m.
Proof. simpl. by rewrite list_elem_of_filter. Qed.

(** The record a promise awaits carries no pending timer of another
    promise. *)
Lemma no_timer_on_awaited e m w x :
  manager_ok e m → waits m !! w = Some x →
  (∀ t, t ∈ timers m → t_wait t ≠ w) →
  ∀ t y, t ∈ timers m → waits m !! t_wait t = Some y → w_conn y ≠ w_conn x.
Proof.
  intros Hok Hx Hnone t y Hin Hy Heq.
  apply (Hnone t Hin). by apply (ok_waits_inj e m Hok (t_wait t) w y x).
Qed.

Lemma manager_ok_resume e k c m :
  manager_ok e m →
  (∀ t y, t ∈ timers m → waits m !! t_wait t = Some y → w_conn y ≠ c) →
  manager_ok e (resume k c m).1.
Proof.
  intros Hok Hnone.
  assert (Hfree : ∀ f, (∀ conn, registry_ok conn → registry_ok (f conn)) →
                       manager_ok e (update_conn c f m)).
  { intros f Hf. apply manager_ok_update; [done|done|].
    intros conn t x _ Hin Hx Heq. by destruct (Hnone t x Hin Hx). }
  destruct k as [|event callback|target event data].
  - done.
  - apply Hfree. intros conn. apply registry_ok_subscribe_on.
  - rewrite resume_publish.
    destruct (is_connected c m); simpl; [|done].
    destruct (decide (event ∈ reserved_events)); simpl; [done|].
    apply Hfree. intros conn. apply registry_ok_send.
Qed.

Lemma manager_ok_resolve e w m :
  manager_ok e m → (∀ t, t ∈ timers m → t_wait t ≠ w) →
  manager_ok e (resolve w m).
Proof.
  intros Hok Hnone. unfold resolve, pending.
  destruct (waits m !! w) as [x|] eqn:Hx; [|done].
  destruct (w_outcome x); [done|].
  pose proof (manager_ok_resume e (w_cont x) (w_conn x) m Hok
                (no_timer_on_awaited e m w x Hok Hx Hnone)) as Hr.
  destruct (resume (w_cont x) (w_conn x) m) as [m' o]; simpl in *.
  by apply manager_ok_settle.
Qed.

Lemma manager_ok_reject e w err m :
  manager_ok e m → manager_ok e (reject w err m).
Proof.
  intros Hok. unfold reject. destruct (pending w m); [|done].
  by apply manager_ok_settle.
Qed.

Lemma elem_of_remove_first_ne (eh x : string * Handler) l :
  x ≠ eh → x ∈ l → x ∈ remove_first eh l.
Proof.
  intros Hne. induction l as [|y l IH]; simpl; [done|].
  destruct (decide (y = eh)) as [->|].
  - intros [->|?]%elem_of_cons; done.
  - intros [->|?]%elem_of_cons; [by left|]. right. by apply IH.
Qed.

Lemma manager_ok_on_connect_error e c m :
  manager_ok e m → manager_ok e (on_connect_error c m).
Proof.
  intros Hok. unfold on_connect_error.
  assert (H1 : manager_ok e
                 (update_conn c
                    (λ conn, with_state (S (reconnectAttempts conn)) false conn)
                    m)).
  { apply manager_ok_update; [done| |]; [intros conn Hc; exact Hc|].
    intros conn t x _ _ _ _ Hl Hh _. done. }
  destruct (heap _ !! c) as [conn|]; [|done].
  destruct (_ >=? _); [|done].
  apply (manager_ok_frame e
           (update_conn c (with_socket socket_disconnect)
              (update_conn c
                 (λ conn, with_state (S (reconnectAttempts conn)) false conn)
                 m))); try done.
  apply manager_ok_update; [done| |]; [intros conn' Hc; exact Hc|].
  intros conn' t x _ _ _ _ Hl Hh Hcon. done.
Qed.

Lemma fmap_alter_same {A B} (f : A → B) (g : A → A) (i : nat) (l : list A) :
  (∀ x, f (g x) = f x) → f <$> alter g i l = f <$> l.
Proof.
  intros Hfg. revert i. induction l as [|x l IH]; intros [|i]; simpl; [done..| |].
  - by rewrite Hfg.
  - f_equal. apply IH.
Qed.

Lemma waits_conn_settle w o m :
  w_conn <$> waits (settle w o m) = w_conn <$> waits m.
Proof. simpl. by apply fmap_alter_same. Qed.

Lemma timers_resolve w m : timers (resolve w m) = timers m.
Proof.
  unfold resolve. destruct (pending w m) as [x|]; [|done].
  destruct (resume_keeps_pool (w_cont x) (w_conn x) m) as (_ & _ & _ & Ht).
  by destruct (resume (w_cont x) (w_conn x) m).
Qed.

Lemma waits_conn_resolve w m :
  w_conn <$> waits (resolve w m) = w_conn <$> waits m.
Proof.
  unfold resolve. destruct (pending w m) as [x|]; [|done].
  destruct (resume_keeps_pool (w_cont x) (w_conn x) m) as (_ & _ & Hw & _).
  destruct (resume (w_cont x) (w_conn x) m) as [m' o].
  rewrite waits_conn_settle. simpl in Hw. by rewrite Hw.
Qed.

Lemma timers_reject w err m : timers (reject w err m) = timers m.
Proof. unfold reject. by destruct (pending w m). Qed.

Lemma waits_conn_reject w err m :
  w_conn <$> waits (reject w err m) = w_conn <$> waits m.
Proof.
  unfold reject. destruct (pending w m); [|done]. apply waits_conn_settle.
Qed.

Lemma waits_conn_lookup (m m' : SocketManager) w x' :
  w_conn <$> waits m' = w_conn <$> waits m →
  waits m' !! w = Some x' →
  ∃ x, waits m !! w = Some x ∧ w_conn x = w_conn x'.
Proof.
  intros Heq Hw.
  assert (Hl : (w_conn <$> waits m) !! w = Some (w_conn x')).
  { rewrite <- Heq, list_lookup_fmap, Hw. done. }
  rewrite list_lookup_fmap in Hl.
  destruct (waits m !! w) as [x|]; [|done].
  exists x. split; [done|]. by injection Hl.
Qed.

(** *** Listeners *)

Lemma elem_of_settle_later w r q w' :
  w' ∈ (settle_later w r q).*1 ↔ w' = w ∨ w' ∈ q.*1.
Proof.
  unfold settle_later. destruct (decide (w ∈ q.*1)) as [Hin|Hnot].
  - split; [by right|]. by intros [->|?].
  - rewrite fmap_app, elem_of_app. simpl. rewrite list_elem_of_singleton.
    tauto.
Qed.

Lemma settle_later_prefix w r q : q `prefix_of` settle_later w r q.
Proof.
  unfold settle_later. destruct (decide (w ∈ q.*1)); [done|].
  by apply prefix_app_r.
Qed.

(** One listener keeps [manager_ok]; the 'connect' listener of the manager
    needs its record exempt, since it sets the flag before the promise's
    own listener clears the timer. *)
Lemma manager_ok_handle cb_throws e q h c data m :
  manager_ok e m → (h = OnConnect → e = Some c) →
  manager_ok e (handle cb_throws q h c data m).1.1.
Proof.
  intros Hok He. destruct h as [| | |event|w|w]; simpl.
  - apply manager_ok_update; [done| |]; [intros conn Hc; exact Hc|].
    intros conn t x _ _ _ _ Hl Hh _. repeat (split; [done|]).
    intros Hne. by destruct Hne; apply He.
  - apply manager_ok_update; [done| |]; [intros conn Hc; exact Hc|].
    intros conn t x _ _ _ _ Hl Hh _. done.
  - by apply manager_ok_on_connect_error.
  - destruct (heap m !! c) as [conn|]; [|done].
    destruct (listeners conn !! event) as [s|]; [|done].
    destruct (forEach_listener cb_throws s data) as [log threw]; simpl.
    by apply (manager_ok_frame e m).
  - change (clearTimeout w
              (update_conn c
                 (with_socket (socket_off_one "connect" (WaitConnect w))) m))
      with (update_conn c
              (with_socket (socket_off_one "connect" (WaitConnect w)))
              (clearTimeout w m)).
    apply manager_ok_update; [by apply manager_ok_clearTimeout| |].
    + intros conn. by apply registry_ok_off_one.
    + intros conn t x _ [Hw _]%timers_clearTimeout _ _ Hl Hh Hcon.
      split; [done|]. split; [|done]. simpl.
      apply elem_of_remove_first_ne; [|done]. congruence.
  - apply manager_ok_clearTimeout.
    apply manager_ok_update; [done| |].
    + intros conn. by apply registry_ok_off_one.
    + intros conn t x _ _ _ _ Hl Hh Hcon.
      split; [done|]. split; [|done]. simpl.
      apply elem_of_remove_first_ne; [|done]. congruence.
Qed.

Lemma timers_waits_on_connect_error c m :
  timers (on_connect_error c m) = timers m
  ∧ waits (on_connect_error c m) = waits m.
Proof.
  unfold on_connect_error. destruct (heap _ !! c); [|done].
  by destruct (_ >=? _).
Qed.

(** Listeners only ever remove timers, and leave the promises alone. *)
Lemma timers_handle cb_throws q h c data m t :
  t ∈ timers (handle cb_throws q h c data m).1.1 → t ∈ timers m.
Proof.
  destruct h as [| | |event|w|w]; simpl; try done.
  - by rewrite (proj1 (timers_waits_on_connect_error c m)).
  - destruct (heap m !! c) as [conn|]; [|done].
    destruct (listeners conn !! event) as [s|]; [|done].
    by destruct (forEach_listener cb_throws s data).
  - by intros [_ ?]%list_elem_of_filter.
  - by intros [_ ?]%list_elem_of_filter.
Qed.

Lemma waits_handle cb_throws q h c data m :
  waits (handle cb_throws q h c data m).1.1 = waits m.
Proof.
  destruct h as [| | |event|w|w]; simpl; try done.
  - by rewrite (proj2 (timers_waits_on_connect_error c m)).
  - destruct (heap m !! c) as [conn|]; [|done].
    destruct (listeners conn !! event) as [s|]; [|done].
    by destruct (forEach_listener cb_throws s data).
Qed.

Lemma handle_no_throw cb_throws q h c data m :
  (∀ x, h ≠ FanOut x) → (handle cb_throws q h c data m).2 = false.
Proof. intros Hh. destruct h; try done. by destruct (Hh event). Qed.

(** A promise settled during the turn has no timer left. *)
Lemma settled_without_timer_handle cb_throws q h c data m :
  settled_without_timer q m →
  settled_without_timer (handle cb_throws q h c data m).1.2
    (handle cb_throws q h c data m).1.1.
Proof.
  intros Hq w' t Hw' Ht.
  pose proof (timers_handle cb_throws q h c data m t Ht) as Ht0.
  destruct h as [| | |event|w|w]; simpl in *; try by apply (Hq w' t).
  - destruct (heap m !! c) as [conn|]; [|by apply (Hq w' t)].
    destruct (listeners conn !! event) as [s|]; [|by apply (Hq w' t)].
    destruct (forEach_listener cb_throws s data); by apply (Hq w' t).
  - apply elem_of_settle_later in Hw' as [->|Hw']; [|by apply (Hq w' t)].
    by apply list_elem_of_filter in Ht as [? _].
  - apply elem_of_settle_later in Hw' as [->|Hw']; [|by apply (Hq w' t)].
    by apply list_elem_of_filter in Ht as [? _].
Qed.

Lemma handle_all_ind cb_throws hs c data
    (P : SocketManager → Microtasks → Prop) :
  (∀ h q m, h ∈ hs → P m q →
     P (handle cb_throws q h c data m).1.1
       (handle cb_throws q h c data m).1.2) →
  ∀ q m, P m q →
    P (handle_all cb_throws q hs c data m).1.1
      (handle_all cb_throws q hs c data m).1.2.
Proof.
  induction hs as [|h hs IH]; intros Hstep q m HP; [done|]. simpl.
  pose proof (Hstep h q m ltac:(by left) HP) as Hh.
  destruct (handle cb_throws q h c data m) as [[m' q'] threw]; simpl in *.
  destruct threw; [done|]. apply IH; [|done].
  intros h' q0 m0 Hin. apply Hstep. by right.
Qed.

Lemma emit_ind cb_throws c event data
    (P : SocketManager → Microtasks → Prop) :
  (∀ h q m, P m q →
     P (handle cb_throws q h c data m).1.1
       (handle cb_throws q h c data m).1.2) →
  ∀ q m, P m q →
    P (emit cb_throws q c event data m).1.1
      (emit cb_throws q c event data m).1.2.
Proof.
  intros Hstep q m HP. unfold emit.
  destruct (heap m !! c) as [conn|]; [|done].
  apply handle_all_ind; [|done]. intros h q0 m0 _. apply Hstep.
Qed.

Lemma manager_ok_handle_all cb_throws e q hs c data m :
  manager_ok e m → (OnConnect ∈ hs → e = Some c) →
  manager_ok e (handle_all cb_throws q hs c data m).1.1.
Proof.
  intros Hok He.
  apply (handle_all_ind cb_throws hs c data (λ m _, manager_ok e m));
    [|done].
  intros h q0 m0 Hin Hm0. apply manager_ok_handle; [done|].
  intros ->. by apply He.
Qed.

Lemma timers_handle_all cb_throws q hs c data m t :
  t ∈ timers (handle_all cb_throws q hs c data m).1.1 → t ∈ timers m.
Proof.
  apply (handle_all_ind cb_throws hs c data
           (λ m' _, t ∈ timers m' → t ∈ timers m)); [|done].
  intros h q0 m0 _ Hm0 Ht. by apply Hm0, (timers_handle cb_throws q0 h c data).
Qed.

Lemma waits_handle_all cb_throws q hs c data m :
  waits (handle_all cb_throws q hs c data m).1.1 = waits m.
Proof.
  apply (handle_all_ind cb_throws hs c data
           (λ m' _, waits m' = waits m)); [|done].
  intros h q0 m0 _ Hm0. by rewrite waits_handle.
Qed.

Lemma settled_without_timer_handle_all cb_throws q hs c data m :
  settled_without_timer q m →
  settled_without_timer (handle_all cb_throws q hs c data m).1.2
    (handle_all cb_throws q hs c data m).1.1.
Proof.
  apply (handle_all_ind cb_throws hs c data
           (λ m' q', settled_without_timer q' m')).
  intros h q0 m0 _. apply settled_without_timer_handle.
Qed.

(** Once the promise's 'connect' listener has run, the promise has no
    timer. *)
Lemma timers_handle_all_cleared cb_throws q hs c data m w :
  (∀ h x, h ∈ hs → h ≠ FanOut x) → WaitConnect w ∈ hs →
  ∀ t, t ∈ timers (handle_all cb_throws q hs c data m).1.1 → t_wait t ≠ w.
Proof.
  revert q m. induction hs as [|h hs IH]; intros q m Hno Hin t;
    [by apply elem_of_nil in Hin|].
  simpl.
  pose proof (handle_no_throw cb_throws q h c data m) as Hthrew.
  assert (Hcleared : h = WaitConnect w →
            ∀ t, t ∈ timers (handle cb_throws q h c data m).1.1 →
                 t_wait t ≠ w).
  { intros -> t'. simpl. by intros [? _]%list_elem_of_filter. }
  destruct (handle cb_throws q h c data m) as [[m' q'] threw]; simpl in *.
  rewrite Hthrew by (intros x; apply Hno; by left).
  apply elem_of_cons in Hin as [<-|Hin].
  - intros Ht%timers_handle_all. by apply Hcleared.
  - apply IH; [|done]. intros h' x Hh'. apply Hno. by right.
Qed.

(** The listeners of one event keep [manager_ok]. *)
Lemma manager_ok_emit cb_throws q c event data m :
  manager_ok None m → manager_ok None (emit cb_throws q c event data m).1.1.
Proof.
  intros Hok. unfold emit.
  destruct (heap m !! c) as [conn|] eqn:Hc; [|done].
  pose proof (ok_registry None m Hok c conn Hc) as [Hwf Hreg].
  destruct (decide (OnConnect ∈ handlers_of event (socket conn)))
    as [Hon|Hoff]; [|by apply manager_ok_handle_all].
  assert (event = "connect") as ->.
  { apply elem_of_handlers_of in Hon. by apply Hwf in Hon. }
  assert (Hrel : manager_ok (Some c)
                   (handle_all cb_throws q
                      (handlers_of "connect" (socket conn)) c data m).1.1).
  { apply manager_ok_handle_all; [by apply manager_ok_weaken|done]. }
  destruct Hrel as [H1 H2 H3 H4 H5]. split; try done.
  intros t Hin. destruct (H5 t Hin) as (x' & conn' & Hx' & Hc' & Hl & Hh & Hcon).
  exists x', conn'. repeat (split; [done|]). intros _. apply Hcon.
  intros [= Heq].
  rewrite waits_handle_all in Hx'.
  pose proof (timers_handle_all _ _ _ _ _ _ _ Hin) as Hin0.
  destruct (ok_timers None m Hok t Hin0)
    as (x0 & conn0 & Hx0 & Hc0 & Hl0 & Hh0 & _).
  assert (x0 = x') as -> by congruence.
  assert (conn0 = conn) as -> by congruence.
  assert (Hno : ∀ h ev, h ∈ handlers_of "connect" (socket conn) →
                        h ≠ FanOut ev).
  { intros h ev Hh' ->. apply elem_of_handlers_of in Hh' as Hev.
    apply Hwf in Hev. simpl in Hev. subst ev.
    specialize (Hreg "connect"). rewrite Hl0, lookup_empty in Hreg.
    unfold wire_listeners in Hreg.
    apply length_zero_iff_nil in Hreg.
    assert (Hf : FanOut "connect"
                 ∈ filter (λ h, h = FanOut "connect")
                     (handlers_of "connect" (socket conn)))
      by (by apply list_elem_of_filter).
    rewrite Hreg in Hf. by apply elem_of_nil in Hf. }
  apply elem_of_handlers_of in Hh0.
  exact (timers_handle_all_cleared cb_throws q _ c data m (t_wait t)
           Hno Hh0 t Hin eq_refl).
Qed.

Lemma timers_emit cb_throws q c event data m t :
  t ∈ timers (emit cb_throws q c event data m).1.1 → t ∈ timers m.
Proof.
  unfold emit. destruct (heap m !! c); [|done]. apply timers_handle_all.
Qed.

Lemma waits_emit cb_throws q c event data m :
  waits (emit cb_throws q c event data m).1.1 = waits m.
Proof.
  unfold emit. destruct (heap m !! c); [|done]. apply waits_handle_all.
Qed.

Lemma settled_without_timer_emit cb_throws q c event data m :
  settled_without_timer q m →
  settled_without_timer (emit cb_throws q c event data m).1.2
    (emit cb_throws q c event data m).1.1.
Proof.
  unfold emit. destruct (heap m !! c); [|done].
  apply settled_without_timer_handle_all.
Qed.

(** *** Microtasks *)

Lemma run_microtasks_ind (P : SocketManager → Prop) q :
  (∀ x m, x ∈ q → P m → P (run_microtask x m)) →
  ∀ m, P m → P (run_microtasks q m).
Proof.
  unfold run_microtasks. induction q as [|x q IH]; intros Hstep m HP; [done|].
  simpl. apply IH.
  - intros y m' Hy. apply Hstep. by right.
  - apply Hstep; [by left|done].
Qed.

Lemma run_microtasks_snoc q x m :
  run_microtasks (q ++ [x]) m = run_microtask x (run_microtasks q m).
Proof. unfold run_microtasks. by rewrite foldl_app. Qed.

Lemma timers_run_microtask x m : timers (run_microtask x m) = timers m.
Proof.
  unfold run_microtask. destruct x.2; [apply timers_reject|apply timers_resolve].
Qed.

Lemma timers_run_microtasks q m : timers (run_microtasks q m) = timers m.
Proof.
  apply (run_microtasks_ind (λ m', timers m' = timers m)); [|done].
  intros x m' _ <-. apply timers_run_microtask.
Qed.

Lemma waits_conn_run_microtasks q m :
  w_conn <$> waits (run_microtasks q m) = w_conn <$> waits m.
Proof.
  apply (run_microtasks_ind (λ m', w_conn <$> waits m' = w_conn <$> waits m));
    [|done].
  intros x m' _ <-. unfold run_microtask.
  destruct x.2; [apply waits_conn_reject|apply waits_conn_resolve].
Qed.

Lemma manager_ok_run_microtasks e q m :
  manager_ok e m → settled_without_timer q m →
  manager_ok e (run_microtasks q m).
Proof.
  intros Hok Hq.
  refine (proj1 (run_microtasks_ind
                   (λ m', manager_ok e m' ∧ timers m' = timers m) q _ m _));
    [|done].
  intros x m' Hx [Hm' Ht]. split; [|by rewrite timers_run_microtask].
  unfold run_microtask. destruct x.2; [by apply manager_ok_reject|].
  apply manager_ok_resolve; [done|]. rewrite Ht. intros t Hin.
  apply (Hq x.1 t); [|done]. by apply list_elem_of_fmap_2.
Qed.

(** *** Turns *)

Lemma receive_state cb_throws c event data m :
  (receive cb_throws c event data m).1
  = run_microtasks (emit cb_throws [] c event data m).1.2
      (emit cb_throws [] c event data m).1.1.
Proof.
  unfold receive. by destruct (emit cb_throws [] c event data m) as [[m' q] ?].
Qed.


Lemma settled_without_timer_nil m : settled_without_timer [] m.
Proof. intros w t Hw. by apply elem_of_nil in Hw. Qed.

(** A transport event keeps [manager_ok]. *)
Lemma manager_ok_receive cb_throws c event data m :
  manager_ok None m → manager_ok None (receive cb_throws c event data m).1.
Proof.
  intros Hok. rewrite receive_state. apply manager_ok_run_microtasks.
  - by apply manager_ok_emit.
  - apply settled_without_timer_emit, settled_without_timer_nil.
Qed.

Lemma dispatch_ind cb_throws (P : SocketManager → Microtasks → Prop) :
  (∀ c event q m,
     P m q → P (update_conn c (with_socket (socket_sees event)) m) q) →
  (∀ c event data q m,
     P m q →
     P (emit cb_throws q c event data m).1.1
       (emit cb_throws q c event data m).1.2) →
  ∀ events q m, P m q →
    P (dispatch cb_throws events q m).1.1 (dispatch cb_throws events q m).1.2.
Proof.
  intros Hsees Hemit events.
  induction events as [|[[c event] data] events IH]; intros q m HP; [done|].
  simpl. destruct (raises c event m); [|by apply IH].
  pose proof (Hemit c event data q _ (Hsees c event q m HP)) as He.
  destruct (emit cb_throws q c event data
              (update_conn c (with_socket (socket_sees event)) m))
    as [[m' q'] threw]; simpl in *.
  destruct threw; [done|]. by apply IH.
Qed.

Lemma turn_state cb_throws events m :
  turn cb_throws events m
  = run_microtasks (dispatch cb_throws events [] m).1.2
      (dispatch cb_throws events [] m).1.1.
Proof.
  unfold turn. by destruct (dispatch cb_throws events [] m) as [[m' q] ?].
Qed.

Lemma close_socket_ind cb_throws (P : SocketManager → Microtasks → Prop) :
  (∀ c q m,
     P m q → P (update_conn c (with_socket socket_disconnect) m) q) →
  (∀ c q m,
     P m q →
     P (emit cb_throws q c "disconnect" "io client disconnect" m).1.1
       (emit cb_throws q c "disconnect" "io client disconnect" m).1.2) →
  ∀ c q m, P m q →
    P (close_socket cb_throws q c m).1.1 (close_socket cb_throws q c m).1.2.
Proof.
  intros Hclose Hemit c q m HP. unfold close_socket.
  destruct (heap m !! c) as [conn|]; [|done].
  destruct (sock_connected (socket conn)); [|by apply Hclose].
  by apply Hemit, Hclose.
Qed.

Lemma close_all_ind cb_throws (P : SocketManager → Microtasks → Prop) :
  (∀ c q m,
     P m q → P (update_conn c (with_socket socket_disconnect) m) q) →
  (∀ c q m,
     P m q →
     P (emit cb_throws q c "disconnect" "io client disconnect" m).1.1
       (emit cb_throws q c "disconnect" "io client disconnect" m).1.2) →
  ∀ cs q m, P m q →
    P (close_all cb_throws cs q m).1.1 (close_all cb_throws cs q m).1.2.
Proof.
  intros Hclose Hemit cs.
  induction cs as [|c cs IH]; intros q m HP; [done|]. simpl.
  pose proof (close_socket_ind cb_throws P Hclose Hemit c q m HP) as Hc.
  destruct (close_socket cb_throws q c m) as [[m' q'] threw]; simpl in *.
  destruct threw; [done|]. by apply IH.
Qed.

Lemma disconnect_state cb_throws url namespace m c :
  connections m !! getConnectionKey url namespace = Some c →
  disconnect cb_throws url namespace m
  = (run_microtasks (close_socket cb_throws [] c m).1.2
       (if (close_socket cb_throws [] c m).2
        then (close_socket cb_throws [] c m).1.1
        else pool_delete (getConnectionKey url namespace)
               (close_socket cb_throws [] c m).1.1),
     (close_socket cb_throws [] c m).2).
Proof.
  intros Hkey. unfold disconnect. rewrite Hkey.
  by destruct (close_socket cb_throws [] c m) as [[m' q] ?].
Qed.

Lemma disconnectAll_state cb_throws m :
  disconnectAll cb_throws m
  = (run_microtasks (close_all cb_throws (pool_records m) [] m).1.2
       (if (close_all cb_throws (pool_records m) [] m).2
        then (close_all cb_throws (pool_records m) [] m).1.1
        else pool_clear (close_all cb_throws (pool_records m) [] m).1.1),
     (close_all cb_throws (pool_records m) [] m).2).
Proof.
  unfold disconnectAll.
  by destruct (close_all cb_throws (pool_records m) [] m) as [[m' q] ?].
Qed.

Lemma manager_ok_sees c event m :
  manager_ok None m →
  manager_ok None (update_conn c (with_socket (socket_sees event)) m).
Proof.
  intros Hok. apply manager_ok_update; [done| |].
  - intros conn H; exact H.
  - intros conn t x _ _ _ _ Hl Hh Hcon. done.
Qed.

Lemma manager_ok_socket_disconnect c m :
  manager_ok None m →
  manager_ok None (update_conn c (with_socket socket_disconnect) m).
Proof.
  intros Hok. apply manager_ok_update; [done| |].
  - intros conn. apply registry_ok_disconnect.
  - intros conn t x _ _ _ _ Hl Hh Hcon. done.
Qed.

Lemma manager_ok_dispatch cb_throws events q m :
  manager_ok None m → settled_without_timer q m →
  manager_ok None (dispatch cb_throws events q m).1.1
  ∧ settled_without_timer (dispatch cb_throws events q m).1.2
      (dispatch cb_throws events q m).1.1.
Proof.
  intros Hok Hq.
  apply (dispatch_ind cb_throws
           (λ m q, manager_ok None m ∧ settled_without_timer q m));
    [| |done].
  - intros c event q0 m0 [Hm0 Hq0]. split; [by apply manager_ok_sees|done].
  - intros c event data q0 m0 [Hm0 Hq0].
    split; [by apply manager_ok_emit|by apply settled_without_timer_emit].
Qed.

Lemma manager_ok_turn cb_throws events m :
  manager_ok None m → manager_ok None (turn cb_throws events m).
Proof.
  intros Hok. rewrite turn_state.
  destruct (manager_ok_dispatch cb_throws events [] m Hok
              (settled_without_timer_nil m)) as [Hm Hq].
  by apply manager_ok_run_microtasks.
Qed.

Lemma manager_ok_close_socket cb_throws c q m :
  manager_ok None m → settled_without_timer q m →
  manager_ok None (close_socket cb_throws q c m).1.1
  ∧ settled_without_timer (close_socket cb_throws q c m).1.2
      (close_socket cb_throws q c m).1.1.
Proof.
  intros Hok Hq.
  apply (close_socket_ind cb_throws
           (λ m q, manager_ok None m ∧ settled_without_timer q m));
    [| |done].
  - intros c0 q0 m0 [Hm0 Hq0].
    split; [by apply manager_ok_socket_disconnect|done].
  - intros c0 q0 m0 [Hm0 Hq0].
    split; [by apply manager_ok_emit|by apply settled_without_timer_emit].
Qed.

Lemma manager_ok_close_all cb_throws cs q m :
  manager_ok None m → settled_without_timer q m →
  manager_ok None (close_all cb_throws cs q m).1.1
  ∧ settled_without_timer (close_all cb_throws cs q m).1.2
      (close_all cb_throws cs q m).1.1.
Proof.
  intros Hok Hq.
  apply (close_all_ind cb_throws
           (λ m q, manager_ok None m ∧ settled_without_timer q m));
    [| |done].
  - intros c0 q0 m0 [Hm0 Hq0].
    split; [by apply manager_ok_socket_disconnect|done].
  - intros c0 q0 m0 [Hm0 Hq0].
    split; [by apply manager_ok_emit|by apply settled_without_timer_emit].
Qed.

Lemma manager_ok_disconnect cb_throws url namespace m :
  manager_ok None m →
  manager_ok None (disconnect cb_throws url namespace m).1.
Proof.
  intros Hok.
  destruct (connections m !! getConnectionKey url namespace) as [c|] eqn:Hkey;
    [|unfold disconnect; by rewrite Hkey].
  rewrite (disconnect_state _ _ _ _ c Hkey). simpl.
  destruct (manager_ok_close_socket cb_throws c [] m Hok
              (settled_without_timer_nil m)) as [Hm Hq].
  apply manager_ok_run_microtasks.
  - destruct (close_socket cb_throws [] c m).2; [done|].
    by apply (manager_ok_frame None (close_socket cb_throws [] c m).1.1).
  - by destruct (close_socket cb_throws [] c m).2.
Qed.

Lemma manager_ok_disconnectAll cb_throws m :
  manager_ok None m → manager_ok None (disconnectAll cb_throws m).1.
Proof.
  intros Hok. rewrite disconnectAll_state. simpl.
  destruct (manager_ok_close_all cb_throws (pool_records m) [] m Hok
              (settled_without_timer_nil m)) as [Hm Hq].
  apply manager_ok_run_microtasks.
  - destruct (close_all cb_throws (pool_records m) [] m).2; [done|].
    by apply (manager_ok_frame None
                (close_all cb_throws (pool_records m) [] m).1.1).
  - by destruct (close_all cb_throws (pool_records m) [] m).2.
Qed.

(** *** Calls *)

Lemma timer_insert_perm x l : timer_insert x l ≡ₚ x :: l.
Proof.
  induction l as [|y l IH]; simpl; [done|].
  destruct (t_due x <? t_due y); [done|].
  rewrite IH. apply Permutation_swap.
Qed.

Lemma manager_ok_connecting k url namespace options m :
  manager_ok None m → manager_ok None (connecting k url namespace options m).
Proof.
  intros [H1 H2 H3 H4 H5].
  assert (Hold : ∀ w x, waits m !! w = Some x → (w < length (waits m))%nat).
  { intros w x Hw. by apply lookup_lt_Some in Hw. }
  split.
  - by apply all_registry_ok_connecting.
  - intros w x; simpl. rewrite length_app; simpl.
    intros [[_ Hw]|[-> <-]]%lookup_snoc_Some; simpl; [|lia].
    pose proof (H2 w x Hw). lia.
  - intros w w' x x'; simpl.
    intros [[_ Hw]|[-> <-]]%lookup_snoc_Some
      [[_ Hw']|[-> <-]]%lookup_snoc_Some; simpl.
    + by apply H3.
    + intros Heq. pose proof (H2 w x Hw). lia.
    + intros Heq. pose proof (H2 w' x' Hw'). lia.
    + done.
  - simpl. rewrite timer_insert_perm, fmap_cons; simpl.
    apply NoDup_cons. split; [|done].
    intros (t & Ht & Hin)%list_elem_of_fmap.
    destruct (H5 t Hin) as (x & _ & Hx & _).
    apply Hold in Hx. lia.
  - intros t; simpl. rewrite timer_insert_perm.
    intros [->|Hin]%elem_of_cons.
    + eexists _, _; simpl.
      split; [by rewrite lookup_app_r, Nat.sub_diag by lia|]. simpl.
      split; [by rewrite lookup_app_r, Nat.sub_diag by lia|]. simpl.
      split; [done|]. split; [|done].
      cbn. repeat constructor.
    + destruct (H5 t Hin) as (x & conn & Hx & Hc & Hrest).
      exists x, conn.
      split; [by apply lookup_app_l_Some|].
      split; [by apply lookup_app_l_Some|]. done.
Qed.

Lemma is_connected_true c m :
  is_connected c m = true ↔ ∃ conn, heap m !! c = Some conn ∧ connected conn = true.
Proof.
  unfold is_connected. destruct (heap m !! c) as [conn|]; simpl.
  - split; [eauto|]. by intros (? & [= <-] & ?).
  - split; [done|]. by intros (? & [=] & _).
Qed.

Lemma manager_ok_resume_connected k c m :
  manager_ok None m → is_connected c m = true →
  manager_ok None (resume k c m).1.
Proof.
  intros Hok (conn & Hc & Hconn)%is_connected_true.
  apply manager_ok_resume; [done|].
  intros t y Hin Hy <-.
  destruct (ok_timers None m Hok t Hin) as (x & conn' & Hx & Hc' & _ & _ & Hf).
  assert (x = y) as -> by congruence.
  assert (conn' = conn) as -> by congruence.
  rewrite Hf in Hconn; done.
Qed.

Lemma manager_ok_connect_k k url namespace options m :
  manager_ok None m → manager_ok None (connect_k k url namespace options m).1.
Proof.
  intros Hok.
  destruct (existing_connected (getConnectionKey url namespace) m) as [c|]
    eqn:He.
  - unfold connect_k. rewrite He.
    apply existing_connected_Some in He as [_ Hconn].
    pose proof (manager_ok_resume_connected k c m Hok Hconn) as Hr.
    by destruct (resume k c m).
  - rewrite connect_k_fresh by done. by apply manager_ok_connecting.
Qed.

Lemma manager_ok_getOrCreate k url namespace options m :
  manager_ok None m →
  manager_ok None (getOrCreateConnection k url namespace options m).1.
Proof.
  intros Hok. unfold getOrCreateConnection.
  destruct (existing_connected (getConnectionKey url namespace) m) as [c|]
    eqn:He; [|by apply manager_ok_connect_k].
  apply existing_connected_Some in He as [_ Hconn].
  pose proof (manager_ok_resume_connected k c m Hok Hconn) as Hr.
  by destruct (resume k c m).
Qed.

Lemma manager_ok_unsubscribe url namespace event callback options m :
  manager_ok None m →
  manager_ok None (unsubscribe url namespace event callback options m).
Proof.
  intros Hok. unfold unsubscribe.
  destruct (connections m !! _) as [c|]; [|done].
  apply manager_ok_update; [done| |].
  - intros conn. apply registry_ok_unsubscribe_on.
  - intros conn t x _ _ _ _ Hl Hh Hcon.
    assert (unsubscribe_on event callback conn = conn) as ->; [|done].
    unfold unsubscribe_on. rewrite Hl, lookup_empty. by destruct callback.
Qed.

(** *** The clock *)

Lemma all_registry_ok_update_at c f m :
  (∀ conn, heap m !! c = Some conn → registry_ok conn → registry_ok (f conn)) →
  all_registry_ok m → all_registry_ok (update_conn c f m).
Proof.
  intros Hf Hm c' conn'. destruct (decide (c = c')) as [<-|Hne].
  - rewrite heap_update_conn. destruct (heap m !! c) as [conn|] eqn:Hc;
      [|discriminate].
    intros [= <-]. apply Hf; [done|]. by apply (Hm c).
  - rewrite heap_update_conn_ne by done. apply Hm.
Qed.

(** The timeout of a promise that has no other timer and whose record has
    no subscription. *)
Lemma manager_ok_on_timeout w m :
  manager_ok None m → (∀ t, t ∈ timers m → t_wait t ≠ w) →
  (∀ x conn, waits m !! w = Some x → heap m !! w_conn x = Some conn →
             listeners conn = ∅) →
  manager_ok None (on_timeout w m).
Proof.
  intros Hok Hnone Hempty. unfold on_timeout.
  destruct (waits m !! w) as [x|] eqn:Hx; [|done].
  apply manager_ok_reject. destruct Hok as [H1 H2 H3 H4 H5]. split.
  - apply all_registry_ok_update_at; [|done].
    intros conn Hc Hreg. pose proof (Hempty x conn eq_refl Hc) as Hl.
    change (with_socket (λ s, socket_off "connect_error"
                                (socket_off "connect" s)) conn)
      with (with_socket (socket_off "connect_error")
              (with_socket (socket_off "connect") conn)).
    apply registry_ok_off_unsubscribed; [|by simpl; rewrite Hl].
    apply registry_ok_off_unsubscribed; [done|by rewrite Hl].
  - intros w' x' Hw'. simpl. rewrite length_alter. by apply (H2 w').
  - exact H3.
  - exact H4.
  - intros t Hin.
    destruct (H5 t Hin) as (x' & conn' & Hx' & Hc' & Hrest).
    exists x', conn'. split; [done|].
    rewrite heap_update_conn_ne; [done|].
    intros Heq. apply (Hnone t Hin). by apply (H3 (t_wait t) w x' x).
Qed.

Lemma on_timeout_effects w m :
  timers (on_timeout w m) = timers m
  ∧ w_conn <$> waits (on_timeout w m) = w_conn <$> waits m
  ∧ ∀ c conn', heap (on_timeout w m) !! c = Some conn' →
      ∃ conn, heap m !! c = Some conn ∧ listeners conn' = listeners conn.
Proof.
  unfold on_timeout. destruct (waits m !! w) as [x|]; [|by eauto].
  rewrite timers_reject, waits_conn_reject.
  split; [done|]. split; [done|].
  intros c conn'. unfold reject. 
  assert (Hheap : ∀ mm, heap (match pending w mm with
                              | Some _ => settle w (Rejected (ConnectionTimeout
                                            (target_of m (w_conn x)))) mm
                              | None => mm end) = heap mm).
  { intros mm. by destruct (pending w mm). }
  rewrite Hheap.
  destruct (decide (w_conn x = c)) as [<-|Hne].
  - rewrite heap_update_conn. destruct (heap m !! w_conn x) as [conn|]; [|done].
    intros [= <-]. by exists conn.
  - rewrite heap_update_conn_ne by done. eauto.
Qed.

Lemma manager_ok_timeouts (due : list Timer) m :
  manager_ok None m →
  (∀ t, t ∈ due →
     (∀ t', t' ∈ timers m → t_wait t' ≠ t_wait t)
     ∧ ∀ x conn, waits m !! t_wait t = Some x →
                 heap m !! w_conn x = Some conn → listeners conn = ∅) →
  manager_ok None (foldl (λ acc x, on_timeout (t_wait x) acc) m due).
Proof.
  revert m. induction due as [|t due IH]; intros m Hok Hdue; simpl; [done|].
  destruct (Hdue t) as [Hnone Hempty]; [by left|].
  destruct (on_timeout_effects (t_wait t) m) as (Ht & Hw & Hl).
  apply IH; [by apply manager_ok_on_timeout|].
  intros t' Hin'. destruct (Hdue t') as [Hnone' Hempty']; [by right|].
  split; [by rewrite Ht|].
  intros x' conn' Hx' Hc'.
  destruct (waits_conn_lookup m _ _ _ Hw Hx') as (x & Hx & Hxc).
  rewrite <- Hxc in Hc'. destruct (Hl _ _ Hc') as (conn & Hc & ->).
  by apply (Hempty' x).
Qed.

Lemma NoDup_fmap_inj_on {A B} (f : A → B) (l : list A) x y :
  NoDup (f <$> l) → x ∈ l → y ∈ l → f x = f y → x = y.
Proof.
  induction l as [|z l IH]; [by intros _ ?%elem_of_nil|].
  rewrite fmap_cons, NoDup_cons. intros [Hz Hl].
  intros [->|Hx]%elem_of_cons [->|Hy]%elem_of_cons Heq.
  - done.
  - destruct Hz. rewrite Heq. by apply list_elem_of_fmap_2.
  - destruct Hz. rewrite <- Heq. by apply list_elem_of_fmap_2.
  - by apply IH.
Qed.

Lemma manager_ok_advance t m :
  manager_ok None m → manager_ok None (advance t m).
Proof.
  intros Hok. unfold advance. apply manager_ok_timeouts.
  - destruct Hok as [H1 H2 H3 H4 H5]. split; try done.
    + simpl. by apply NoDup_fmap_filter.
    + intros t' [_ Hin]%list_elem_of_filter. by apply H5.
  - intros t0 [Hdue Hin]%list_elem_of_filter. split.
    + intros t' [Hnot Hin']%list_elem_of_filter Heq.
      assert (t' = t0) as ->; [|done].
      by apply (NoDup_fmap_inj_on t_wait (timers m));
        [apply (ok_timers_nodup None m Hok)|..].
    + intros x conn Hx Hc. simpl in Hx, Hc.
      destruct (ok_timers None m Hok t0 Hin)
        as (x0 & conn0 & Hx0 & Hc0 & Hl & _).
      congruence.
Qed.

(** *** Runs *)

Lemma manager_ok_step cb_throws a m :
  manager_ok None m → manager_ok None (step cb_throws a m).
Proof.
  intros Hok. destruct a; simpl.
  - by apply manager_ok_connect_k.
  - by apply manager_ok_getOrCreate.
  - by apply manager_ok_unsubscribe.
  - by apply manager_ok_getOrCreate.
  - by apply manager_ok_disconnect.
  - by apply manager_ok_disconnectAll.
  - by apply manager_ok_turn.
  - by apply manager_ok_turn.
  - by apply manager_ok_advance.
Qed.

Lemma manager_ok_empty : manager_ok None empty_manager.
Proof.
  split; simpl.
  - apply all_registry_ok_empty.
  - intros w x. by rewrite lookup_nil.
  - intros w w' x x'. by rewrite lookup_nil.
  - apply NoDup_nil_2.
  - intros t Hin. by apply elem_of_nil in Hin.
Qed.

(** Every state the manager reaches from its creation, by calls of its
    methods, transport events and expiring timers, satisfies [manager_ok];
    so every record in it satisfies the registry invariant. *)
Lemma manager_ok_run cb_throws l : manager_ok None (run cb_throws l empty_manager).
Proof.
  unfold run. generalize manager_ok_empty. generalize empty_manager as m.
  induction l as [|a l IH]; intros m Hm; simpl; [done|].
  apply IH. by apply manager_ok_step.
Qed.

Lemma reachable_registry_ok cb_throws l c conn :
  heap (run cb_throws l empty_manager) !! c = Some conn → registry_ok conn.
Proof. apply (ok_registry None _ (manager_ok_run cb_throws l)). Qed.

(** ** The registry in the states the manager reaches *)

(** C5. In every state the manager reaches from its creation, by calls
    of its methods, transport events and expiring timers, every record
    satisfies the registry invariant; so every subscribe and unsubscribe
    keeps it.  The invariant says that an event has a wire-level listener
    exactly when its callback set is non-empty.  It is kept by subscribe
    (by the part that runs at the call and by the part that runs when an
    awaited connection resolves) and by unsubscribe on every manager that
    satisfies it, and by their work on every record that satisfies it.  An
    unsubscribe with a callback that empties the set, and an unsubscribe
    without a callback, remove the event's entry and every listener of the
    event from the socket. *)
Theorem registry_invariant_preserved :
  (∀ cb_throws l, all_registry_ok (run cb_throws l empty_manager))
  ∧ (∀ conn, registry_ok conn → wire_iff_callbacks conn)
  ∧ (∀ m url namespace event cb callback options,
       all_registry_ok m →
       all_registry_ok (subscribe url namespace event cb options m).1
       ∧ (∀ w, all_registry_ok (resolve w m))
       ∧ all_registry_ok (unsubscribe url namespace event callback options m))
  ∧ ∀ conn event cb callback,
      registry_ok conn →
      registry_ok (subscribe_on event cb conn)
      ∧ registry_ok (unsubscribe_on event callback conn)
      ∧ (∀ s, listeners conn !! event = Some s → set_delete cb s = [] →
           listeners (unsubscribe_on event (Some cb) conn) !! event = None
           ∧ handlers_of event (socket (unsubscribe_on event (Some cb) conn))
             = [])
      ∧ listeners (unsubscribe_on event None conn) !! event = None
      ∧ wire_listeners event (unsubscribe_on event None conn) = 0%nat.
Proof.
  split; [intros cb_throws l; apply (manager_ok_run cb_throws l)|].
  split; [apply registry_ok_wire_iff|]. split.
  - intros m url namespace event cb callback options Hm.
    destruct (registry_invariant_step url namespace event cb callback
                options m Hm) as (Hsub & Hres & _ & Hunsub & _).
    done.
  - intros conn event cb callback Hok.
    set (m := {| connections := ∅; pool_order := []; heap := [conn];
                 waits := []; timers := [];
                 now := 0; delivered := [] |}).
    assert (Hm : all_registry_ok m).
    { intros c conn' Hc. apply list_lookup_singleton_Some in Hc as [_ <-].
      done. }
    destruct (registry_invariant_step "" "" event cb callback None m Hm)
      as (_ & _ & _ & _ & Hrec).
    destruct (Hrec 0%nat conn eq_refl) as (_ & H1 & H2 & H3 & H4 & H5).
    done.
Qed.

Lemma registry_invariant_preserved_witness :
  all_registry_ok (run never_throws example_run empty_manager)
  ∧ all_registry_ok
      (subscribe "http://h:3000" "/" "y" 7%nat None
         (run never_throws example_run empty_manager)).1
  ∧ all_registry_ok
      (unsubscribe "http://h:3000" "/" "x" (Some 7%nat) None
         (run never_throws example_run empty_manager))
  ∧ wire_iff_callbacks (fresh_connection "http://h:3000" "/" None)
  ∧ registry_ok
      (unsubscribe_on "x" (Some 7%nat)
         (subscribe_on "x" 7%nat (fresh_connection "http://h:3000" "/" None)))
  ∧ listeners
      (unsubscribe_on "x" (Some 7%nat)
         (subscribe_on "x" 7%nat (fresh_connection "http://h:3000" "/" None)))
      !! "x" = None
  ∧ handlers_of "x"
      (socket
         (unsubscribe_on "x" (Some 7%nat)
            (subscribe_on "x" 7%nat
               (fresh_connection "http://h:3000" "/" None)))) = [].
Proof.
  destruct registry_invariant_preserved as (Hrun & Hiff & Hm & Hrec).
  pose proof (Hrun never_throws example_run) as Hex.
  destruct (Hm (run never_throws example_run empty_manager)
              "http://h:3000" "/" "y" 7%nat None None Hex) as (Hs & _ & _).
  destruct (Hm (run never_throws example_run empty_manager)
              "http://h:3000" "/" "x" 7%nat (Some 7%nat) None Hex)
    as (_ & _ & Hu).
  pose proof (registry_ok_fresh "http://h:3000" "/" None) as Hfresh.
  destruct (Hrec _ "x" 7%nat None Hfresh) as (Hsub & _).
  destruct (Hrec _ "x" 7%nat (Some 7%nat) Hsub) as (_ & Hunsub & Hlast & _).
  destruct (Hlast [7%nat]) as [Hnone Hoff];
    [vm_compute; reflexivity | vm_compute; reflexivity |].
  split; [exact Hex|]. split; [exact Hs|]. split; [exact Hu|].
  split; [exact (Hiff _ Hfresh)|]. split; [exact Hunsub|].
  split; [exact Hnone|exact Hoff].
Defined.

(** C10. For every record of every state the manager reaches, every
    event and every callback: subscribing the callback to the event twice
    leaves the record exactly as subscribing it once does; the callback is
    then once in the event's set and the event has one wire-level
    listener.  Through the manager, two [subscribe] calls for a key whose
    record is connected leave the state one call leaves. *)
Theorem subscribe_idempotent
    (cb_throws : Callback → Data → bool) (l : list Action) (c : ConnId)
    (conn : SocketConnection) (event : string) (cb : Callback) :
  heap (run cb_throws l empty_manager) !! c = Some conn →
  subscribe_on event cb (subscribe_on event cb conn)
  = subscribe_on event cb conn
  ∧ (∃ s, listeners (subscribe_on event cb conn) !! event = Some s
          ∧ length (filter (λ x, x = cb) s) = 1%nat
          ∧ wire_listeners event (subscribe_on event cb conn) = 1%nat)
  ∧ ∀ url namespace options,
      existing_connected (getConnectionKey url namespace)
        (run cb_throws l empty_manager) = Some c →
      subscribe url namespace event cb options
        (subscribe url namespace event cb options
           (run cb_throws l empty_manager)).1
      = subscribe url namespace event cb options
          (run cb_throws l empty_manager).
Proof.
  intros Hc. pose proof (reachable_registry_ok _ _ _ _ Hc) as Hok.
  destruct (subscribe_idempotent_on_record event cb conn)
    as (Hidem & Honce & Hfacade).
  split; [done|]. split; [by apply Honce|].
  intros url namespace options He. by apply (Hfacade _ _ _ _ c).
Qed.

Lemma subscribe_idempotent_witness :
  (∃ conn,
     heap (run never_throws example_run_connected empty_manager) !! 0%nat
     = Some conn
     ∧ subscribe_on "x" 7%nat (subscribe_on "x" 7%nat conn)
       = subscribe_on "x" 7%nat conn
     ∧ ∃ s, listeners (subscribe_on "x" 7%nat conn) !! "x" = Some s
            ∧ length (filter (λ x, x = 7%nat) s) = 1%nat
            ∧ wire_listeners "x" (subscribe_on "x" 7%nat conn) = 1%nat)
  ∧ subscribe "http://h:3000" "/" "x" 7%nat None
      (subscribe "http://h:3000" "/" "x" 7%nat None
         (run never_throws example_run_connected empty_manager)).1
    = subscribe "http://h:3000" "/" "x" 7%nat None
        (run never_throws example_run_connected empty_manager).
Proof.
  eassert (Hc : heap (run never_throws example_run_connected empty_manager)
                  !! 0%nat = Some _) by (vm_compute; reflexivity).
  destruct (subscribe_idempotent never_throws example_run_connected 0%nat _
              "x" 7%nat Hc) as (Hidem & Honce & Hfacade).
  split; [eexists; split; [exact Hc|]; split; [exact Hidem|exact Honce]|].
  apply Hfacade. vm_compute. reflexivity.
Defined.



(** *** Delivery on every event *)

Lemma listeners_update_conn c f m c' :
  (∀ conn, listeners (f conn) = listeners conn) →
  listeners <$> heap (update_conn c f m) !! c' = listeners <$> heap m !! c'.
Proof.
  intros Hf. destruct (decide (c = c')) as [<-|Hne].
  - rewrite heap_update_conn. destruct (heap m !! c); simpl; [|done].
    by rewrite Hf.
  - by rewrite heap_update_conn_ne.
Qed.

Lemma listeners_on_connect_error c m c' :
  listeners <$> heap (on_connect_error c m) !! c'
  = listeners <$> heap m !! c'.
Proof.
  unfold on_connect_error.
  destruct (heap _ !! c) as [conn|];
    [|by apply listeners_update_conn].
  destruct (_ >=? _); [|by apply listeners_update_conn].
  change (heap (pool_delete ?k ?mm)) with (heap mm).
  rewrite listeners_update_conn by done. by apply listeners_update_conn.
Qed.

(** No listener writes the callback sets. *)
Lemma listeners_handle cb_throws q h c data m c' :
  listeners <$> heap (handle cb_throws q h c data m).1.1 !! c'
  = listeners <$> heap m !! c'.
Proof.
  destruct h as [| | |event|w|w]; simpl.
  - by apply listeners_update_conn.
  - by apply listeners_update_conn.
  - apply listeners_on_connect_error.
  - destruct (heap m !! c) as [conn|]; [|done].
    destruct (listeners conn !! event) as [s|]; [|done].
    by destruct (forEach_listener cb_throws s data).
  - by apply listeners_update_conn.
  - by apply listeners_update_conn.
Qed.

Lemma delivered_handle cb_throws q h c data m :
  (∀ x, h ≠ FanOut x) →
  delivered (handle cb_throws q h c data m).1.1 = delivered m.
Proof.
  intros Hh. destruct h as [| | |event|w|w]; simpl; try done.
  - unfold on_connect_error. destruct (heap _ !! c); [|done].
    by destruct (_ >=? _).
  - by destruct (Hh event).
Qed.


(** The listeners of [event] on a record whose set for [event] is [s]:
    the wire listener among them runs the [forEach] over [s]; the others
    deliver nothing and do not throw. *)
Lemma handle_all_deliveries cb_throws event s c data hs :
  (∀ h x, h ∈ hs → h = FanOut x → x = event) →
  ∀ q m,
    (∃ conn, heap m !! c = Some conn ∧ listeners conn !! event = Some s) →
    (length (filter (λ h, h = FanOut event) hs) = 0%nat →
     delivered (handle_all cb_throws q hs c data m).1.1 = delivered m
     ∧ (handle_all cb_throws q hs c data m).2 = false)
    ∧ (length (filter (λ h, h = FanOut event) hs) = 1%nat →
       delivered (handle_all cb_throws q hs c data m).1.1
       = delivered m ++ (forEach_listener cb_throws s data).1
       ∧ (handle_all cb_throws q hs c data m).2
         = (forEach_listener cb_throws s data).2).
Proof.
  induction hs as [|h hs IH]; intros Hfan q m (conn & Hc & Hs).
  { split; [done|discriminate]. }
  assert (Hfan' : ∀ h x, h ∈ hs → h = FanOut x → x = event).
  { intros h' x Hin. apply Hfan. by right. }
  destruct (decide (h = FanOut event)) as [->|Hne].
  - rewrite filter_cons_True by done. split; [discriminate|].
    intros [= Hcount]. cbn [handle_all handle]. rewrite Hc, Hs.
    destruct (forEach_listener cb_throws s data) as [log threw].
    destruct threw; [done|].
    destruct (IH Hfan' q (with_delivered (λ l, l ++ log) m)) as [Hzero _];
      [by exists conn|].
    destruct (Hzero Hcount) as [Hd Ht]. by rewrite Hd, Ht.
  - rewrite filter_cons_False by done.
    assert (Hno : ∀ x, h ≠ FanOut x).
    { intros x ->. apply Hne. f_equal. apply (Hfan (FanOut x)); [by left|done]. }
    cbn [handle_all].
    pose proof (handle_no_throw cb_throws q h c data m Hno) as Hthrew.
    pose proof (delivered_handle cb_throws q h c data m Hno) as Hd.
    pose proof (listeners_handle cb_throws q h c data m c) as Hl.
    destruct (handle cb_throws q h c data m) as [[m' q'] threw];
      simpl in *. subst threw. rewrite <- Hd.
    apply IH; [done|]. rewrite Hc in Hl. simpl in Hl.
    destruct (heap m' !! c) as [conn'|]; [|done].
    exists conn'. split; [done|]. injection Hl as ->. done.
Qed.




(** * Further properties of the manager *)

(** ** [unsubscribe] *)

Lemma forEach_listener_sub cb_throws s data x d :
  (x, d) ∈ (forEach_listener cb_throws s data).1 → x ∈ s ∧ d = data.
Proof.
  induction s as [|y s IH]; simpl.
  - by intros ?%elem_of_nil.
  - destruct (cb_throws y data).
    + intros [= -> ->]%list_elem_of_singleton. split; [left|done].
    + destruct (forEach_listener cb_throws s data) as [log threw]; simpl in *.
      intros [[= -> ->]|Hin]%elem_of_cons; [split; [left|done]|].
      destruct (IH Hin). split; [by right|done].
Qed.

(** X3. [unsubscribe] of one callback of an event that has others keeps
    the entry, without that callback and with the others in their order,
    and keeps the single wire listener; the socket is not touched.  A
    later message on the event goes through the remaining callbacks only:
    the removed callback is not invoked. *)
Theorem unsubscribe_one_keeps_the_others
    (cb_throws : Callback → Data → bool) (url namespace event : string)
    (cb : Callback) (options : option SocketOptions) (m : SocketManager)
    (c : ConnId) (conn : SocketConnection) (s : list Callback)
    (data : Data) :
  connections m !! getConnectionKey url namespace = Some c →
  heap m !! c = Some conn → registry_ok conn → ¬ lifecycle_event event →
  listeners conn !! event = Some s → (∃ cb', cb' ∈ s ∧ cb' ≠ cb) →
  let m' := unsubscribe url namespace event (Some cb) options m in
  heap m' !! c
  = Some (with_listeners (insert event (set_delete cb s)) conn)
  ∧ wire_listeners event <$> heap m' !! c = Some 1%nat
  ∧ receive cb_throws c event data m'
    = (with_delivered
         (λ l, l ++ (forEach_listener cb_throws (set_delete cb s) data).1) m',
       (forEach_listener cb_throws (set_delete cb s) data).2)
  ∧ ∀ d, (cb, d) ∉ new_deliveries m' (receive cb_throws c event data m').1.
Proof.
  intros Hkey Hconn Hok Hev Hs (cb' & Hin & Hne) m'.
  assert (Hleft : set_delete cb s ≠ []).
  { intros Hnil. assert (Hcb' : cb' ∈ set_delete cb s)
      by (apply list_elem_of_filter; done).
    rewrite Hnil in Hcb'. by apply elem_of_nil in Hcb'. }
  assert (Hun : unsubscribe_on event (Some cb) conn
                = with_listeners (insert event (set_delete cb s)) conn).
  { unfold unsubscribe_on. rewrite Hs. case_decide as Hlen; [|done].
    by apply nil_length_inv in Hlen. }
  assert (Hm' : heap m' !! c
                = Some (with_listeners (insert event (set_delete cb s)) conn)).
  { unfold m', unsubscribe. rewrite Hkey, heap_update_conn, Hconn, <- Hun.
    reflexivity. }
  assert (Hwire : wire_listeners event conn = 1%nat).
  { destruct Hok as [_ Hreg]. specialize (Hreg event). rewrite Hs in Hreg.
    tauto. }
  assert (Hrecv : receive cb_throws c event data m'
    = (with_delivered
         (λ l, l ++ (forEach_listener cb_throws (set_delete cb s) data).1) m',
       (forEach_listener cb_throws (set_delete cb s) data).2)).
  { apply (receive_ordinary cb_throws c
             (with_listeners (insert event (set_delete cb s)) conn));
      [done| |done|simpl; apply lookup_insert_eq].
    rewrite <- Hun. by apply registry_ok_unsubscribe_on. }
  split; [done|].
  split; [rewrite Hm'; simpl; by rewrite wire_listeners_with_listeners, Hwire|].
  split; [done|].
  intros d. rewrite Hrecv. simpl. rewrite new_deliveries_app.
  intros [Hcb _]%forEach_listener_sub.
  apply list_elem_of_filter in Hcb as [Hcb _]. by apply Hcb.
Qed.

Lemma unsubscribe_one_keeps_the_others_witness :
  (listeners <$> heap
     (unsubscribe "http://h:3000" "/" "x" (@Some Callback 8%nat) None
        example_three_subscribers) !! 0%nat)
  = Some {[ "x" := [7%nat; 9%nat] ]}
  ∧ new_deliveries
      (unsubscribe "http://h:3000" "/" "x" (@Some Callback 8%nat) None
         example_three_subscribers)
      (receive never_throws 0%nat "x" "hello"
         (unsubscribe "http://h:3000" "/" "x" (@Some Callback 8%nat) None
            example_three_subscribers)).1
    = [(7%nat, "hello"); (9%nat, "hello")].
Proof.
  assert (Hkey : connections example_three_subscribers
                   !! getConnectionKey "http://h:3000" "/" = Some 0%nat)
    by (vm_compute; reflexivity).
  eassert (Hconn : heap example_three_subscribers !! 0%nat = Some _)
    by (vm_compute; reflexivity).
  match type of Hconn with
  | _ = Some ?conn =>
      assert (Hok : registry_ok conn)
        by (apply (reachable_registry_ok never_throws example_run 0%nat);
            vm_compute; reflexivity);
      assert (Hs : listeners conn !! "x" = Some [7%nat; 8%nat; 9%nat])
        by (vm_compute; reflexivity)
  end.
  assert (Hev : ¬ lifecycle_event "x").
  { unfold lifecycle_event. intros H.
    repeat (apply elem_of_cons in H as [H|H]; [discriminate H|]).
    by apply elem_of_nil in H. }
  destruct (unsubscribe_one_keeps_the_others never_throws "http://h:3000" "/"
              "x" 8%nat None example_three_subscribers 0%nat _
              [7%nat; 8%nat; 9%nat] "hello" Hkey Hconn Hok Hev Hs)
    as (Hrec & _ & Hrecv & _).
  { exists 7%nat. split; [left|discriminate]. }
  split.
  - rewrite Hrec. vm_compute. reflexivity.
  - rewrite Hrecv. simpl. rewrite new_deliveries_app. vm_compute. reflexivity.
Defined.

Lemma filter_all {A} (P : A → Prop) `{∀ x, Decision (P x)} (l : list A) :
  (∀ x, x ∈ l → P x) → filter P l = l.
Proof.
  induction l as [|a l IH]; intros Hall; [done|].
  rewrite filter_cons_True by (apply Hall; left).
  f_equal. apply IH. intros x Hx. apply Hall. by right.
Qed.

Lemma no_listener_of_unsubscribed event conn :
  registry_ok conn → ¬ lifecycle_event event →
  listeners conn !! event = None →
  ∀ eh, eh ∈ sock_handlers (socket conn) → eh.1 ≠ event.
Proof.
  intros [Hev Hreg] Hlife Hnone [ev h] Hin Heq. simpl in Heq. subst ev.
  specialize (Hreg event). rewrite Hnone in Hreg.
  assert (Hh : h = FanOut event).
  { pose proof (Hev _ _ Hin) as Hhe.
    destruct h; simpl in Hhe; subst event; try done;
      destruct Hlife; unfold lifecycle_event; repeat constructor. }
  subst h. unfold wire_listeners in Hreg.
  apply nil_length_inv in Hreg.
  assert (Hx : FanOut event
               ∈ filter (λ h, h = FanOut event)
                   (handlers_of event (socket conn))).
  { apply list_elem_of_filter. split; [done|]. by apply elem_of_handlers_of. }
  rewrite Hreg in Hx. by apply elem_of_nil in Hx.
Qed.

Lemma unsubscribe_on_subscribe_on event cb callback conn :
  registry_ok conn → ¬ lifecycle_event event →
  listeners conn !! event = None →
  callback = None ∨ callback = Some cb →
  unsubscribe_on event callback (subscribe_on event cb conn) = conn.
Proof.
  intros Hok Hlife Hnone Hcb.
  rewrite subscribe_on_None by done.
  assert (Hrem : with_socket (socket_off event)
                   (with_listeners (delete event)
                      (with_listeners (insert event [cb])
                         (with_socket (socket_on event (FanOut event)) conn)))
                 = conn).
  { pose proof (no_listener_of_unsubscribed event conn Hok Hlife Hnone) as Hno.
    destruct conn as [[uri opts hs sc closed emitted] u n a co ls].
    unfold with_socket, with_listeners, socket_off, socket_on; simpl in *.
    rewrite delete_insert_id by done.
    rewrite filter_app, filter_cons_False, filter_nil, app_nil_r
      by (simpl; intros Hne; by apply Hne).
    by rewrite (filter_all (λ eh : string * Handler, eh.1 ≠ event)). }
  unfold unsubscribe_on. simpl. rewrite lookup_insert_eq.
  destruct Hcb as [->| ->]; [exact Hrem|].
  unfold set_delete. rewrite filter_cons_False, filter_nil by (intros Hne; by apply Hne).
  simpl. exact Hrem.
Qed.

(** X4. On a connected record with no subscription to an ordinary event,
    [subscribe] followed by [unsubscribe] of the same callback, or of the
    whole event, gives back the manager as it was: the entry and the wire
    listener that [subscribe] added are both gone, and nothing else
    moved. *)
Theorem subscribe_then_unsubscribe_restores
    (url namespace event : string) (cb : Callback)
    (callback : option Callback) (options options' : option SocketOptions)
    (m : SocketManager) (c : ConnId) (conn : SocketConnection) :
  existing_connected (getConnectionKey url namespace) m = Some c →
  heap m !! c = Some conn → registry_ok conn → ¬ lifecycle_event event →
  listeners conn !! event = None →
  callback = None ∨ callback = Some cb →
  unsubscribe url namespace event callback options'
    (subscribe url namespace event cb options m).1
  = m.
Proof.
  intros Hex Hconn Hok Hlife Hnone Hcb.
  pose proof Hex as [Hkey _]%existing_connected_Some.
  unfold subscribe, getOrCreateConnection. rewrite Hex. simpl.
  unfold unsubscribe. simpl. rewrite Hkey.
  rewrite update_conn_compose. apply update_conn_id.
  intros conn' Hconn'. rewrite Hconn in Hconn'. injection Hconn' as <-.
  simpl. by apply unsubscribe_on_subscribe_on.
Qed.

Lemma subscribe_then_unsubscribe_restores_witness :
  unsubscribe "http://h:3000" "/" "x" None None
    (subscribe "http://h:3000" "/" "x" 7%nat None example_connected).1
  = example_connected.
Proof.
  assert (Hex : existing_connected (getConnectionKey "http://h:3000" "/")
                  example_connected = Some 0%nat)
    by (vm_compute; reflexivity).
  eassert (Hconn : heap example_connected !! 0%nat = Some _)
    by (vm_compute; reflexivity).
  match type of Hconn with
  | _ = Some ?conn =>
      assert (Hok : registry_ok conn)
        by (apply (reachable_registry_ok never_throws example_run_connected
                     0%nat);
            vm_compute; reflexivity);
      assert (Hnone : listeners conn !! "x" = None)
        by (vm_compute; reflexivity)
  end.
  assert (Hev : ¬ lifecycle_event "x").
  { unfold lifecycle_event. intros H.
    repeat (apply elem_of_cons in H as [H|H]; [discriminate H|]).
    by apply elem_of_nil in H. }
  exact (subscribe_then_unsubscribe_restores "http://h:3000" "/" "x" 7%nat
           None None None example_connected 0%nat _ Hex Hconn Hok Hev Hnone
           (or_introl eq_refl)).
Defined.

(** X5. [unsubscribe] without a callback, on an event that has an entry,
    calls [socket.off(event)] with the event name only: every listener of
    that name leaves the socket, the manager's own 'connect',
    'disconnect' and 'connect_error' listeners included when the event
    bears one of these names.  A later event of that name on the record
    runs nothing and changes nothing. *)
Theorem unsubscribe_silences_event
    (cb_throws : Callback → Data → bool) (url namespace event : string)
    (options : option SocketOptions) (m : SocketManager) (c : ConnId)
    (conn : SocketConnection) (s : list Callback) (data : Data) :
  connections m !! getConnectionKey url namespace = Some c →
  heap m !! c = Some conn → listeners conn !! event = Some s →
  let m' := unsubscribe url namespace event None options m in
  (handlers_of event ∘ socket) <$> heap m' !! c = Some []
  ∧ receive cb_throws c event data m' = (m', false).
Proof.
  intros Hkey Hconn Hs m'.
  assert (Hm' : heap m' !! c
                = Some (with_socket (socket_off event)
                          (with_listeners (delete event) conn))).
  { unfold m', unsubscribe. rewrite Hkey, heap_update_conn, Hconn. simpl.
    unfold unsubscribe_on. by rewrite Hs. }
  assert (Hnil : handlers_of event
                   (socket (with_socket (socket_off event)
                              (with_listeners (delete event) conn))) = []).
  { simpl. rewrite handlers_of_off. by rewrite decide_True. }
  split.
  - rewrite Hm'. simpl in *. by rewrite Hnil.
  - unfold receive, emit. rewrite Hm', Hnil. reflexivity.
Qed.

Lemma unsubscribe_silences_event_witness :
  let m :=
    (subscribe "http://h:3000" "/" "connect_error" 7%nat None
       example_connected).1 in
  let m' := unsubscribe "http://h:3000" "/" "connect_error" None None m in
  reconnectAttempts <$>
    heap (connect_errors never_throws 3 0%nat "xhr poll error" m) !! 0%nat
  = Some 3%nat
  ∧ connect_errors never_throws 3 0%nat "xhr poll error" m' = m'.
Proof.
  intros m m'.
  assert (Hkey : connections m !! getConnectionKey "http://h:3000" "/"
                 = Some 0%nat) by (vm_compute; reflexivity).
  eassert (Hconn : heap m !! 0%nat = Some _) by (vm_compute; reflexivity).
  match type of Hconn with
  | _ = Some ?conn =>
      assert (Hs : listeners conn !! "connect_error" = Some [7%nat])
        by (vm_compute; reflexivity)
  end.
  destruct (unsubscribe_silences_event never_throws "http://h:3000" "/"
              "connect_error" None m 0%nat _ [7%nat] "xhr poll error"
              Hkey Hconn Hs) as [_ Hrecv].
  fold m' in Hrecv. split; [vm_compute; reflexivity|].
  clearbody m'. cbn [connect_errors].
  repeat (rewrite Hrecv; cbn [fst]). reflexivity.
Defined.

(** ** The connection timeout *)

Lemma reject_frame w e m :
  connections (reject w e m) = connections m
  ∧ heap (reject w e m) = heap m
  ∧ timers (reject w e m) = timers m
  ∧ now (reject w e m) = now m
  ∧ delivered (reject w e m) = delivered m.
Proof. unfold reject. by destruct (pending w m). Qed.

(** X6. When the timer of a pending [connect] fires, the callback calls
    [socket.off('connect')] and [socket.off('connect_error')] with the
    event name only, so the listeners of [setupConnectionHandlers] leave
    the socket with those of the promise.  The record stays in the pool
    and its socket is not closed, but from then on a 'connect' or
    'connect_error' event on it changes nothing: its connected flag and
    its attempt counter can no longer move. *)
Theorem timeout_detaches_record
    (cb_throws : Callback → Data → bool) (w : WaitId) (x : Wait)
    (m : SocketManager) (data : Data) :
  waits m !! w = Some x →
  let m' := on_timeout w m in
  receive cb_throws (w_conn x) "connect" data m' = (m', false)
  ∧ receive cb_throws (w_conn x) "connect_error" data m' = (m', false)
  ∧ connections m' = connections m
  ∧ is_connected (w_conn x) m' = is_connected (w_conn x) m
  ∧ (sock_closed ∘ socket) <$> heap m' !! w_conn x
    = (sock_closed ∘ socket) <$> heap m !! w_conn x.
Proof.
  intros Hw m'.
  assert (Hheap : heap m' !! w_conn x
                  = with_socket (λ s, socket_off "connect_error"
                                        (socket_off "connect" s))
                      <$> heap m !! w_conn x).
  { unfold m', on_timeout. rewrite Hw.
    destruct (reject_frame w (ConnectionTimeout (target_of m (w_conn x)))
                (update_conn (w_conn x)
                   (with_socket (λ s, socket_off "connect_error"
                                        (socket_off "connect" s))) m))
      as (_ & -> & _).
    apply heap_update_conn. }
  assert (Hcs : connections m' = connections m).
  { unfold m', on_timeout. rewrite Hw.
    by destruct (reject_frame w (ConnectionTimeout (target_of m (w_conn x)))
                   (update_conn (w_conn x)
                      (with_socket (λ s, socket_off "connect_error"
                                           (socket_off "connect" s))) m))
      as (-> & _). }
  unfold receive, emit, is_connected. rewrite Hheap.
  destruct (heap m !! w_conn x) as [conn|]; simpl; [|done].
  rewrite !handlers_of_off. simpl. done.
Qed.

Lemma timeout_detaches_record_witness :
  let m' := on_timeout 0%nat example_connecting in
  connections m' !! "http://h:3000/" = Some 0%nat
  ∧ receive never_throws 0%nat "connect" "" m' = (m', false)
  ∧ is_connected 0%nat m' = false.
Proof.
  intros m'.
  eassert (Hw : waits example_connecting !! 0%nat = Some _)
    by (vm_compute; reflexivity).
  destruct (timeout_detaches_record never_throws 0%nat _ example_connecting
              "" Hw) as (Hrecv & _ & _ & _ & _).
  split; [vm_compute; reflexivity|]. split; [exact Hrecv|].
  vm_compute. reflexivity.
Defined.

(** ** The handshake of a pending call *)

Lemma filter_timer_insert_out (P : Timer → Prop) `{∀ x, Decision (P x)} x l :
  ¬ P x → filter P (timer_insert x l) = filter P l.
Proof.
  intros Hx. induction l as [|y l IH]; simpl.
  - by rewrite filter_cons_False.
  - destruct (t_due x <? t_due y).
    + by rewrite filter_cons_False.
    + rewrite !(filter_cons P y). by rewrite IH.
Qed.

Lemma timers_bounded e m t :
  manager_ok e m → t ∈ timers m → (t_wait t < length (waits m))%nat.
Proof.
  intros Hok Ht. destruct (ok_timers e m Hok t Ht) as (x & _ & Hx & _).
  by apply lookup_lt_Some in Hx.
Qed.

Lemma clearTimeout_connecting e k url namespace options m :
  manager_ok e m →
  timers (clearTimeout (length (waits m))
            (connecting k url namespace options m)) = timers m.
Proof.
  intros Hok. simpl. rewrite filter_timer_insert_out by (simpl; intros Hne; by apply Hne).
  apply filter_all. intros t Ht Heq.
  apply (timers_bounded e m t Hok) in Ht. lia.
Qed.

Lemma connect_handlers_connecting w url namespace options :
  handlers_of "connect"
    (socket (with_wait_handlers w (fresh_connection url namespace options)))
  = [OnConnect; WaitConnect w]
  ∧ handlers_of "connect_error"
      (socket (with_wait_handlers w (fresh_connection url namespace options)))
    = [OnConnectError; WaitConnectError w].
Proof. split; reflexivity. Qed.

Lemma heap_connecting k url namespace options m :
  heap (connecting k url namespace options m) !! length (heap m)
  = Some (with_wait_handlers (length (waits m))
            (fresh_connection url namespace options))
  ∧ waits (connecting k url namespace options m) !! length (waits m)
    = Some {| w_conn := length (heap m); w_cont := k; w_outcome := None |}.
Proof.
  split; simpl; by rewrite lookup_app_r, Nat.sub_diag by lia.
Qed.

Lemma settle_later_nil w r : settle_later w r [] = [(w, r)].
Proof. reflexivity. Qed.

(** The listeners of 'connect' on the record of a pending call: the flag
    is set, the promise's listener leaves the socket, the timer is
    cleared and the promise is settled. *)
Lemma emit_connect_pending cb_throws q m c w conn data :
  heap m !! c = Some conn →
  handlers_of "connect" (socket conn) = [OnConnect; WaitConnect w] →
  emit cb_throws q c "connect" data m
  = (clearTimeout w
       (update_conn c (with_socket (socket_off_one "connect" (WaitConnect w)))
          (update_conn c (with_state 0 true) m)),
     settle_later w None q, false).
Proof. intros Hc Hhs. unfold emit. by rewrite Hc, Hhs. Qed.

Lemma resolve_pending w c k m :
  waits m !! w = Some {| w_conn := c; w_cont := k; w_outcome := None |} →
  resolve w m = settle w (resume k c m).2 (resume k c m).1.
Proof.
  intros Hw. unfold resolve, pending. rewrite Hw. simpl.
  by destruct (resume k c m).
Qed.

(** The same event alone in its turn: the code that awaits the promise
    resumes on the state the listeners left. *)
Lemma receive_connect_pending cb_throws m c w k conn data :
  heap m !! c = Some conn →
  handlers_of "connect" (socket conn) = [OnConnect; WaitConnect w] →
  waits m !! w = Some {| w_conn := c; w_cont := k; w_outcome := None |} →
  let m2 :=
    clearTimeout w
      (update_conn c (with_socket (socket_off_one "connect" (WaitConnect w)))
         (update_conn c (with_state 0 true) m)) in
  receive cb_throws c "connect" data m
  = (settle w (resume k c m2).2 (resume k c m2).1, false)
  ∧ heap m2 !! c
    = Some (with_socket (socket_off_one "connect" (WaitConnect w))
              (with_state 0 true conn))
  ∧ connections m2 = connections m
  ∧ waits m2 = waits m.
Proof.
  intros Hc Hhs Hw m2. split; [|split; [|done]].
  - unfold receive. rewrite (emit_connect_pending _ _ _ _ w conn) by done.
    rewrite settle_later_nil. fold m2.
    change (run_microtasks [(w, None)] m2) with (resolve w m2).
    by rewrite (resolve_pending w c k).
  - change (heap m2)
      with (heap (update_conn c
                    (with_socket (socket_off_one "connect" (WaitConnect w)))
                    (update_conn c (with_state 0 true) m))).
    rewrite !heap_update_conn, Hc. reflexivity.
Qed.

Lemma receive_connect_connecting cb_throws k url namespace options m data :
  let c := length (heap m) in
  let w := length (waits m) in
  let m2 :=
    clearTimeout w
      (update_conn c (with_socket (socket_off_one "connect" (WaitConnect w)))
         (update_conn c (with_state 0 true)
            (connecting k url namespace options m))) in
  receive cb_throws c "connect" data (connecting k url namespace options m)
  = (settle w (resume k c m2).2 (resume k c m2).1, false)
  ∧ heap m2 !! c = Some (handshaken w url namespace options)
  ∧ connections m2
    = <[getConnectionKey url namespace := c]> (connections m)
  ∧ waits m2 = waits (connecting k url namespace options m).
Proof.
  intros c w m2.
  destruct (heap_connecting k url namespace options m) as [Hheap Hwait].
  destruct (connect_handlers_connecting w url namespace options) as [Hhs _].
  fold c w in Hheap, Hwait.
  destruct (receive_connect_pending cb_throws _ c w k _ data Hheap Hhs Hwait)
    as (Hrecv & Hrec & _ & _).
  done.
Qed.

Lemma getOrCreate_fresh k u ns options m :
  existing_connected (getConnectionKey u ns) m = None →
  getOrCreateConnection k u ns options m
  = (connecting k u ns options m, Awaiting (length (waits m))).
Proof.
  intros Hex. unfold getOrCreateConnection. rewrite Hex.
  by apply connect_k_fresh.
Qed.

Lemma resume_frame k c m :
  (resume k c m).2 = (if is_connected c m then resumed k c
                      else match k with
                           | KPublish target _ _ =>
                               Rejected (SocketNotConnected target)
                           | _ => Resolved c
                           end)
  ∧ now (resume k c m).1 = now m
  ∧ delivered (resume k c m).1 = delivered m
  ∧ ∀ c', c' ≠ c → heap (resume k c m).1 !! c' = heap m !! c'.
Proof.
  destruct k as [|event callback|target event d].
  - simpl. by destruct (is_connected c m).
  - simpl. split; [by destruct (is_connected c m)|].
    split; [done|]. split; [done|].
    intros c' Hne. by apply list_lookup_alter_ne.
  - rewrite resume_publish. unfold resumed.
    destruct (is_connected c m); simpl; [|done].
    destruct (decide (event ∈ reserved_events)); simpl; [done|].
    split; [done|]. split; [done|]. split; [done|].
    intros c' Hne. by apply list_lookup_alter_ne.
Qed.

Lemma resume_record k c m conn :
  heap m !! c = Some conn → connected conn = true →
  heap (resume k c m).1 !! c = Some (resumed_record k conn).
Proof.
  intros Hc Hconn.
  assert (His : is_connected c m = true) by (unfold is_connected; by rewrite Hc).
  destruct k as [|event callback|target event d].
  - done.
  - simpl. by rewrite list_lookup_alter_eq, Hc.
  - rewrite resume_publish, His. unfold resumed_record.
    destruct (decide (event ∈ reserved_events)); simpl; [done|].
    by rewrite list_lookup_alter_eq, Hc.
Qed.

(** What the handshake of a pending call does, whatever code awaits it. *)
Lemma handshake_resumes cb_throws k u ns options m data :
  manager_ok None m →
  existing_connected (getConnectionKey u ns) m = None →
  let call := getOrCreateConnection k u ns options m in
  let c := length (heap m) in
  let m' := (receive cb_throws c "connect" data call.1).1 in
  outcome_of call.2 call.1 = None
  ∧ heap call.1 !! c
    = Some (with_wait_handlers (length (waits m))
              (fresh_connection u ns options))
  ∧ outcome_of call.2 m' = Some (resumed k c)
  ∧ connections m' !! getConnectionKey u ns = Some c
  ∧ timers m' = timers m
  ∧ (∀ c' conn', heap m !! c' = Some conn' → heap m' !! c' = Some conn')
  ∧ heap m' !! c
    = Some (resumed_record k (handshaken (length (waits m)) u ns options)).
Proof.
  intros Hok Hex call c m'.
  assert (Hcall : call = (connecting k u ns options m,
                          Awaiting (length (waits m))))
    by (by apply getOrCreate_fresh).
  destruct (receive_connect_connecting cb_throws k u ns options m data)
    as (Hrecv & Hheap2 & Hcs2 & Hw2).
  destruct (heap_connecting k u ns options m) as [Hheap1 Hwait1].
  set (w := length (waits m)) in *.
  set (m2 := clearTimeout w
               (update_conn (length (heap m))
                  (with_socket (socket_off_one "connect" (WaitConnect w)))
                  (update_conn (length (heap m)) (with_state 0 true)
                     (connecting k u ns options m)))) in *.
  fold c in Hrecv, Hheap2, Hcs2, Hheap1, Hwait1, m2.
  assert (Hm' : m' = settle w (resume k c m2).2 (resume k c m2).1).
  { unfold m'. rewrite Hcall. cbn [fst]. by rewrite Hrecv. }
  assert (Hconn2 : is_connected c m2 = true).
  { unfold is_connected. by rewrite Hheap2. }
  destruct (resume_keeps_pool k c m2) as (Hrcs & _ & Hrw & Hrt).
  destruct (resume_frame k c m2) as (Hro & _ & _ & Hrh).
  rewrite Hconn2 in Hro.
  split; [rewrite Hcall; cbn [fst snd outcome_of]; by rewrite Hwait1|].
  split; [by rewrite Hcall|].
  split.
  { rewrite Hcall, Hm'. cbn [snd outcome_of]. rewrite waits_settle, Hrw, Hw2.
    rewrite Hwait1. simpl. rewrite decide_True by done. simpl.
    by rewrite Hro. }
  split.
  { rewrite Hm'. cbn [settle with_waits connections]. rewrite Hrcs, Hcs2.
    apply lookup_insert_eq. }
  split.
  { rewrite Hm'. cbn [settle with_waits timers]. rewrite Hrt.
    by apply (clearTimeout_connecting None). }
  split.
  { intros c' conn' Hc'. rewrite Hm'. cbn [settle with_waits heap].
    assert (Hlt : (c' < c)%nat) by (by apply lookup_lt_Some in Hc').
    rewrite Hrh by lia.
    change (heap m2)
      with (heap (update_conn c
                    (with_socket (socket_off_one "connect" (WaitConnect w)))
                    (update_conn c (with_state 0 true)
                       (connecting k u ns options m)))).
    rewrite !heap_update_conn_ne by lia. simpl.
    by apply lookup_app_l_Some. }
  rewrite Hm'. cbn [settle with_waits heap].
  by apply resume_record.
Qed.

Lemma registry_ok_handshaken w u ns options :
  registry_ok (handshaken w u ns options).
Proof.
  apply registry_ok_off_one; [done|].
  exact (registry_ok_wait_handlers w _ (registry_ok_fresh u ns options)).
Qed.

Lemma sock_handlers_handshaken w u ns options :
  sock_handlers (socket (handshaken w u ns options))
  = [("connect", OnConnect); ("disconnect", OnDisconnect);
     ("connect_error", OnConnectError);
     ("connect_error", WaitConnectError w)].
Proof.
  unfold handshaken, with_wait_handlers, fresh_connection,
    setupConnectionHandlers.
  cbn [socket with_socket with_state socket_off_one sock_handlers socket_on
       io app remove_first].
  rewrite !decide_False by discriminate. by rewrite decide_True.
Qed.

(** X7. A [connect] for a key with no connected record stays pending
    until the transport's 'connect' event on the new record.  That event
    sets the connected flag, resets the attempt counter, clears the timer
    and resolves the call with the new record, which is the one the pool
    holds under the key; the promise's 'connect' listener has removed
    itself, and no other record moved. *)
Theorem connect_resolves_at_handshake
    (cb_throws : Callback → Data → bool) (u ns : string)
    (options : option SocketOptions) (m : SocketManager) (data : Data) :
  manager_ok None m →
  existing_connected (getConnectionKey u ns) m = None →
  let call := connect u ns options m in
  let c := length (heap m) in
  let m' := (receive cb_throws c "connect" data call.1).1 in
  outcome_of call.2 call.1 = None
  ∧ outcome_of call.2 m' = Some (Resolved c)
  ∧ connections m' !! getConnectionKey u ns = Some c
  ∧ timers m' = timers m
  ∧ (∀ c' conn', heap m !! c' = Some conn' → heap m' !! c' = Some conn')
  ∧ ∃ conn,
      heap m' !! c = Some conn
      ∧ connected conn = true ∧ reconnectAttempts conn = 0%nat
      ∧ listeners conn = ∅ ∧ sock_closed (socket conn) = false
      ∧ handlers_of "connect" (socket conn) = [OnConnect]
      ∧ handlers_of "connect_error" (socket conn)
        = [OnConnectError; WaitConnectError (length (waits m))].
Proof.
  intros Hok Hex call c m'.
  assert (Hcall : call = getOrCreateConnection KConnect u ns options m).
  { unfold call, getOrCreateConnection. by rewrite Hex. }
  destruct (handshake_resumes cb_throws KConnect u ns options m data Hok Hex)
    as (Hbefore & _ & Hafter & Hkey & Ht & Hothers & Hrec).
  rewrite <- Hcall in Hbefore, Hafter, Hkey, Ht, Hothers, Hrec.
  do 5 (split; [done|]).
  eexists. split; [exact Hrec|]. do 4 (split; [reflexivity|]).
  unfold handlers_of. cbn [resumed_record].
  rewrite sock_handlers_handshaken. split; reflexivity.
Qed.

(** *** The handshake within a turn *)

Lemma socket_sees_ordinary event s :
  event ≠ "connect" → event ≠ "disconnect" → socket_sees event s = s.
Proof.
  intros H1 H2. destruct s. unfold socket_sees; simpl.
  by rewrite !decide_False by done.
Qed.

Lemma update_conn_sees_ordinary c event m :
  event ≠ "connect" → event ≠ "disconnect" →
  update_conn c (with_socket (socket_sees event)) m = m.
Proof.
  intros H1 H2. apply update_conn_id. intros conn _.
  destruct conn as [s u n a co ls]. unfold with_socket; simpl.
  by rewrite socket_sees_ordinary.
Qed.

Lemma lifecycle_event_names event :
  ¬ lifecycle_event event →
  event ≠ "connect" ∧ event ≠ "disconnect" ∧ event ≠ "connect_error".
Proof.
  unfold lifecycle_event. rewrite !elem_of_cons, elem_of_nil.
  intros Hno. repeat split; intros ->; apply Hno; tauto.
Qed.

(** An event that is neither 'connect' nor 'disconnect', alone in its
    turn. *)
Lemma turn_single_ordinary cb_throws c event data m :
  event ≠ "connect" → event ≠ "disconnect" → raises c event m = true →
  turn cb_throws [(c, event, data)] m = (receive cb_throws c event data m).1.
Proof.
  intros H1 H2 Hr. unfold turn, receive. cbn [dispatch]. rewrite Hr.
  rewrite update_conn_sees_ordinary by done.
  by destruct (emit cb_throws [] c event data m) as [[m' q] []].
Qed.

(** An event nothing listens to, inside a turn. *)
Lemma dispatch_silent cb_throws c conn event data q m :
  event ≠ "connect" → event ≠ "disconnect" →
  heap m !! c = Some conn → handlers_of event (socket conn) = [] →
  dispatch cb_throws [(c, event, data)] q m = (m, q, false).
Proof.
  intros H1 H2 Hc Hnil. cbn [dispatch].
  destruct (raises c event m); [|done].
  rewrite update_conn_sees_ordinary by done.
  unfold emit. by rewrite Hc, Hnil.
Qed.

Lemma dispatch_cons cb_throws c event data rest q m :
  raises c event m = true →
  (emit cb_throws q c event data
     (update_conn c (with_socket (socket_sees event)) m)).2 = false →
  dispatch cb_throws ((c, event, data) :: rest) q m
  = dispatch cb_throws rest
      (emit cb_throws q c event data
         (update_conn c (with_socket (socket_sees event)) m)).1.2
      (emit cb_throws q c event data
         (update_conn c (with_socket (socket_sees event)) m)).1.1.
Proof.
  intros Hr Hno. cbn [dispatch]. rewrite Hr.
  destruct (emit cb_throws q c event data
              (update_conn c (with_socket (socket_sees event)) m))
    as [[m' q'] threw]; simpl in *. by subst threw.
Qed.

(** The 'connect' event of a pending call, first in its turn. *)
Lemma handshake_dispatch cb_throws k u ns options m data rest :
  let m0 := connecting k u ns options m in
  let c := length (heap m) in
  let w := length (waits m) in
  let m2 :=
    clearTimeout w
      (update_conn c (with_socket (socket_off_one "connect" (WaitConnect w)))
         (update_conn c (with_state 0 true)
            (update_conn c (with_socket (socket_sees "connect")) m0))) in
  dispatch cb_throws ((c, "connect", data) :: rest) [] m0
  = dispatch cb_throws rest [(w, None)] m2
  ∧ heap m2 !! c
    = Some (with_socket (socket_sees "connect") (handshaken w u ns options))
  ∧ waits m2 = waits m0
  ∧ connections m2 = connections m0
  ∧ delivered m2 = delivered m
  ∧ ∀ c', c' ≠ c → heap m2 !! c' = heap m0 !! c'.
Proof.
  intros m0 c w m2.
  destruct (heap_connecting k u ns options m) as [Hheap Hwait].
  fold c w m0 in Hheap, Hwait.
  assert (Hs : heap (update_conn c (with_socket (socket_sees "connect")) m0)
                 !! c
               = Some (with_socket (socket_sees "connect")
                         (with_wait_handlers w
                            (fresh_connection u ns options))))
    by (by rewrite heap_update_conn, Hheap).
  assert (Hemit :
    emit cb_throws [] c "connect" data
      (update_conn c (with_socket (socket_sees "connect")) m0)
    = (m2, [(w, None)], false)).
  { by rewrite (emit_connect_pending _ _ _ _ w _ _ Hs). }
  split; [|split; [|split; [done|split; [done|split; [done|]]]]].
  - rewrite dispatch_cons.
    + by rewrite Hemit.
    + unfold raises. by rewrite Hheap.
    + by rewrite Hemit.
  - change (heap m2)
      with (heap (update_conn c
                    (with_socket (socket_off_one "connect" (WaitConnect w)))
                    (update_conn c (with_state 0 true)
                       (update_conn c (with_socket (socket_sees "connect"))
                          m0)))).
    rewrite !heap_update_conn, Hheap. reflexivity.
  - intros c' Hne.
    change (heap m2)
      with (heap (update_conn c
                    (with_socket (socket_off_one "connect" (WaitConnect w)))
                    (update_conn c (with_state 0 true)
                       (update_conn c (with_socket (socket_sees "connect"))
                          m0)))).
    by rewrite !heap_update_conn_ne.
Qed.

Lemma handlers_of_handshaken_ordinary w u ns options event :
  ¬ lifecycle_event event →
  handlers_of event
    (socket (with_socket (socket_sees "connect")
               (handshaken w u ns options))) = [].
Proof.
  intros (H1 & H2 & H3)%lifecycle_event_names. unfold handlers_of.
  change (sock_handlers
            (socket (with_socket (socket_sees "connect")
                       (handshaken w u ns options))))
    with (sock_handlers (socket (handshaken w u ns options))).
  rewrite sock_handlers_handshaken.
  rewrite !filter_cons_False, filter_nil by (simpl; congruence).
  reflexivity.
Qed.

(** What a turn that starts with the handshake of a pending call does,
    whatever code awaits it: the code resumes when the turn is over.  An
    event of the same turn that nothing listens to yet is lost. *)
Lemma handshake_turn cb_throws k u ns options m data :
  manager_ok None m →
  existing_connected (getConnectionKey u ns) m = None →
  let call := getOrCreateConnection k u ns options m in
  let c := length (heap m) in
  let m' := turn cb_throws [(c, "connect", data)] call.1 in
  outcome_of call.2 call.1 = None
  ∧ heap call.1 !! c
    = Some (with_wait_handlers (length (waits m))
              (fresh_connection u ns options))
  ∧ outcome_of call.2 m' = Some (resumed k c)
  ∧ connections m' !! getConnectionKey u ns = Some c
  ∧ timers m' = timers m
  ∧ delivered m' = delivered m
  ∧ (∀ c' conn', heap m !! c' = Some conn' → heap m' !! c' = Some conn')
  ∧ heap m' !! c
    = Some (resumed_record k
              (with_socket (socket_sees "connect")
                 (handshaken (length (waits m)) u ns options)))
  ∧ ∀ event d,
      ¬ lifecycle_event event →
      turn cb_throws [(c, "connect", data); (c, event, d)] call.1 = m'.
Proof.
  intros Hok Hex call c m'.
  assert (Hcall : call = (connecting k u ns options m,
                          Awaiting (length (waits m))))
    by (by apply getOrCreate_fresh).
  destruct (heap_connecting k u ns options m) as [Hheap1 Hwait1].
  assert (Hdis : ∀ rest,
            dispatch cb_throws ((c, "connect", data) :: rest) []
              (connecting k u ns options m)
            = dispatch cb_throws rest [(length (waits m), None)]
                (clearTimeout (length (waits m))
                   (update_conn c
                      (with_socket
                         (socket_off_one "connect"
                            (WaitConnect (length (waits m)))))
                      (update_conn c (with_state 0 true)
                         (update_conn c (with_socket (socket_sees "connect"))
                            (connecting k u ns options m)))))).
  { intros rest.
    destruct (handshake_dispatch cb_throws k u ns options m data rest)
      as (H & _). exact H. }
  destruct (handshake_dispatch cb_throws k u ns options m data [])
    as (_ & Hheap2 & Hw2 & Hcs2 & Hd2 & Hothers2).
  fold c in Hheap2, Hw2, Hcs2, Hd2, Hothers2, Hheap1, Hwait1.
  set (w := length (waits m)) in *.
  set (m0 := connecting k u ns options m) in *.
  set (m2 := clearTimeout w
               (update_conn c
                  (with_socket (socket_off_one "connect" (WaitConnect w)))
                  (update_conn c (with_state 0 true)
                     (update_conn c (with_socket (socket_sees "connect"))
                        m0)))) in *.
  assert (Hres : resolve w m2 = settle w (resume k c m2).2 (resume k c m2).1).
  { apply resolve_pending. by rewrite Hw2. }
  assert (Hm' : m' = settle w (resume k c m2).2 (resume k c m2).1).
  { unfold m'. rewrite Hcall. cbn [fst]. unfold turn. rewrite Hdis.
    cbn [dispatch]. exact Hres. }
  assert (Hconn2 : is_connected c m2 = true).
  { unfold is_connected. by rewrite Hheap2. }
  destruct (resume_keeps_pool k c m2) as (Hrcs & _ & Hrw & Hrt).
  destruct (resume_frame k c m2) as (Hro & _ & Hrd & Hrh).
  rewrite Hconn2 in Hro.
  split; [rewrite Hcall; cbn [fst snd outcome_of]; by rewrite Hwait1|].
  split; [by rewrite Hcall|].
  split.
  { rewrite Hcall, Hm'. cbn [snd outcome_of]. rewrite waits_settle, Hrw, Hw2.
    rewrite Hwait1. simpl. rewrite decide_True by done. simpl.
    by rewrite Hro. }
  split.
  { rewrite Hm'. cbn [settle with_waits connections]. rewrite Hrcs, Hcs2.
    apply lookup_insert_eq. }
  split.
  { rewrite Hm'. cbn [settle with_waits timers]. rewrite Hrt.
    by apply (clearTimeout_connecting None). }
  split.
  { rewrite Hm'. cbn [settle with_waits delivered]. by rewrite Hrd. }
  split.
  { intros c' conn' Hc'. rewrite Hm'. cbn [settle with_waits heap].
    assert (Hlt : (c' < c)%nat) by (by apply lookup_lt_Some in Hc').
    rewrite Hrh, Hothers2 by lia. simpl. by apply lookup_app_l_Some. }
  split.
  { rewrite Hm'. cbn [settle with_waits heap]. by apply resume_record. }
  intros event d Hlife.
  destruct (lifecycle_event_names event Hlife) as (H1 & H2 & _).
  rewrite Hm', Hcall. cbn [fst]. unfold turn. rewrite Hdis.
  rewrite (dispatch_silent cb_throws c _ event d _ m2 H1 H2 Hheap2)
    by (by apply handlers_of_handshaken_ordinary).
  exact Hres.
Qed.

(** A 'disconnect' in the turn of the handshake: the code that awaits the
    connection resumes on a record whose flag is cleared again. *)
Lemma handshake_cut cb_throws k u ns options m data reason :
  existing_connected (getConnectionKey u ns) m = None →
  let call := getOrCreateConnection k u ns options m in
  let c := length (heap m) in
  let w := length (waits m) in
  ∃ m3,
    turn cb_throws [(c, "connect", data); (c, "disconnect", reason)] call.1
    = settle w (resume k c m3).2 (resume k c m3).1
    ∧ heap m3 !! c
      = Some (with_state 0 false
                (with_socket (socket_sees "disconnect")
                   (with_socket (socket_sees "connect")
                      (handshaken w u ns options))))
    ∧ waits m3 = waits call.1
    ∧ is_connected c m3 = false.
Proof.
  intros Hex call c w.
  assert (Hcall : call = (connecting k u ns options m,
                          Awaiting (length (waits m))))
    by (by apply getOrCreate_fresh).
  destruct (handshake_dispatch cb_throws k u ns options m data
              [(c, "disconnect", reason)])
    as (Hdis & Hheap2 & Hw2 & _).
  fold c w in Hdis, Hheap2, Hw2.
  set (m0 := connecting k u ns options m) in *.
  set (m2 := clearTimeout w
               (update_conn c
                  (with_socket (socket_off_one "connect" (WaitConnect w)))
                  (update_conn c (with_state 0 true)
                     (update_conn c (with_socket (socket_sees "connect"))
                        m0)))) in *.
  set (m3 := update_conn c
               (λ conn, with_state (reconnectAttempts conn) false conn)
               (update_conn c (with_socket (socket_sees "disconnect")) m2)).
  assert (Hheap3 : heap m3 !! c
                   = Some (with_state 0 false
                             (with_socket (socket_sees "disconnect")
                                (with_socket (socket_sees "connect")
                                   (handshaken w u ns options))))).
  { unfold m3. rewrite !heap_update_conn, Hheap2. reflexivity. }
  assert (Hs : heap (update_conn c (with_socket (socket_sees "disconnect")) m2)
                 !! c
               = Some (with_socket (socket_sees "disconnect")
                         (with_socket (socket_sees "connect")
                            (handshaken w u ns options))))
    by (by rewrite heap_update_conn, Hheap2).
  assert (Hhs : handlers_of "disconnect"
                  (socket (with_socket (socket_sees "disconnect")
                             (with_socket (socket_sees "connect")
                                (handshaken w u ns options))))
                = [OnDisconnect]).
  { unfold handlers_of.
    change (sock_handlers
              (socket (with_socket (socket_sees "disconnect")
                         (with_socket (socket_sees "connect")
                            (handshaken w u ns options)))))
      with (sock_handlers (socket (handshaken w u ns options))).
    by rewrite sock_handlers_handshaken. }
  assert (Hemit : emit cb_throws [(w, None)] c "disconnect" reason
                    (update_conn c (with_socket (socket_sees "disconnect")) m2)
                  = (m3, [(w, None)], false)).
  { unfold emit. by rewrite Hs, Hhs. }
  exists m3. split; [|split; [exact Hheap3|split]].
  - rewrite Hcall. cbn [fst]. unfold turn. rewrite Hdis.
    rewrite dispatch_cons.
    + rewrite Hemit. cbn [dispatch fst snd].
      change (run_microtasks [(w, None)] m3) with (resolve w m3).
      apply resolve_pending.
      change (waits m3) with (waits m0).
      destruct (heap_connecting k u ns options m) as [_ Hwait].
      exact Hwait.
    + unfold raises. by rewrite Hheap2.
    + by rewrite Hemit.
  - by rewrite Hcall.
  - unfold is_connected. by rewrite Hheap3.
Qed.

(** X8. A [subscribe] for a key with no connected record registers
    nothing until the handshake: the new record has no entry while the
    call is pending.  The call resumes in the microtask that follows the
    turn of the 'connect' event: it then creates the entry with the
    callback and one wire listener, and resolves; a message on an ordinary
    event in a later turn reaches the callback.  A message raised in the
    same turn as the 'connect' event finds no listener: it is lost, and
    the turn ends in the same state as without it.  The key then leads to
    the new record, which has this one subscription; a record the key led
    to before stays in the store as it was, with its socket and its
    subscriptions. *)
Theorem subscribe_registers_at_handshake
    (cb_throws : Callback → Data → bool) (u ns event : string)
    (cb : Callback) (options : option SocketOptions) (m : SocketManager)
    (data : Data) :
  manager_ok None m →
  existing_connected (getConnectionKey u ns) m = None →
  let call := subscribe u ns event cb options m in
  let c := length (heap m) in
  let m' := turn cb_throws [(c, "connect", "")] call.1 in
  outcome_of call.2 call.1 = None
  ∧ listeners <$> heap call.1 !! c = Some ∅
  ∧ outcome_of call.2 m' = Some (Resolved c)
  ∧ listeners <$> heap m' !! c = Some {[ event := [cb] ]}
  ∧ wire_listeners event <$> heap m' !! c = Some 1%nat
  ∧ (¬ lifecycle_event event →
     new_deliveries m' (turn cb_throws [(c, event, data)] m') = [(cb, data)]
     ∧ turn cb_throws [(c, "connect", ""); (c, event, data)] call.1 = m'
     ∧ delivered m' = delivered m)
  ∧ connections m' !! getConnectionKey u ns = Some c
  ∧ (∀ c' conn', heap m !! c' = Some conn' → heap m' !! c' = Some conn').
Proof.
  intros Hok Hex call c m'.
  destruct (handshake_turn cb_throws (KSubscribe event cb) u ns options m
              "" Hok Hex)
    as (Hbefore & Hrec0 & Hafter & Hkey & _ & Hdel & Hothers & Hrec & Hsame).
  cbn [resumed resumed_record] in Hafter, Hrec.
  pose proof (Hbefore : outcome_of call.2 call.1 = None) as Hbefore'.
  pose proof (Hrec0 : heap call.1 !! c = Some _) as Hrec0'.
  pose proof (Hafter : outcome_of call.2 m' = Some _) as Hafter'.
  pose proof (Hkey : connections m' !! getConnectionKey u ns = Some c)
    as Hkey'.
  pose proof (Hdel : delivered m' = delivered m) as Hdel'.
  pose proof (Hothers : ∀ c' conn', heap m !! c' = Some conn' →
                                    heap m' !! c' = Some conn') as Hothers'.
  pose proof (Hrec : heap m' !! c = Some _) as Hrec'.
  pose proof (Hsame : ∀ event d, ¬ lifecycle_event event →
                turn cb_throws [(c, "connect", ""); (c, event, d)] call.1
                = m') as Hsame'.
  clear Hbefore Hrec0 Hafter Hkey Hdel Hothers Hrec Hsame.
  rename Hbefore' into Hbefore, Hrec0' into Hrec0, Hafter' into Hafter,
    Hkey' into Hkey, Hdel' into Hdel, Hothers' into Hothers,
    Hrec' into Hrec, Hsame' into Hsame.
  set (conn := with_socket (socket_sees "connect")
                 (handshaken (length (waits m)) u ns options)) in *.
  assert (Hreg : registry_ok conn)
    by exact (registry_ok_handshaken (length (waits m)) u ns options).
  assert (Hsub : subscribe_on event cb conn
                 = with_listeners (insert event [cb])
                     (with_socket (socket_on event (FanOut event)) conn))
    by (by apply subscribe_on_None).
  assert (Hl : listeners (subscribe_on event cb conn) = {[ event := [cb] ]})
    by (by rewrite Hsub).
  split; [done|]. split; [by rewrite Hrec0|]. split; [done|].
  split; [rewrite Hrec; simpl; by rewrite Hl|].
  split.
  { rewrite Hrec. cbn [fmap option_fmap option_map]. f_equal.
    pose proof (registry_ok_subscribe_on event cb _ Hreg) as [_ Hr].
    specialize (Hr event). rewrite Hl, lookup_singleton_eq in Hr. tauto. }
  split; [|by split].
  intros Hlife.
  destruct (lifecycle_event_names event Hlife) as (H1 & H2 & H3).
  split; [|split; [by apply Hsame|exact Hdel]].
  rewrite turn_single_ordinary; [|done|done|].
  - rewrite (receive_ordinary cb_throws c _ event [cb] data m' Hrec
               (registry_ok_subscribe_on event cb _ Hreg) Hlife)
      by (rewrite Hl; apply lookup_singleton_eq).
    cbn [fst]. rewrite new_deliveries_app. simpl.
    by destruct (cb_throws cb data).
  - unfold raises. rewrite Hrec, Hsub. simpl.
    by rewrite bool_decide_eq_false_2.
Qed.

(** X9. A [publish] for a key with no connected record emits nothing
    while it waits for the handshake.  It resumes in the microtask that
    follows the turn of the 'connect' event and reads the connected flag
    then.  When the 'connect' event is alone in its turn the flag is set:
    the payload is sent once and the call resolves, unless the event name
    is one the client reserves, on which [socket.emit] throws: the call
    then fails with that error and nothing is sent.  When a 'disconnect'
    follows the 'connect' in the same turn, the flag is cleared again
    before the call resumes: the call fails with the not-connected error
    and nothing is sent. *)
Theorem publish_emits_at_handshake
    (cb_throws : Callback → Data → bool) (u ns event : string)
    (data : Data) (options : option SocketOptions) (m : SocketManager) :
  manager_ok None m →
  existing_connected (getConnectionKey u ns) m = None →
  let call := publish u ns event data options m in
  let c := length (heap m) in
  let alone := turn cb_throws [(c, "connect", "")] call.1 in
  let cut :=
    turn cb_throws [(c, "connect", ""); (c, "disconnect", "transport close")]
      call.1 in
  outcome_of call.2 call.1 = None
  ∧ (sock_emitted ∘ socket) <$> heap call.1 !! c = Some []
  ∧ (event ∉ reserved_events →
     outcome_of call.2 alone = Some (Resolved c)
     ∧ (sock_emitted ∘ socket) <$> heap alone !! c = Some [(event, data)])
  ∧ (event ∈ reserved_events →
     outcome_of call.2 alone = Some (Rejected (ReservedEvent event))
     ∧ (sock_emitted ∘ socket) <$> heap alone !! c = Some [])
  ∧ outcome_of call.2 cut = Some (Rejected (SocketNotConnected (u +:+ ns)))
  ∧ (sock_emitted ∘ socket) <$> heap cut !! c = Some [].
Proof.
  intros Hok Hex call c alone cut.
  destruct (handshake_turn cb_throws (KPublish (u +:+ ns) event data)
              u ns options m "" Hok Hex)
    as (Hbefore & Hrec0 & Hafter & _ & _ & _ & _ & Hrec & _).
  destruct (handshake_cut cb_throws (KPublish (u +:+ ns) event data)
              u ns options m "" "transport close" Hex)
    as (m3 & Hcut & Hheap3 & Hw3 & Hflag3).
  cbn [resumed resumed_record] in Hafter, Hrec.
  pose proof (Hbefore : outcome_of call.2 call.1 = None) as Hbefore'.
  pose proof (Hrec0 : heap call.1 !! c = Some _) as Hrec0'.
  pose proof (Hafter : outcome_of call.2 alone = Some _) as Hafter'.
  pose proof (Hrec : heap alone !! c = Some _) as Hrec'.
  pose proof (Hcut : cut = _) as Hcut'.
  pose proof (Hw3 : waits m3 = waits call.1) as Hw3'.
  clear Hbefore Hrec0 Hafter Hrec Hcut Hw3.
  rename Hbefore' into Hbefore, Hrec0' into Hrec0, Hafter' into Hafter,
    Hrec' into Hrec, Hcut' into Hcut, Hw3' into Hw3.
  fold c in Hheap3, Hflag3, Hcut.
  split; [done|]. split; [by rewrite Hrec0|].
  split; [|split].
  - intros Hord. rewrite decide_False in Hafter by done.
    rewrite decide_False in Hrec by done.
    split; [done|]. by rewrite Hrec.
  - intros Hres. rewrite decide_True in Hafter by done.
    rewrite decide_True in Hrec by done.
    split; [done|]. by rewrite Hrec.
  - rewrite resume_publish, Hflag3 in Hcut. cbn [fst snd] in Hcut.
    assert (Hcall : call = (connecting (KPublish (u +:+ ns) event data)
                              u ns options m, Awaiting (length (waits m))))
      by (by apply getOrCreate_fresh).
    destruct (heap_connecting (KPublish (u +:+ ns) event data) u ns options m)
      as [_ Hwait].
    split.
    + rewrite Hcut, Hcall. cbn [snd outcome_of].
      rewrite waits_settle, Hw3, Hcall. cbn [fst]. rewrite Hwait. simpl.
      by rewrite decide_True.
    + rewrite Hcut. cbn [settle with_waits heap]. by rewrite Hheap3.
Qed.

Lemma sock_handlers_refused w u ns options :
  sock_handlers (socket (refused w u ns options))
  = [("connect", OnConnect); ("disconnect", OnDisconnect);
     ("connect_error", OnConnectError); ("connect", WaitConnect w)].
Proof.
  unfold refused, with_wait_handlers, fresh_connection,
    setupConnectionHandlers.
  cbn [socket with_socket with_state socket_off_one sock_handlers socket_on
       io app remove_first].
  rewrite !decide_False by discriminate. by rewrite decide_True.
Qed.

Lemma pending_settle w o m : pending w (settle w o m) = None.
Proof.
  unfold pending. rewrite waits_settle.
  destruct (waits m !! w); simpl; [|done]. by rewrite decide_True.
Qed.

(** X10. When the first event on the socket of a pending call is
    'connect_error', the call is rejected with that error and its timer is
    cleared; the record stays in the pool, not connected, with one attempt
    counted and its socket open.  A 'connect' event that follows sets the
    connected flag but the call stays rejected and its continuation never
    runs: a pending [subscribe] registers nothing and a pending [publish]
    emits nothing. *)
Theorem connect_error_rejects_pending_call
    (cb_throws : Callback → Data → bool) (k : Cont) (u ns : string)
    (options : option SocketOptions) (m : SocketManager) (err : Data) :
  manager_ok None m →
  existing_connected (getConnectionKey u ns) m = None →
  let call := getOrCreateConnection k u ns options m in
  let c := length (heap m) in
  let m1 := (receive cb_throws c "connect_error" err call.1).1 in
  let m2 := (receive cb_throws c "connect" "" m1).1 in
  outcome_of call.2 m1 = Some (Rejected (ConnectError err))
  ∧ connections m1 !! getConnectionKey u ns = Some c
  ∧ timers m1 = timers m
  ∧ (∃ conn, heap m1 !! c = Some conn
             ∧ reconnectAttempts conn = 1%nat ∧ connected conn = false
             ∧ sock_closed (socket conn) = false)
  ∧ outcome_of call.2 m2 = Some (Rejected (ConnectError err))
  ∧ ∃ conn, heap m2 !! c = Some conn
            ∧ connected conn = true ∧ reconnectAttempts conn = 0%nat
            ∧ listeners conn = ∅ ∧ sock_emitted (socket conn) = [].
Proof.
  intros Hok Hex call c m1 m2.
  assert (Hcall : call = (connecting k u ns options m,
                          Awaiting (length (waits m))))
    by (by apply getOrCreate_fresh).
  destruct (heap_connecting k u ns options m) as [Hheap0 Hwait0].
  destruct (connect_handlers_connecting (length (waits m)) u ns options)
    as [_ Hhs].
  set (w := length (waits m)) in *. fold c in Hheap0, Hwait0.
  set (m0 := connecting k u ns options m) in *.
  set (ma := clearTimeout w
               (update_conn c
                  (with_socket
                     (socket_off_one "connect_error" (WaitConnectError w)))
                  (on_connect_error c m0))).
  assert (Herr : on_connect_error c m0
                 = update_conn c
                     (λ x, with_state (S (reconnectAttempts x)) false x) m0).
  { rewrite (on_connect_error_spec c m0 _ Hheap0). by rewrite decide_False by (simpl; lia). }
  assert (Hwa : waits ma = waits m0) by (unfold ma; by rewrite Herr).
  assert (Hha : heap ma !! c = Some (refused w u ns options)).
  { change (heap ma)
      with (heap (update_conn c
                    (with_socket
                       (socket_off_one "connect_error" (WaitConnectError w)))
                    (on_connect_error c m0))).
    rewrite Herr, !heap_update_conn, Hheap0. reflexivity. }
  assert (Hm1 : m1 = settle w (Rejected (ConnectError err)) ma).
  { unfold m1. rewrite Hcall. cbn [fst]. unfold receive, emit.
    rewrite Hheap0, Hhs. cbn [handle_all handle]. fold ma.
    rewrite settle_later_nil.
    change (run_microtasks [(w, Some (ConnectError err))] ma)
      with (reject w (ConnectError err) ma).
    cbn [fst]. unfold reject, pending. rewrite Hwa, Hwait0. reflexivity. }
  assert (Hm2 : m2 = clearTimeout w
                       (update_conn c
                          (with_socket
                             (socket_off_one "connect" (WaitConnect w)))
                          (update_conn c (with_state 0 true) m1))).
  { unfold m2, receive.
    assert (Hh1 : heap m1 !! c = Some (refused w u ns options))
      by (by rewrite Hm1).
    assert (Hhs1 : handlers_of "connect" (socket (refused w u ns options))
                   = [OnConnect; WaitConnect w]).
    { unfold handlers_of. by rewrite sock_handlers_refused. }
    rewrite (emit_connect_pending _ _ _ _ w _ _ Hh1 Hhs1).
    rewrite settle_later_nil. cbn [fst].
    match goal with
    | |- run_microtasks [(w, None)] ?mm = _ =>
        change (run_microtasks [(w, None)] mm) with (resolve w mm)
    end.
    unfold resolve.
    assert (Hp : ∀ mm, waits mm = waits m1 → pending w mm = None).
    { intros mm Hmm. unfold pending. rewrite Hmm, Hm1.
      fold (pending w (settle w (Rejected (ConnectError err)) ma)).
      apply pending_settle. }
    by rewrite Hp. }
  split.
  { rewrite Hcall, Hm1. cbn [snd outcome_of]. rewrite waits_settle, Hwa.
    rewrite Hwait0. simpl. by rewrite decide_True. }
  split.
  { rewrite Hm1. unfold ma. rewrite Herr. simpl. apply lookup_insert_eq. }
  split.
  { rewrite Hm1. unfold ma. rewrite Herr.
    change (timers (clearTimeout w m0) = timers m).
    by apply (clearTimeout_connecting None). }
  split.
  { exists (refused w u ns options). split; [by rewrite Hm1|done]. }
  split.
  { rewrite Hcall, Hm2. cbn [snd outcome_of].
    change (waits m1 !! w ≫= w_outcome = Some (Rejected (ConnectError err))).
    rewrite Hm1, waits_settle, Hwa, Hwait0. simpl. by rewrite decide_True. }
  exists (with_socket (socket_off_one "connect" (WaitConnect w))
            (with_state 0 true (refused w u ns options))).
  split; [|done].
  rewrite Hm2.
  change (heap (update_conn c
                  (with_socket (socket_off_one "connect" (WaitConnect w)))
                  (update_conn c (with_state 0 true) m1)) !! c = 
          Some (with_socket (socket_off_one "connect" (WaitConnect w))
            (with_state 0 true (refused w u ns options)))).
  rewrite !heap_update_conn, Hm1. 
  change (heap (settle w (Rejected (ConnectError err)) ma)) with (heap ma).
  by rewrite Hha.
Qed.

Lemma connect_resolves_at_handshake_witness :
  let call := connect "http://h:3000" "/" None empty_manager in
  let m' := (receive never_throws 0%nat "connect" "" call.1).1 in
  outcome_of call.2 call.1 = None
  ∧ outcome_of call.2 m' = Some (Resolved 0%nat)
  ∧ connections m' !! getConnectionKey "http://h:3000" "/" = Some 0%nat
  ∧ is_connected 0%nat m' = true.
Proof.
  assert (Hex : existing_connected (getConnectionKey "http://h:3000" "/")
                  empty_manager = None) by (vm_compute; reflexivity).
  destruct (connect_resolves_at_handshake never_throws "http://h:3000" "/"
              None empty_manager "" manager_ok_empty Hex)
    as (H1 & H2 & H3 & _).
  intros call m'. split; [exact H1|]. split; [exact H2|].
  split; [exact H3|]. vm_compute. reflexivity.
Defined.

Lemma subscribe_registers_at_handshake_witness :
  let call := subscribe "http://h:3000" "/" "x" 7%nat None empty_manager in
  let m' := turn never_throws [(0%nat, "connect", "")] call.1 in
  listeners <$> heap call.1 !! 0%nat = Some ∅
  ∧ listeners <$> heap m' !! 0%nat = Some {[ "x" := [7%nat] ]}
  ∧ new_deliveries m' (turn never_throws [(0%nat, "x", "hello")] m')
    = [(7%nat, "hello")]
  ∧ turn never_throws [(0%nat, "connect", ""); (0%nat, "x", "hello")] call.1
    = m'
  ∧ delivered m' = [].
Proof.
  assert (Hex : existing_connected (getConnectionKey "http://h:3000" "/")
                  empty_manager = None) by (vm_compute; reflexivity).
  destruct (subscribe_registers_at_handshake never_throws "http://h:3000" "/"
              "x" 7%nat None empty_manager "hello" manager_ok_empty Hex)
    as (_ & H1 & _ & H2 & _ & H3 & _).
  intros call m'. split; [exact H1|]. split; [exact H2|].
  apply H3. unfold lifecycle_event. intros H.
  repeat (apply elem_of_cons in H as [H|H]; [discriminate H|]).
  by apply elem_of_nil in H.
Defined.

Lemma publish_emits_at_handshake_witness :
  let call := publish "http://h:3000" "/" "x" "hello" None empty_manager in
  let alone := turn never_throws [(0%nat, "connect", "")] call.1 in
  let cut :=
    turn never_throws
      [(0%nat, "connect", ""); (0%nat, "disconnect", "transport close")]
      call.1 in
  (sock_emitted ∘ socket) <$> heap call.1 !! 0%nat = Some []
  ∧ outcome_of call.2 alone = Some (Resolved 0%nat)
  ∧ (sock_emitted ∘ socket) <$> heap alone !! 0%nat = Some [("x", "hello")]
  ∧ outcome_of call.2 cut
    = Some (Rejected (SocketNotConnected ("http://h:3000" +:+ "/")))
  ∧ (sock_emitted ∘ socket) <$> heap cut !! 0%nat = Some [].
Proof.
  assert (Hex : existing_connected (getConnectionKey "http://h:3000" "/")
                  empty_manager = None) by (vm_compute; reflexivity).
  destruct (publish_emits_at_handshake never_throws "http://h:3000" "/"
              "x" "hello" None empty_manager manager_ok_empty Hex)
    as (_ & H1 & H2 & _ & H3 & H4).
  destruct H2 as [H2 H2'].
  { intros Hin. vm_compute in Hin.
    repeat (apply elem_of_cons in Hin as [Hin|Hin]; [discriminate|]).
    by apply not_elem_of_nil in Hin. }
  intros call alone cut. split; [exact H1|]. split; [exact H2|].
  split; [exact H2'|]. split; [exact H3|exact H4].
Defined.

Lemma connect_error_rejects_pending_call_witness :
  let call := publish "http://h:3000" "/" "x" "hello" None empty_manager in
  let m1 := (receive never_throws 0%nat "connect_error" "refused" call.1).1 in
  let m2 := (receive never_throws 0%nat "connect" "" m1).1 in
  outcome_of call.2 m1 = Some (Rejected (ConnectError "refused"))
  ∧ outcome_of call.2 m2 = Some (Rejected (ConnectError "refused"))
  ∧ is_connected 0%nat m2 = true
  ∧ (sock_emitted ∘ socket) <$> heap m2 !! 0%nat = Some [].
Proof.
  assert (Hex : existing_connected (getConnectionKey "http://h:3000" "/")
                  empty_manager = None) by (vm_compute; reflexivity).
  destruct (connect_error_rejects_pending_call never_throws
              (KPublish "http://h:3000/" "x" "hello") "http://h:3000" "/"
              None empty_manager "refused" manager_ok_empty Hex)
    as (H1 & _ & _ & _ & H2 & _).
  intros call m1 m2. split; [exact H1|]. split; [exact H2|].
  split; vm_compute; reflexivity.
Defined.


(** ** Eviction by key *)

(** X11. The 'connect_error' listener of a record removes the pool entry
    by key, not by record.  When the record reaches the limit while the
    key already leads to another record, a later socket for the same
    pair, the listener closes its own socket, removes the other record
    from the pool and leaves it as it is: open, with its flag and its
    subscriptions, but no longer found by any call. *)
Theorem stale_record_evicts_its_successor
    (m : SocketManager) (c c' : ConnId) (conn : SocketConnection) :
  heap m !! c = Some conn → (2 ≤ reconnectAttempts conn)%nat →
  connections m !! getConnectionKey (url conn) (namespace conn) = Some c' →
  c' ≠ c →
  let m' := on_connect_error c m in
  connections m' !! getConnectionKey (url conn) (namespace conn) = None
  ∧ existing_connected (getConnectionKey (url conn) (namespace conn)) m'
    = None
  ∧ heap m' !! c' = heap m !! c'
  ∧ (sock_closed ∘ socket) <$> heap m' !! c = Some true.
Proof.
  intros Hconn Hatt Hkey Hne m'.
  assert (Hm' : m' = pool_delete
           (getConnectionKey (url conn) (namespace conn))
           (update_conn c
              (λ x, with_socket socket_disconnect
                      (with_state (S (reconnectAttempts x)) false x)) m)).
  { unfold m'. rewrite (on_connect_error_spec c m conn Hconn).
    by rewrite decide_True by lia. }
  assert (Hgone : connections m'
                    !! getConnectionKey (url conn) (namespace conn) = None).
  { rewrite Hm'. simpl. apply lookup_delete_eq. }
  split; [done|]. split; [unfold existing_connected; by rewrite Hgone|].
  rewrite Hm'. split.
  - simpl. by apply list_lookup_alter_ne.
  - simpl. rewrite list_lookup_alter_eq, Hconn. reflexivity.
Qed.

Lemma stale_record_evicts_its_successor_witness :
  let m := run never_throws example_run_stale empty_manager in
  let m' := (receive never_throws 0%nat "connect_error" "refused" m).1 in
  connections m !! "http://h:3000/" = Some 1%nat
  ∧ is_connected 1%nat m = true
  ∧ connections m' !! "http://h:3000/" = None
  ∧ is_connected 1%nat m' = true
  ∧ (sock_closed ∘ socket) <$> heap m' !! 1%nat = Some false
  ∧ (sock_closed ∘ socket) <$> heap m' !! 0%nat = Some true.
Proof.
  intros m m'.
  eassert (Hconn : heap m !! 0%nat = Some _) by (vm_compute; reflexivity).
  match type of Hconn with
  | _ = Some ?conn =>
      assert (Hatt : (2 ≤ reconnectAttempts conn)%nat) by (vm_compute; lia);
      assert (Hkey : connections m
                       !! getConnectionKey (url conn) (namespace conn)
                     = Some 1%nat) by (vm_compute; reflexivity)
  end.
  destruct (stale_record_evicts_its_successor m 0%nat 1%nat _ Hconn Hatt Hkey)
    as (_ & _ & _ & Hclosed); [discriminate|].
  assert (Hm' : m' = on_connect_error 0%nat m) by (vm_compute; reflexivity).
  split; [vm_compute; reflexivity|]. split; [vm_compute; reflexivity|].
  split; [vm_compute; reflexivity|]. split; [vm_compute; reflexivity|].
  split; [vm_compute; reflexivity|]. rewrite Hm'. exact Hclosed.
Defined.

(** ** From listeners to turns *)

(** A relation between the states before and after that every listener,
    every microtask and every write of the client to a socket satisfies
    holds across the turns and across [disconnect] and [disconnectAll]. *)
Section Lifting.

Variable cb_throws : Callback → Data → bool.
Variable R : SocketManager → SocketManager → Prop.
Hypothesis R_refl : ∀ m, R m m.
Hypothesis R_trans : ∀ m1 m2 m3, R m1 m2 → R m2 m3 → R m1 m3.
Hypothesis R_handle :
  ∀ q h c data m, R m (handle cb_throws q h c data m).1.1.
Hypothesis R_sees :
  ∀ c event m, R m (update_conn c (with_socket (socket_sees event)) m).
Hypothesis R_close :
  ∀ c m, R m (update_conn c (with_socket socket_disconnect) m).
Hypothesis R_pool_delete : ∀ key m, R m (pool_delete key m).
Hypothesis R_pool_clear : ∀ m, R m (pool_clear m).
Hypothesis R_microtask : ∀ x m, R m (run_microtask x m).

Lemma lift_emit q c event data m :
  R m (emit cb_throws q c event data m).1.1.
Proof.
  apply (emit_ind cb_throws c event data (λ m' _, R m m')); [|done].
  intros h q0 m0 Hm0. by apply (R_trans _ m0).
Qed.

Lemma lift_run_microtasks q m : R m (run_microtasks q m).
Proof.
  apply (run_microtasks_ind (λ m', R m m')); [|done].
  intros x m' _ Hm'. by apply (R_trans _ m').
Qed.

Lemma lift_receive c event data m : R m (receive cb_throws c event data m).1.
Proof.
  rewrite receive_state.
  eapply R_trans; [apply lift_emit|apply lift_run_microtasks].
Qed.

Lemma lift_dispatch events q m :
  R m (dispatch cb_throws events q m).1.1.
Proof.
  apply (dispatch_ind cb_throws (λ m' _, R m m')); [| |done].
  - intros c event q0 m0 Hm0. by apply (R_trans _ m0).
  - intros c event data q0 m0 Hm0.
    apply (R_trans _ m0); [done|apply lift_emit].
Qed.

Lemma lift_turn events m : R m (turn cb_throws events m).
Proof.
  rewrite turn_state.
  eapply R_trans; [apply lift_dispatch|apply lift_run_microtasks].
Qed.

Lemma lift_close_socket q c m : R m (close_socket cb_throws q c m).1.1.
Proof.
  apply (close_socket_ind cb_throws (λ m' _, R m m')); [| |done].
  - intros c0 q0 m0 Hm0. by apply (R_trans _ m0).
  - intros c0 q0 m0 Hm0. apply (R_trans _ m0); [done|apply lift_emit].
Qed.

Lemma lift_close_all cs q m : R m (close_all cb_throws cs q m).1.1.
Proof.
  apply (close_all_ind cb_throws (λ m' _, R m m')); [| |done].
  - intros c0 q0 m0 Hm0. by apply (R_trans _ m0).
  - intros c0 q0 m0 Hm0. apply (R_trans _ m0); [done|apply lift_emit].
Qed.

Lemma lift_disconnect url namespace m :
  R m (disconnect cb_throws url namespace m).1.
Proof.
  destruct (connections m !! getConnectionKey url namespace) as [c|] eqn:Hkey;
    [|unfold disconnect; by rewrite Hkey].
  rewrite (disconnect_state _ _ _ _ c Hkey). cbn [fst].
  eapply R_trans; [|apply lift_run_microtasks].
  destruct (close_socket cb_throws [] c m).2; [apply lift_close_socket|].
  eapply R_trans; [apply lift_close_socket|apply R_pool_delete].
Qed.

Lemma lift_disconnectAll m : R m (disconnectAll cb_throws m).1.
Proof.
  rewrite disconnectAll_state. cbn [fst].
  eapply R_trans; [|apply lift_run_microtasks].
  destruct (close_all cb_throws (pool_records m) [] m).2;
    [apply lift_close_all|].
  eapply R_trans; [apply lift_close_all|apply R_pool_clear].
Qed.

End Lifting.

(** ** Settled promises *)

Lemma promises_kept_refl m m' : waits m' = waits m → promises_kept m m'.
Proof. intros Hw w x Hx. exists x. by rewrite Hw. Qed.

Lemma promises_kept_trans m1 m2 m3 :
  promises_kept m1 m2 → promises_kept m2 m3 → promises_kept m1 m3.
Proof.
  intros H12 H23 w x Hx.
  destruct (H12 w x Hx) as (x2 & Hx2 & Hc2 & Hk2 & Ho2).
  destruct (H23 w x2 Hx2) as (x3 & Hx3 & Hc3 & Hk3 & Ho3).
  exists x3. split; [done|]. split; [congruence|]. split; [congruence|].
  intros o Ho. by apply Ho3, Ho2.
Qed.

Lemma promises_kept_settle w o m m0 :
  waits m0 = waits m → is_Some (pending w m) →
  promises_kept m (settle w o m0).
Proof.
  intros Hw0 [y Hy] w' x Hx. unfold pending in Hy.
  rewrite waits_settle, Hw0, Hx. simpl.
  destruct (decide (w = w')) as [->|Hne].
  - rewrite Hx in Hy. destruct (w_outcome x) eqn:Ho; [done|].
    eexists. split; [done|]. simpl. split; [done|]. split; [done|].
    intros o' Ho'. congruence.
  - by exists x.
Qed.

Lemma promises_kept_resolve w m : promises_kept m (resolve w m).
Proof.
  unfold resolve. destruct (pending w m) as [x|] eqn:Hp;
    [|by apply promises_kept_refl].
  destruct (resume_keeps_pool (w_cont x) (w_conn x) m) as (_ & _ & Hw & _).
  destruct (resume (w_cont x) (w_conn x) m) as [m' o]. simpl in Hw.
  apply promises_kept_settle; [done|by rewrite Hp].
Qed.

Lemma promises_kept_reject w e m : promises_kept m (reject w e m).
Proof.
  unfold reject. destruct (pending w m) as [x|] eqn:Hp;
    [|by apply promises_kept_refl].
  apply promises_kept_settle; [done|by rewrite Hp].
Qed.

Lemma promises_kept_refl' m : promises_kept m m.
Proof. by apply promises_kept_refl. Qed.

Lemma promises_kept_handle cb_throws q h c data m :
  promises_kept m (handle cb_throws q h c data m).1.1.
Proof. apply promises_kept_refl, waits_handle. Qed.

Lemma promises_kept_run_microtask x m : promises_kept m (run_microtask x m).
Proof.
  unfold run_microtask.
  destruct x.2; [apply promises_kept_reject|apply promises_kept_resolve].
Qed.

Lemma promises_kept_receive cb_throws c event data m :
  promises_kept m (receive cb_throws c event data m).1.
Proof.
  apply (lift_receive cb_throws promises_kept).
  - apply promises_kept_refl'.
  - apply promises_kept_trans.
  - apply promises_kept_handle.
  - apply promises_kept_run_microtask.
Qed.

Lemma promises_kept_turn cb_throws events m :
  promises_kept m (turn cb_throws events m).
Proof.
  apply (lift_turn cb_throws promises_kept).
  - apply promises_kept_refl'.
  - apply promises_kept_trans.
  - apply promises_kept_handle.
  - intros c event m0. by apply promises_kept_refl.
  - apply promises_kept_run_microtask.
Qed.

Lemma promises_kept_disconnect cb_throws url namespace m :
  promises_kept m (disconnect cb_throws url namespace m).1.
Proof.
  apply (lift_disconnect cb_throws promises_kept).
  - apply promises_kept_refl'.
  - apply promises_kept_trans.
  - apply promises_kept_handle.
  - intros c m0. by apply promises_kept_refl.
  - intros key m0. by apply promises_kept_refl.
  - apply promises_kept_run_microtask.
Qed.

Lemma promises_kept_disconnectAll cb_throws m :
  promises_kept m (disconnectAll cb_throws m).1.
Proof.
  apply (lift_disconnectAll cb_throws promises_kept).
  - apply promises_kept_refl'.
  - apply promises_kept_trans.
  - apply promises_kept_handle.
  - intros c m0. by apply promises_kept_refl.
  - intros m0. by apply promises_kept_refl.
  - apply promises_kept_run_microtask.
Qed.

Lemma promises_kept_on_timeout w m : promises_kept m (on_timeout w m).
Proof.
  unfold on_timeout. destruct (waits m !! w); [|by apply promises_kept_refl].
  eapply promises_kept_trans; [|apply promises_kept_reject].
  by apply promises_kept_refl.
Qed.

Lemma promises_kept_timeouts l m :
  promises_kept m (foldl (λ acc x, on_timeout (t_wait x) acc) m l).
Proof.
  revert m. induction l as [|t l IH]; intros m; simpl.
  - by apply promises_kept_refl.
  - eapply promises_kept_trans; [apply promises_kept_on_timeout|apply IH].
Qed.

Lemma promises_kept_advance t m : promises_kept m (advance t m).
Proof.
  unfold advance.
  eapply promises_kept_trans; [|apply promises_kept_timeouts].
  by apply promises_kept_refl.
Qed.

Lemma promises_kept_resume k c m : promises_kept m (resume k c m).1.
Proof. apply promises_kept_refl. apply resume_keeps_pool. Qed.

Lemma promises_kept_getOrCreate k url namespace options m :
  promises_kept m (getOrCreateConnection k url namespace options m).1
  ∧ promises_kept m (connect_k k url namespace options m).1.
Proof.
  assert (Hc : promises_kept m (connect_k k url namespace options m).1).
  { destruct (existing_connected (getConnectionKey url namespace) m)
      as [c|] eqn:Hex.
    - unfold connect_k. rewrite Hex.
      pose proof (promises_kept_resume k c m) as Hr.
      by destruct (resume k c m).
    - rewrite connect_k_fresh by done. intros w x Hx. exists x.
      split; [|done]. simpl. by apply lookup_app_l_Some. }
  split; [|done]. unfold getOrCreateConnection.
  destruct (existing_connected (getConnectionKey url namespace) m) as [c|];
    [|done].
  pose proof (promises_kept_resume k c m) as Hr. by destruct (resume k c m).
Qed.

Lemma promises_kept_step cb_throws a m : promises_kept m (step cb_throws a m).
Proof.
  destruct a; simpl.
  - apply promises_kept_getOrCreate.
  - apply promises_kept_getOrCreate.
  - apply promises_kept_refl. unfold unsubscribe.
    by destruct (connections m !! _).
  - apply promises_kept_getOrCreate.
  - apply promises_kept_disconnect.
  - apply promises_kept_disconnectAll.
  - apply promises_kept_turn.
  - apply promises_kept_turn.
  - apply promises_kept_advance.
Qed.

(** X12. Once the promise of a call is settled, nothing the manager does
    later changes its outcome, the record it is about or the code that
    awaited it: no call, transport event or timer.  In particular a call
    rejected by a timeout or a 'connect_error' is not revived by a late
    handshake, and a resolved call is not failed by a later error. *)
Theorem settled_call_keeps_its_outcome
    (cb_throws : Callback → Data → bool) (l : list Action)
    (m : SocketManager) (w : WaitId) (x : Wait) (o : Outcome) :
  waits m !! w = Some x → w_outcome x = Some o →
  outcome_of (Awaiting w) (run cb_throws l m) = Some o
  ∧ ∃ x', waits (run cb_throws l m) !! w = Some x'
          ∧ w_conn x' = w_conn x ∧ w_cont x' = w_cont x.
Proof.
  intros Hx Ho.
  assert (Hkept : promises_kept m (run cb_throws l m)).
  { clear. revert m. induction l as [|a l IH]; intros m.
    - by apply promises_kept_refl.
    - eapply promises_kept_trans; [apply (promises_kept_step cb_throws a)|].
      apply IH. }
  destruct (Hkept w x Hx) as (x' & Hx' & Hc & Hk & Ho').
  split; [|by exists x'].
  simpl. rewrite Hx'. simpl. by apply Ho'.
Qed.

Lemma settled_call_keeps_its_outcome_witness :
  let m :=
    (receive never_throws 0%nat "connect_error" "refused"
       example_connecting).1 in
  outcome_of (Awaiting 0%nat)
    (run never_throws [Transport 0%nat "connect" ""; Elapse 6000] m)
  = Some (Rejected (ConnectError "refused")).
Proof.
  intros m.
  eassert (Hx : waits m !! 0%nat = Some _) by (vm_compute; reflexivity).
  match type of Hx with
  | _ = Some ?x =>
      assert (Ho : w_outcome x = Some (Rejected (ConnectError "refused")))
        by (vm_compute; reflexivity)
  end.
  exact (proj1 (settled_call_keeps_its_outcome never_throws
                  [Transport 0%nat "connect" ""; Elapse 6000] m 0%nat _ _
                  Hx Ho)).
Defined.


(** ** The pool invariant *)

Lemma pool_ok_frame m m' :
  heap m' = heap m → connections m' = connections m →
  pool_ok m → pool_ok m'.
Proof. unfold pool_ok. by intros -> ->. Qed.

Lemma pool_ok_update c f m :
  keeps_names f → pool_ok m → pool_ok (update_conn c f m).
Proof.
  intros Hn [Huri Hpool]. split.
  - intros c' conn'. simpl. rewrite list_lookup_alter.
    destruct (decide (c = c')) as [->|Hne]; [|by apply Huri].
    destruct (heap m !! c') as [conn|] eqn:Hc; [|done].
    intros [= <-]. destruct (Hn conn) as (-> & -> & ->). by apply (Huri c').
  - intros key c' Hkey. destruct (Hpool key c' Hkey) as (conn & Hc & Hk).
    simpl. rewrite list_lookup_alter.
    destruct (decide (c = c')) as [->|Hne]; [|by exists conn].
    exists (f conn). rewrite Hc. split; [done|].
    by destruct (Hn conn) as (-> & -> & _).
Qed.

Lemma pool_ok_delete key m : pool_ok m → pool_ok (pool_delete key m).
Proof.
  intros [Huri Hpool]. split; [done|].
  intros key' c'. simpl. rewrite lookup_delete_Some. intros [_ Hkey].
  by apply Hpool.
Qed.

Lemma pool_ok_clear m : pool_ok m → pool_ok (pool_clear m).
Proof.
  intros [Huri _]. split; [done|]. intros key c. simpl.
  by rewrite lookup_empty.
Qed.

Lemma keeps_subscribe_on event cb :
  keeps_names (subscribe_on event cb) ∧ keeps_open (subscribe_on event cb).
Proof.
  split; intros conn; unfold subscribe_on;
    destruct (listeners conn !! event) eqn:Hl; simpl;
    rewrite ?Hl, ?lookup_insert_eq; done.
Qed.

Lemma keeps_unsubscribe_on event callback :
  keeps_names (unsubscribe_on event callback)
  ∧ keeps_open (unsubscribe_on event callback).
Proof.
  split; intros conn; unfold unsubscribe_on;
    destruct callback, (listeners conn !! event); simpl;
    try case_decide; done.
Qed.

Lemma pool_ok_resume k c m : pool_ok m → pool_ok (resume k c m).1.
Proof.
  intros Hok. destruct k as [|event callback|target event d]; [done| |].
  - apply pool_ok_update; [apply keeps_subscribe_on|done].
  - rewrite resume_publish. destruct (is_connected c m); [|done].
    destruct (decide (event ∈ reserved_events)); [done|].
    by apply pool_ok_update.
Qed.

Lemma pool_ok_resolve w m : pool_ok m → pool_ok (resolve w m).
Proof.
  intros Hok. unfold resolve. destruct (pending w m) as [x|]; [|done].
  pose proof (pool_ok_resume (w_cont x) (w_conn x) m Hok) as Hr.
  destruct (resume (w_cont x) (w_conn x) m) as [m' o].
  by apply (pool_ok_frame m').
Qed.

Lemma pool_ok_reject w e m : pool_ok m → pool_ok (reject w e m).
Proof.
  intros Hok. destruct (reject_frame w e m) as (Hc & Hh & _).
  by apply (pool_ok_frame m).
Qed.

Lemma pool_ok_run_microtask x m : pool_ok m → pool_ok (run_microtask x m).
Proof.
  unfold run_microtask.
  destruct x.2; [apply pool_ok_reject|apply pool_ok_resolve].
Qed.

Lemma pool_ok_on_connect_error c m :
  pool_ok m → pool_ok (on_connect_error c m).
Proof.
  intros Hok. destruct (heap m !! c) as [conn|] eqn:Hc.
  - rewrite (on_connect_error_spec c m conn Hc). case_decide.
    + by apply pool_ok_delete, pool_ok_update.
    + by apply pool_ok_update.
  - unfold on_connect_error.
    rewrite heap_update_conn, Hc. simpl. by apply pool_ok_update.
Qed.

Lemma pool_ok_handle cb_throws q h c data m :
  pool_ok m → pool_ok (handle cb_throws q h c data m).1.1.
Proof.
  intros Hok. destruct h as [| | |event|w|w]; simpl.
  - by apply pool_ok_update.
  - by apply pool_ok_update.
  - by apply pool_ok_on_connect_error.
  - destruct (heap m !! c) as [conn|]; [|done].
    destruct (listeners conn !! event) as [s|]; [|done].
    by destruct (forEach_listener cb_throws s data).
  - apply (pool_ok_frame
             (update_conn c
                (with_socket (socket_off_one "connect" (WaitConnect w))) m));
      [done..|].
    by apply pool_ok_update.
  - apply (pool_ok_frame
             (update_conn c
                (with_socket
                   (socket_off_one "connect_error" (WaitConnectError w))) m));
      [done..|].
    by apply pool_ok_update.
Qed.

(** [pool_ok] as a relation between the states before and after, for
    the lemmas of [Lifting]. *)
Lemma pool_ok_turn cb_throws events m :
  pool_ok m → pool_ok (turn cb_throws events m).
Proof.
  apply (lift_turn cb_throws (λ m m', pool_ok m → pool_ok m')); try done.
  - intros m1 m2 m3 H12 H23 H1. by apply H23, H12.
  - intros q h c data m0. apply pool_ok_handle.
  - intros c event m0. by apply pool_ok_update.
  - intros x m0. apply pool_ok_run_microtask.
Qed.

Lemma pool_ok_receive cb_throws c event data m :
  pool_ok m → pool_ok (receive cb_throws c event data m).1.
Proof.
  apply (lift_receive cb_throws (λ m m', pool_ok m → pool_ok m')); try done.
  - intros m1 m2 m3 H12 H23 H1. by apply H23, H12.
  - intros q h c0 d m0. apply pool_ok_handle.
  - intros x m0. apply pool_ok_run_microtask.
Qed.

Lemma pool_ok_disconnect cb_throws url namespace m :
  pool_ok m → pool_ok (disconnect cb_throws url namespace m).1.
Proof.
  apply (lift_disconnect cb_throws (λ m m', pool_ok m → pool_ok m'));
    try done.
  - intros m1 m2 m3 H12 H23 H1. by apply H23, H12.
  - intros q h c data m0. apply pool_ok_handle.
  - intros c m0. by apply pool_ok_update.
  - intros key m0. apply pool_ok_delete.
  - intros x m0. apply pool_ok_run_microtask.
Qed.

Lemma pool_ok_disconnectAll cb_throws m :
  pool_ok m → pool_ok (disconnectAll cb_throws m).1.
Proof.
  apply (lift_disconnectAll cb_throws (λ m m', pool_ok m → pool_ok m'));
    try done.
  - intros m1 m2 m3 H12 H23 H1. by apply H23, H12.
  - intros q h c data m0. apply pool_ok_handle.
  - intros c m0. by apply pool_ok_update.
  - intros m0. apply pool_ok_clear.
  - intros x m0. apply pool_ok_run_microtask.
Qed.

Lemma pool_ok_on_timeout w m : pool_ok m → pool_ok (on_timeout w m).
Proof.
  intros Hok. unfold on_timeout. destruct (waits m !! w); [|done].
  apply pool_ok_reject. by apply pool_ok_update.
Qed.

Lemma pool_ok_advance t m : pool_ok m → pool_ok (advance t m).
Proof.
  intros Hok. unfold advance.
  assert (H0 : pool_ok (with_now (Z.max (now m) t)
                          (with_timers (filter (λ x, ¬ (t_due x ≤ t))) m)))
    by (apply (pool_ok_frame m); [reflexivity|reflexivity|exact Hok]).
  revert H0. generalize (with_now (Z.max (now m) t)
                           (with_timers (filter (λ x, ¬ (t_due x ≤ t))) m)).
  induction (filter (λ x, t_due x ≤ t) (timers m)) as [|x l IH];
    intros m0 H0; simpl; [done|].
  apply IH. by apply pool_ok_on_timeout.
Qed.

Lemma pool_ok_connecting k url namespace options m :
  pool_ok m → pool_ok (connecting k url namespace options m).
Proof.
  intros [Huri Hpool]. split.
  - intros c conn. simpl.
    intros [[_ Hc]|[_ <-]]%lookup_snoc_Some; [by apply (Huri c)|done].
  - intros key c. simpl. rewrite lookup_insert_Some.
    intros [[<- <-]|[Hne Hkey]].
    + eexists. split; [by rewrite lookup_app_r, Nat.sub_diag by lia|done].
    + destruct (Hpool key c Hkey) as (conn & Hc & Hk).
      exists conn. split; [by apply lookup_app_l_Some|done].
Qed.

Lemma pool_ok_getOrCreate k url namespace options m :
  pool_ok m →
  pool_ok (getOrCreateConnection k url namespace options m).1
  ∧ pool_ok (connect_k k url namespace options m).1.
Proof.
  intros Hok.
  assert (Hc : pool_ok (connect_k k url namespace options m).1).
  { destruct (existing_connected (getConnectionKey url namespace) m)
      as [c|] eqn:Hex.
    - unfold connect_k. rewrite Hex.
      pose proof (pool_ok_resume k c m Hok) as Hr. by destruct (resume k c m).
    - rewrite connect_k_fresh by done. by apply pool_ok_connecting. }
  split; [|done]. unfold getOrCreateConnection.
  destruct (existing_connected (getConnectionKey url namespace) m) as [c|];
    [|done].
  pose proof (pool_ok_resume k c m Hok) as Hr. by destruct (resume k c m).
Qed.

Lemma pool_ok_step cb_throws a m : pool_ok m → pool_ok (step cb_throws a m).
Proof.
  intros Hok.
  destruct a as [u n o|u n e cb o|u n e cb o|u n e d o|u n| |c e d|es|t];
    simpl.
  - by apply pool_ok_getOrCreate.
  - by apply pool_ok_getOrCreate.
  - unfold unsubscribe. destruct (connections m !! _); [|done].
    apply pool_ok_update; [apply keeps_unsubscribe_on|done].
  - by apply pool_ok_getOrCreate.
  - by apply pool_ok_disconnect.
  - by apply pool_ok_disconnectAll.
  - by apply pool_ok_turn.
  - by apply pool_ok_turn.
  - by apply pool_ok_advance.
Qed.

Lemma pool_ok_empty : pool_ok empty_manager.
Proof.
  split; [intros c conn; simpl; by rewrite lookup_nil|].
  intros key c. simpl. by rewrite lookup_empty.
Qed.

Lemma pool_ok_run cb_throws l : pool_ok (run cb_throws l empty_manager).
Proof.
  unfold run. generalize pool_ok_empty. generalize empty_manager.
  induction l as [|a l IH]; intros m H0; simpl; [done|].
  apply IH. by apply pool_ok_step.
Qed.

(** *** The iteration order *)

Lemma pool_order_ok_frame m m' :
  connections m' = connections m → pool_order m' = pool_order m →
  pool_order_ok m → pool_order_ok m'.
Proof. unfold pool_order_ok. by intros -> ->. Qed.

Lemma pool_order_ok_delete key m :
  pool_order_ok m → pool_order_ok (pool_delete key m).
Proof.
  intros [Hnd Hkeys]. split; simpl.
  - by apply NoDup_filter.
  - intros key'. rewrite list_elem_of_filter, Hkeys.
    rewrite <- !elem_of_dom, dom_delete, elem_of_difference, elem_of_singleton.
    tauto.
Qed.

Lemma pool_order_ok_clear m : pool_order_ok (pool_clear m).
Proof.
  split; simpl; [apply NoDup_nil_2|]. intros key.
  rewrite elem_of_nil, lookup_empty. split; [done|]. by intros [? ?].
Qed.

Lemma pool_order_ok_set key c m :
  pool_order_ok m → pool_order_ok (pool_set key c m).
Proof.
  intros [Hnd Hkeys]. split; simpl.
  - destruct (decide (key ∈ pool_order m)) as [Hin|Hnot]; [done|].
    apply NoDup_app. split; [done|]. split; [|apply NoDup_singleton].
    intros x Hx ->%list_elem_of_singleton. done.
  - intros key'. rewrite <- elem_of_dom, dom_insert, elem_of_union,
      elem_of_singleton, elem_of_dom, <- Hkeys.
    destruct (decide (key ∈ pool_order m)) as [Hin|Hnot].
    + split; [by right|]. by intros [->|?].
    + rewrite elem_of_app, list_elem_of_singleton. tauto.
Qed.

Lemma pool_fields_resume k c m :
  connections (resume k c m).1 = connections m
  ∧ pool_order (resume k c m).1 = pool_order m.
Proof.
  destruct k as [|event callback|target event d]; try done.
  rewrite resume_publish. destruct (is_connected c m); [|done].
  by destruct (decide (event ∈ reserved_events)).
Qed.

Lemma pool_fields_run_microtask x m :
  connections (run_microtask x m) = connections m
  ∧ pool_order (run_microtask x m) = pool_order m.
Proof.
  unfold run_microtask, resolve, reject.
  destruct x.2; [by destruct (pending x.1 m)|].
  destruct (pending x.1 m) as [y|]; [|done].
  destruct (pool_fields_resume (w_cont y) (w_conn y) m) as [Hc Ho].
  by destruct (resume (w_cont y) (w_conn y) m).
Qed.

Lemma pool_fields_run_microtasks q m :
  connections (run_microtasks q m) = connections m
  ∧ pool_order (run_microtasks q m) = pool_order m.
Proof.
  apply (run_microtasks_ind
           (λ m', connections m' = connections m
                  ∧ pool_order m' = pool_order m)); [|done].
  intros x m' _ [<- <-]. apply pool_fields_run_microtask.
Qed.

Lemma pool_order_ok_on_connect_error c m :
  pool_order_ok m → pool_order_ok (on_connect_error c m).
Proof.
  intros Hok. unfold on_connect_error.
  destruct (heap _ !! c) as [conn|]; [|done].
  destruct (_ >=? _); [|done]. by apply pool_order_ok_delete.
Qed.

Lemma pool_order_ok_handle cb_throws q h c data m :
  pool_order_ok m → pool_order_ok (handle cb_throws q h c data m).1.1.
Proof.
  intros Hok. destruct h as [| | |event|w|w]; simpl; try done.
  - by apply pool_order_ok_on_connect_error.
  - destruct (heap m !! c) as [conn|]; [|done].
    destruct (listeners conn !! event) as [s|]; [|done].
    by destruct (forEach_listener cb_throws s data).
Qed.

Lemma pool_order_ok_run_microtask x m :
  pool_order_ok m → pool_order_ok (run_microtask x m).
Proof.
  destruct (pool_fields_run_microtask x m) as [Hc Ho].
  by apply pool_order_ok_frame.
Qed.

Lemma pool_order_ok_trans (m1 m2 m3 : SocketManager) :
  (pool_order_ok m1 → pool_order_ok m2) →
  (pool_order_ok m2 → pool_order_ok m3) →
  pool_order_ok m1 → pool_order_ok m3.
Proof. tauto. Qed.

Lemma pool_order_ok_turn cb_throws events m :
  pool_order_ok m → pool_order_ok (turn cb_throws events m).
Proof.
  apply (lift_turn cb_throws (λ m m', pool_order_ok m → pool_order_ok m'));
    try done.
  - apply pool_order_ok_trans.
  - intros q h c data m0. apply pool_order_ok_handle.
  - intros x m0. apply pool_order_ok_run_microtask.
Qed.

Lemma pool_order_ok_disconnect cb_throws url namespace m :
  pool_order_ok m → pool_order_ok (disconnect cb_throws url namespace m).1.
Proof.
  apply (lift_disconnect cb_throws
           (λ m m', pool_order_ok m → pool_order_ok m')); try done.
  - apply pool_order_ok_trans.
  - intros q h c data m0. apply pool_order_ok_handle.
  - intros key m0. apply pool_order_ok_delete.
  - intros x m0. apply pool_order_ok_run_microtask.
Qed.

Lemma pool_order_ok_disconnectAll cb_throws m :
  pool_order_ok m → pool_order_ok (disconnectAll cb_throws m).1.
Proof.
  apply (lift_disconnectAll cb_throws
           (λ m m', pool_order_ok m → pool_order_ok m')); try done.
  - apply pool_order_ok_trans.
  - intros q h c data m0. apply pool_order_ok_handle.
  - intros m0 _. apply pool_order_ok_clear.
  - intros x m0. apply pool_order_ok_run_microtask.
Qed.

Lemma pool_fields_on_timeout w m :
  connections (on_timeout w m) = connections m
  ∧ pool_order (on_timeout w m) = pool_order m.
Proof.
  unfold on_timeout. destruct (waits m !! w); [|done].
  unfold reject. by destruct (pending w _).
Qed.

Lemma pool_fields_timeouts (l : list Timer) m :
  connections (foldl (λ acc x, on_timeout (t_wait x) acc) m l)
  = connections m
  ∧ pool_order (foldl (λ acc x, on_timeout (t_wait x) acc) m l)
    = pool_order m.
Proof.
  revert m. induction l as [|x l IH]; intros m; simpl; [done|].
  destruct (IH (on_timeout (t_wait x) m)) as [-> ->].
  apply pool_fields_on_timeout.
Qed.

Lemma pool_fields_advance t m :
  connections (advance t m) = connections m
  ∧ pool_order (advance t m) = pool_order m.
Proof. unfold advance. by destruct (pool_fields_timeouts
  (filter (λ x, t_due x ≤ t) (timers m))
  (with_now (Z.max (now m) t)
     (with_timers (filter (λ x, ¬ (t_due x ≤ t))) m))) as [-> ->]. Qed.

Lemma pool_order_ok_getOrCreate k url namespace options m :
  pool_order_ok m →
  pool_order_ok (getOrCreateConnection k url namespace options m).1
  ∧ pool_order_ok (connect_k k url namespace options m).1.
Proof.
  intros Hok.
  assert (Hr : ∀ c, pool_order_ok (resume k c m).1).
  { intros c. destruct (pool_fields_resume k c m) as [Hc Ho].
    by apply (pool_order_ok_frame m). }
  assert (Hc : pool_order_ok (connect_k k url namespace options m).1).
  { destruct (existing_connected (getConnectionKey url namespace) m)
      as [c|] eqn:Hex.
    - unfold connect_k. rewrite Hex. specialize (Hr c).
      by destruct (resume k c m).
    - rewrite connect_k_fresh by done.
      apply (pool_order_ok_frame
               (pool_set (getConnectionKey url namespace)
                  (length (heap m)) m)); [done..|].
      by apply pool_order_ok_set. }
  split; [|done]. unfold getOrCreateConnection.
  destruct (existing_connected (getConnectionKey url namespace) m) as [c|];
    [|done].
  specialize (Hr c). by destruct (resume k c m).
Qed.

Lemma pool_order_ok_step cb_throws a m :
  pool_order_ok m → pool_order_ok (step cb_throws a m).
Proof.
  intros Hok.
  destruct a as [u n o|u n e cb o|u n e cb o|u n e d o|u n| |c e d|es|t];
    simpl.
  - by apply pool_order_ok_getOrCreate.
  - by apply pool_order_ok_getOrCreate.
  - unfold unsubscribe. by destruct (connections m !! _).
  - by apply pool_order_ok_getOrCreate.
  - by apply pool_order_ok_disconnect.
  - by apply pool_order_ok_disconnectAll.
  - by apply pool_order_ok_turn.
  - by apply pool_order_ok_turn.
  - destruct (pool_fields_advance t m) as [Hc Ho].
    by apply (pool_order_ok_frame m).
Qed.

Lemma pool_order_ok_run cb_throws l :
  pool_order_ok (run cb_throws l empty_manager).
Proof.
  unfold run.
  assert (H0 : pool_order_ok empty_manager)
    by exact (pool_order_ok_clear empty_manager).
  revert H0. generalize empty_manager.
  induction l as [|a l IH]; intros m H0; simpl; [done|].
  apply IH. by apply pool_order_ok_step.
Qed.

(** *** Open sockets *)


Lemma pool_shrinks_handle cb_throws q h c data m :
  pool_shrinks m (handle cb_throws q h c data m).1.1.
Proof.
  intros key c'. destruct h as [| | |event|w|w]; simpl; try done.
  - unfold on_connect_error. destruct (heap _ !! c) as [conn|]; [|done].
    destruct (_ >=? _); [|done]. simpl. rewrite lookup_delete_Some. tauto.
  - destruct (heap m !! c) as [conn|]; [|done].
    destruct (listeners conn !! event) as [s|]; [|done].
    by destruct (forEach_listener cb_throws s data).
Qed.

Lemma open_except_update X c f m :
  keeps_open f → open_except X m → open_except X (update_conn c f m).
Proof.
  intros Hf Hopen key c' conn' Hkey. simpl. rewrite list_lookup_alter.
  destruct (decide (c = c')) as [->|Hne]; [|by apply (Hopen key)].
  destruct (heap m !! c') as [conn|] eqn:Hc; [|done].
  intros [= <-] HX. rewrite Hf. by apply (Hopen key c').
Qed.

Lemma open_except_frame X m m' :
  heap m' = heap m → connections m' = connections m →
  open_except X m → open_except X m'.
Proof. unfold open_except. by intros -> ->. Qed.


Lemma open_except_on_connect_error X c m :
  pool_ok m → open_except X m → open_except X (on_connect_error c m).
Proof.
  intros Hok Hopen. destruct (heap m !! c) as [conn|] eqn:Hc.
  - rewrite (on_connect_error_spec c m conn Hc). case_decide.
    + intros key c' conn'. simpl. rewrite lookup_delete_Some.
      intros [Hne Hkey]. destruct (decide (c = c')) as [->|Hcc].
      * destruct Hok as [_ Hpool].
        destruct (Hpool key c' Hkey) as (conn0 & Hc0 & Hk0).
        congruence.
      * rewrite list_lookup_alter_ne by done. by apply (Hopen key).
    + by apply open_except_update.
  - unfold on_connect_error.
    rewrite heap_update_conn, Hc. simpl. by apply open_except_update.
Qed.

Lemma open_except_handle cb_throws X q h c data m :
  pool_ok m → open_except X m →
  open_except X (handle cb_throws q h c data m).1.1.
Proof.
  intros Hok Hopen. destruct h as [| | |event|w|w]; simpl.
  - by apply open_except_update.
  - by apply open_except_update.
  - by apply open_except_on_connect_error.
  - destruct (heap m !! c) as [conn|]; [|done].
    destruct (listeners conn !! event) as [s|]; [|done].
    by destruct (forEach_listener cb_throws s data).
  - apply (open_except_frame X
             (update_conn c
                (with_socket (socket_off_one "connect" (WaitConnect w))) m));
      [done..|].
    by apply open_except_update.
  - apply (open_except_frame X
             (update_conn c
                (with_socket
                   (socket_off_one "connect_error" (WaitConnectError w))) m));
      [done..|].
    by apply open_except_update.
Qed.

Lemma open_except_resume X k c m :
  open_except X m → open_except X (resume k c m).1.
Proof.
  intros Hopen. destruct k as [|event callback|target event d]; [done| |].
  - apply open_except_update; [apply keeps_subscribe_on|done].
  - rewrite resume_publish. destruct (is_connected c m); [|done].
    destruct (decide (event ∈ reserved_events)); [done|].
    by apply open_except_update.
Qed.

Lemma open_except_run_microtask X x m :
  open_except X m → open_except X (run_microtask x m).
Proof.
  intros Hopen. unfold run_microtask, resolve, reject.
  destruct x.2; [by destruct (pending x.1 m)|].
  destruct (pending x.1 m) as [y|]; [|done].
  pose proof (open_except_resume X (w_cont y) (w_conn y) m Hopen) as Hr.
  destruct (resume (w_cont y) (w_conn y) m) as [m' o].
  by apply (open_except_frame X m').
Qed.

Lemma closing_handle cb_throws key c q h c0 data m :
  closing key c m → closing key c (handle cb_throws q h c0 data m).1.1.
Proof.
  intros (Hok & Hopen & Hkeys). split; [by apply pool_ok_handle|].
  split; [by apply open_except_handle|].
  intros key' Hkey'. apply Hkeys.
  by apply (pool_shrinks_handle cb_throws q h c0 data m).
Qed.

Lemma closing_run_microtask key c x m :
  closing key c m → closing key c (run_microtask x m).
Proof.
  intros (Hok & Hopen & Hkeys). split; [by apply pool_ok_run_microtask|].
  split; [by apply open_except_run_microtask|].
  destruct (pool_fields_run_microtask x m) as [-> _]. exact Hkeys.
Qed.

(** Callbacks that return on the reason of a 'disconnect' make the
    listeners of that event return. *)
Lemma handle_returns cb_throws q h c m :
  returns_on_disconnect cb_throws →
  (handle cb_throws q h c "io client disconnect" m).2 = false.
Proof.
  intros Hret. destruct h as [| | |event|w|w]; simpl; try done.
  destruct (heap m !! c) as [conn|]; [|done].
  destruct (listeners conn !! event) as [s|]; [|done].
  rewrite forEach_listener_all; [done|]. intros x _. apply Hret.
Qed.

Lemma handle_all_returns cb_throws q hs c m :
  returns_on_disconnect cb_throws →
  (handle_all cb_throws q hs c "io client disconnect" m).2 = false.
Proof.
  intros Hret. revert q m. induction hs as [|h hs IH]; intros q m; [done|].
  simpl. pose proof (handle_returns cb_throws q h c m Hret) as Hh.
  destruct (handle cb_throws q h c "io client disconnect" m)
    as [[m' q'] threw]; simpl in *. subst threw. apply IH.
Qed.

Lemma close_socket_returns cb_throws q c m :
  returns_on_disconnect cb_throws → (close_socket cb_throws q c m).2 = false.
Proof.
  intros Hret. unfold close_socket. destruct (heap m !! c) as [conn|]; [|done].
  destruct (sock_connected (socket conn)); [|done].
  unfold emit. destruct (heap _ !! c); [|done].
  by apply handle_all_returns.
Qed.

Lemma close_all_returns cb_throws cs q m :
  returns_on_disconnect cb_throws → (close_all cb_throws cs q m).2 = false.
Proof.
  intros Hret. revert q m. induction cs as [|c cs IH]; intros q m; [done|].
  simpl. pose proof (close_socket_returns cb_throws q c m Hret) as Hc.
  destruct (close_socket cb_throws q c m) as [[m' q'] threw]; simpl in *.
  subst threw. apply IH.
Qed.

Lemma pool_open_except m : pool_open m ↔ open_except (λ _, False) m.
Proof.
  unfold pool_open, open_except. split.
  - intros H key c conn Hk Hc _. by apply (H key c).
  - intros H key c conn Hk Hc. apply (H key c); [done|done|]. tauto.
Qed.

Lemma pool_open_turn cb_throws events m :
  pool_ok m → pool_open m → pool_open (turn cb_throws events m).
Proof.
  intros Hok Hopen. apply pool_open_except.
  cut (pool_ok (turn cb_throws events m)
       ∧ open_except (λ _, False) (turn cb_throws events m)); [tauto|].
  revert Hok Hopen. rewrite pool_open_except. intros Hok Hopen.
  apply (lift_turn cb_throws
           (λ m m', pool_ok m ∧ open_except (λ _, False) m →
                    pool_ok m' ∧ open_except (λ _, False) m'));
    try tauto.
  - intros q h c data m0 [H1 H2].
    split; [by apply pool_ok_handle|by apply open_except_handle].
  - intros c event m0 [H1 H2].
    split; [by apply pool_ok_update|by apply open_except_update].
  - intros x m0 [H1 H2].
    split; [by apply pool_ok_run_microtask|by apply open_except_run_microtask].
Qed.

Lemma closing_close_socket cb_throws key c q m :
  closing key c m → closing key c (close_socket cb_throws q c m).1.1.
Proof.
  intros H0. unfold close_socket.
  destruct (heap m !! c) as [conn|] eqn:Hc; [|done].
  assert (H1 : closing key c
                 (update_conn c (with_socket socket_disconnect) m)).
  { destruct H0 as (Hok & Hopen & Hkeys). split; [by apply pool_ok_update|].
    split; [|done]. intros key' c' conn' Hk. simpl.
    rewrite list_lookup_alter. destruct (decide (c = c')) as [->|Hne].
    - intros _ Hcc. by destruct Hcc.
    - intros Hc' Hcc. by apply (Hopen key' c'). }
  destruct (sock_connected (socket conn)); [|done].
  revert H1.
  apply (lift_emit cb_throws (λ m m', closing key c m → closing key c m'));
    try tauto.
  intros q0 h c0 data m0. apply closing_handle.
Qed.

Lemma pool_open_disconnect cb_throws url namespace m :
  returns_on_disconnect cb_throws → pool_ok m → pool_open m →
  pool_open (disconnect cb_throws url namespace m).1.
Proof.
  intros Hret Hok Hopen.
  destruct (connections m !! getConnectionKey url namespace) as [c|] eqn:Hkey;
    [|unfold disconnect; by rewrite Hkey].
  rewrite (disconnect_state _ _ _ _ c Hkey). cbn [fst].
  rewrite (close_socket_returns cb_throws [] c m Hret).
  set (key := getConnectionKey url namespace) in *.
  assert (H0 : closing key c m).
  { split; [done|]. split.
    - intros key' c' conn' Hk Hc _. by apply (Hopen key' c').
    - intros key' Hk. destruct Hok as [_ Hpool].
      destruct (Hpool key c Hkey) as (conn & Hc & Hk0).
      destruct (Hpool key' c Hk) as (conn' & Hc' & Hk'). congruence. }
  pose proof (closing_close_socket cb_throws key c [] m H0) as H1.
  apply pool_open_except.
  cut (open_except (λ _, False)
         (pool_delete key (close_socket cb_throws [] c m).1.1)).
  { apply (lift_run_microtasks
             (λ m m', open_except (λ _, False) m →
                      open_except (λ _, False) m')); try tauto.
    intros x m0. apply open_except_run_microtask. }
  destruct H1 as (Hok1 & Hopen1 & Hkeys1).
  intros key' c' conn'. simpl. rewrite lookup_delete_Some.
  intros [Hne Hk] Hc' _. apply (Hopen1 key' c' conn' Hk Hc').
  intros ->. apply Hne. symmetry. by apply Hkeys1.
Qed.

Lemma pool_open_disconnectAll cb_throws m :
  returns_on_disconnect cb_throws →
  pool_open (disconnectAll cb_throws m).1.
Proof.
  intros Hret. rewrite disconnectAll_state. cbn [fst].
  rewrite (close_all_returns cb_throws _ [] m Hret).
  intros key c conn.
  destruct (pool_fields_run_microtasks
              (close_all cb_throws (pool_records m) [] m).1.2
              (pool_clear (close_all cb_throws (pool_records m) [] m).1.1))
    as [-> _].
  simpl. by rewrite lookup_empty.
Qed.

(** When no callback throws on the reason, [disconnectAll] returns and
    leaves an empty pool, on which it does nothing. *)
Lemma disconnectAll_returns cb_throws m :
  returns_on_disconnect cb_throws →
  (disconnectAll cb_throws m).2 = false
  ∧ connections (disconnectAll cb_throws m).1 = ∅
  ∧ pool_order (disconnectAll cb_throws m).1 = []
  ∧ disconnectAll cb_throws (disconnectAll cb_throws m).1
    = ((disconnectAll cb_throws m).1, false).
Proof.
  intros Hret. rewrite disconnectAll_state. cbn [fst snd].
  rewrite (close_all_returns cb_throws _ [] m Hret).
  destruct (pool_fields_run_microtasks
              (close_all cb_throws (pool_records m) [] m).1.2
              (pool_clear (close_all cb_throws (pool_records m) [] m).1.1))
    as [Hc Ho].
  set (m' := run_microtasks (close_all cb_throws (pool_records m) [] m).1.2
               (pool_clear (close_all cb_throws (pool_records m) [] m).1.1))
    in *.
  simpl in Hc, Ho. do 3 (split; [done|]).
  unfold disconnectAll, pool_records. rewrite Ho. simpl.
  f_equal. destruct m'; simpl in *. by subst.
Qed.

Lemma open_connecting k url namespace options m :
  pool_open m → pool_open (connecting k url namespace options m).
Proof.
  intros Hopen key c conn. simpl. rewrite lookup_insert_Some.
  intros [[<- <-]|[Hne Hkey]].
  - rewrite lookup_app_r, Nat.sub_diag by lia. by intros [= <-].
  - intros [[_ Hc]|[-> <-]]%lookup_snoc_Some; [|done].
    by apply (Hopen key c).
Qed.

Lemma pool_open_update c f m :
  keeps_open f → pool_open m → pool_open (update_conn c f m).
Proof.
  intros Hf Hopen. apply pool_open_except, open_except_update; [done|].
  by apply pool_open_except.
Qed.

Lemma pool_open_resume k c m : pool_open m → pool_open (resume k c m).1.
Proof.
  intros Hopen. apply pool_open_except, open_except_resume.
  by apply pool_open_except.
Qed.

Lemma pool_open_getOrCreate k url namespace options m :
  pool_open m →
  pool_open (getOrCreateConnection k url namespace options m).1
  ∧ pool_open (connect_k k url namespace options m).1.
Proof.
  intros Hok.
  assert (Hc : pool_open (connect_k k url namespace options m).1).
  { destruct (existing_connected (getConnectionKey url namespace) m)
      as [c|] eqn:Hex.
    - unfold connect_k. rewrite Hex.
      pose proof (pool_open_resume k c m Hok) as Hr.
      by destruct (resume k c m).
    - rewrite connect_k_fresh by done. by apply open_connecting. }
  split; [|done]. unfold getOrCreateConnection.
  destruct (existing_connected (getConnectionKey url namespace) m) as [c|];
    [|done].
  pose proof (pool_open_resume k c m Hok) as Hr. by destruct (resume k c m).
Qed.

Lemma pool_open_on_timeout w m : pool_open m → pool_open (on_timeout w m).
Proof.
  intros Hok. unfold on_timeout. destruct (waits m !! w); [|done].
  destruct (reject_frame w (ConnectionTimeout (target_of m (w_conn w0)))
              (update_conn (w_conn w0)
                 (with_socket (λ s, socket_off "connect_error"
                                      (socket_off "connect" s))) m))
    as (Hc & Hh & _).
  intros key c conn. rewrite Hc, Hh.
  by apply (pool_open_update (w_conn w0) _ m).
Qed.

Lemma pool_open_advance t m : pool_open m → pool_open (advance t m).
Proof.
  intros Hok. unfold advance.
  assert (H0 : pool_open (with_now (Z.max (now m) t)
                            (with_timers (filter (λ x, ¬ (t_due x ≤ t))) m)))
    by exact Hok.
  revert H0. generalize (with_now (Z.max (now m) t)
                           (with_timers (filter (λ x, ¬ (t_due x ≤ t))) m)).
  induction (filter (λ x, t_due x ≤ t) (timers m)) as [|x l IH];
    intros m0 H0; simpl; [done|].
  apply IH. by apply pool_open_on_timeout.
Qed.

Lemma pool_open_step cb_throws a m :
  returns_on_disconnect cb_throws → pool_ok m → pool_open m →
  pool_open (step cb_throws a m).
Proof.
  intros Hret Hok Hopen.
  destruct a as [u n o|u n e cb o|u n e cb o|u n e d o|u n| |c e d|es|t];
    simpl.
  - by apply pool_open_getOrCreate.
  - by apply pool_open_getOrCreate.
  - unfold unsubscribe. destruct (connections m !! _); [|done].
    apply pool_open_update; [apply keeps_unsubscribe_on|done].
  - by apply pool_open_getOrCreate.
  - by apply pool_open_disconnect.
  - by apply pool_open_disconnectAll.
  - by apply pool_open_turn.
  - by apply pool_open_turn.
  - by apply pool_open_advance.
Qed.

Lemma pool_open_run cb_throws l :
  returns_on_disconnect cb_throws → pool_open (run cb_throws l empty_manager).
Proof.
  intros Hret.
  cut (pool_ok (run cb_throws l empty_manager)
       ∧ pool_open (run cb_throws l empty_manager)); [tauto|].
  unfold run.
  assert (H0 : pool_ok empty_manager ∧ pool_open empty_manager).
  { split; [apply pool_ok_empty|]. intros key c conn. simpl.
    by rewrite lookup_empty. }
  revert H0. generalize empty_manager.
  induction l as [|a l IH]; intros m [H1 H2]; simpl; [done|].
  apply IH. split; [by apply pool_ok_step|by apply pool_open_step].
Qed.


(** X13. In every state the manager reaches from its creation, whatever
    the callbacks do, every key of the pool leads to a record of the store
    whose URL followed by its namespace is that key and whose socket was
    opened on that address, and the iteration order of the pool lists the
    key.  When no callback throws on the reason of a 'disconnect' the
    manager asked for, the socket of that record has not been closed:
    [disconnect], [disconnectAll] and the eviction after repeated errors
    each remove what they close.  A callback subscribed to 'disconnect'
    that throws breaks this: [disconnect] of a connected record closes
    the socket and leaves the key in the pool. *)
Theorem pool_holds_open_sockets
    (cb_throws : Callback → Data → bool) (l : list Action)
    (key : string) (c : ConnId) :
  connections (run cb_throws l empty_manager) !! key = Some c →
  (∃ conn,
     heap (run cb_throws l empty_manager) !! c = Some conn
     ∧ url conn +:+ namespace conn = key
     ∧ sock_uri (socket conn) = key
     ∧ (returns_on_disconnect cb_throws → sock_closed (socket conn) = false))
  ∧ key ∈ pool_order (run cb_throws l empty_manager)
  ∧ (let m := run (throws_on 7%nat) example_run_thrower empty_manager in
     connections m !! "http://h:3000/" = Some 0%nat
     ∧ (sock_closed ∘ socket) <$> heap m !! 0%nat = Some true).
Proof.
  intros Hkey. destruct (pool_ok_run cb_throws l) as [Huri Hpool].
  destruct (Hpool key c Hkey) as (conn & Hc & Hk).
  split; [|split].
  - exists conn. split; [done|]. split; [done|]. split.
    + rewrite (Huri c conn Hc). exact Hk.
    + intros Hret. by apply (pool_open_run cb_throws l Hret key c).
  - apply (pool_order_ok_run cb_throws l). by exists c.
  - vm_compute. split; reflexivity.
Qed.

Lemma pool_holds_open_sockets_witness :
  ∃ conn,
    heap (run never_throws example_run empty_manager) !! 0%nat = Some conn
    ∧ url conn +:+ namespace conn = "http://h:3000/"
    ∧ sock_uri (socket conn) = "http://h:3000/"
    ∧ sock_closed (socket conn) = false.
Proof.
  assert (Hkey : connections (run never_throws example_run empty_manager)
                   !! "http://h:3000/" = Some 0%nat)
    by (vm_compute; reflexivity).
  destruct (pool_holds_open_sockets never_throws example_run "http://h:3000/"
              0%nat Hkey) as ((conn & Hc & Hu & Hs & Hopen) & _).
  exists conn. split; [exact Hc|]. split; [exact Hu|]. split; [exact Hs|].
  apply Hopen. intros cb. reflexivity.
Defined.

(** ** The deadline of a pending call *)

Lemma deadline_ok_quiet m m' : quiet_step m m' → deadline_ok m → deadline_ok m'.
Proof.
  intros (Hnow & Hback & Hkeep) Hok w x Hx Ho.
  destruct (Hok w x (Hback w x Hx Ho) Ho) as (t & Ht & <- & Hdue).
  exists t. split; [by apply (Hkeep t x)|]. split; [done|]. by rewrite Hnow.
Qed.

Lemma quiet_frame m m' :
  waits m' = waits m → timers m' = timers m → now m' = now m →
  quiet_step m m'.
Proof. intros Hw Ht Hn. unfold quiet_step. rewrite Hw, Ht, Hn. naive_solver. Qed.

Lemma quiet_trans m1 m2 m3 :
  quiet_step m1 m2 → quiet_step m2 m3 → quiet_step m1 m3.
Proof.
  intros (Hn1 & Hb1 & Hk1) (Hn2 & Hb2 & Hk2).
  split; [congruence|]. split.
  - intros w x Hx Ho. apply Hb1; [|done]. by apply Hb2.
  - intros t x Ht Hx Ho. apply (Hk2 t x); [|done..].
    apply (Hk1 t x); [done| |done]. by apply Hb2.
Qed.

Lemma quiet_settle w o m : quiet_step m (settle w o m).
Proof.
  split; [done|]. split; [|done].
  intros w' x. rewrite waits_settle.
  destruct (waits m !! w') as [y|]; simpl; [|done].
  case_decide; [by intros [= <-] ?|by intros [= <-]].
Qed.

Lemma settled_after_settle w o m x :
  waits (settle w o m) !! w = Some x → w_outcome x = Some o.
Proof.
  rewrite waits_settle. destruct (waits m !! w); simpl; [|done].
  rewrite decide_True by done. by intros [= <-].
Qed.

Lemma now_resume k c m : now (resume k c m).1 = now m.
Proof. apply resume_frame. Qed.

Lemma quiet_resume k c m : quiet_step m (resume k c m).1.
Proof.
  destruct (resume_keeps_pool k c m) as (_ & _ & Hw & Ht).
  apply quiet_frame; [done|done|apply now_resume].
Qed.

Lemma quiet_resolve w m :
  quiet_step m (resolve w m)
  ∧ ∀ x, waits (resolve w m) !! w = Some x → w_outcome x ≠ None.
Proof.
  unfold resolve, pending.
  destruct (waits m !! w) as [y|] eqn:Hy.
  - destruct (w_outcome y) eqn:Ho.
    + split; [by apply quiet_frame|]. intros x. rewrite Hy. intros [= <-].
      by rewrite Ho.
    + pose proof (quiet_resume (w_cont y) (w_conn y) m) as Hq.
      destruct (resume (w_cont y) (w_conn y) m) as [m' o]. simpl in Hq.
      split; [eapply quiet_trans; [exact Hq|apply quiet_settle]|].
      intros x Hx%settled_after_settle. by rewrite Hx.
  - split; [by apply quiet_frame|]. intros x. by rewrite Hy.
Qed.

Lemma quiet_reject w e m :
  quiet_step m (reject w e m)
  ∧ ∀ x, waits (reject w e m) !! w = Some x → w_outcome x ≠ None.
Proof.
  unfold reject, pending.
  destruct (waits m !! w) as [y|] eqn:Hy.
  - destruct (w_outcome y) eqn:Ho.
    + split; [by apply quiet_frame|]. intros x. rewrite Hy. intros [= <-].
      by rewrite Ho.
    + split; [apply quiet_settle|].
      intros x Hx%settled_after_settle. by rewrite Hx.
  - split; [by apply quiet_frame|]. intros x. by rewrite Hy.
Qed.

Lemma now_on_connect_error c m : now (on_connect_error c m) = now m.
Proof.
  unfold on_connect_error.
  destruct (heap (update_conn c _ m) !! c) as [conn|]; [|done].
  by destruct (_ >=? _).
Qed.

Lemma turn_quiet_handle cb_throws m q h c data m' :
  turn_quiet m m' q →
  turn_quiet m (handle cb_throws q h c data m').1.1
    (handle cb_throws q h c data m').1.2.
Proof.
  intros (Hn & Hw & Ht).
  assert (Hframe : ∀ m2, now m2 = now m' → waits m2 = waits m' →
                         timers m2 = timers m' → turn_quiet m m2 q).
  { intros m2 Hn2 Hw2 Ht2. split; [congruence|]. split; [congruence|].
    by rewrite Ht2. }
  assert (Hclear : ∀ w r f,
            turn_quiet m (clearTimeout w (update_conn c f m'))
              (settle_later w r q)).
  { intros w r f. split; [done|]. split; [done|]. intros t Hin.
    destruct (Ht t Hin) as [Hin'|Hq].
    - destruct (decide (t_wait t = w)) as [Heq|Hne].
      + right. apply elem_of_settle_later. by left.
      + left. simpl. by apply list_elem_of_filter.
    - right. apply elem_of_settle_later. by right. }
  destruct h as [| | |event|w|w]; simpl.
  - by apply Hframe.
  - by apply Hframe.
  - destruct (timers_waits_on_connect_error c m') as [Ht' Hw'].
    apply Hframe; [apply now_on_connect_error|done|done].
  - destruct (heap m' !! c) as [conn|]; [|by apply Hframe].
    destruct (listeners conn !! event) as [s|]; [|by apply Hframe].
    destruct (forEach_listener cb_throws s data). by apply Hframe.
  - apply Hclear.
  - apply Hclear.
Qed.

Lemma turn_quiet_update m m' q c f :
  turn_quiet m m' q → turn_quiet m (update_conn c f m') q.
Proof. intros H; exact H. Qed.

Lemma quiet_run_microtask x m :
  quiet_step m (run_microtask x m)
  ∧ ∀ y, waits (run_microtask x m) !! x.1 = Some y → w_outcome y ≠ None.
Proof.
  unfold run_microtask.
  destruct x.2; [apply quiet_reject|apply quiet_resolve].
Qed.

Lemma quiet_run_microtasks q m :
  quiet_step m (run_microtasks q m)
  ∧ ∀ w y, w ∈ q.*1 → waits (run_microtasks q m) !! w = Some y →
           w_outcome y ≠ None.
Proof.
  unfold run_microtasks. revert m.
  induction q as [|x q IH]; intros m; simpl.
  - split; [by apply quiet_frame|]. by intros w y ?%elem_of_nil.
  - destruct (quiet_run_microtask x m) as [Hq Hs].
    destruct (IH (run_microtask x m)) as [Hq' Hs'].
    split; [eapply quiet_trans; [exact Hq|exact Hq']|].
    intros w y [->|Hin]%elem_of_cons Hy; [|by apply (Hs' w y)].
    intros Ho. destruct Hq' as (_ & Hback & _).
    by apply (Hs y (Hback _ _ Hy Ho)).
Qed.

(** The microtasks at the end of the turn settle every promise whose
    timer the turn cleared. *)
Lemma quiet_after_turn m m' q :
  turn_quiet m m' q → quiet_step m (run_microtasks q m').
Proof.
  intros (Hn & Hw & Ht).
  destruct (quiet_run_microtasks q m') as [(Hn2 & Hb2 & Hk2) Hset].
  split; [congruence|]. split.
  - intros w x Hx Ho. rewrite <- Hw. by apply Hb2.
  - intros t x Hin Hx Ho. apply (Hk2 t x); [|done..].
    destruct (Ht t Hin) as [Hin'|Hq]; [done|].
    by destruct (Hset (t_wait t) x Hq Hx).
Qed.

Lemma turn_quiet_start m : turn_quiet m m [].
Proof. split; [done|]. split; [done|]. intros t Ht. by left. Qed.

Lemma turn_quiet_emit cb_throws m q c event data m' :
  turn_quiet m m' q →
  turn_quiet m (emit cb_throws q c event data m').1.1
    (emit cb_throws q c event data m').1.2.
Proof.
  apply (emit_ind cb_throws c event data (λ m' q, turn_quiet m m' q)).
  intros h q0 m0. apply turn_quiet_handle.
Qed.

Lemma quiet_turn cb_throws events m : quiet_step m (turn cb_throws events m).
Proof.
  rewrite turn_state. apply quiet_after_turn.
  apply (dispatch_ind cb_throws (λ m' q, turn_quiet m m' q)).
  - intros c event q0 m0. apply turn_quiet_update.
  - intros c event data q0 m0. apply turn_quiet_emit.
  - apply turn_quiet_start.
Qed.

Lemma quiet_receive cb_throws c event data m :
  quiet_step m (receive cb_throws c event data m).1.
Proof.
  rewrite receive_state. apply quiet_after_turn.
  apply turn_quiet_emit, turn_quiet_start.
Qed.

Lemma quiet_disconnect cb_throws url namespace m :
  quiet_step m (disconnect cb_throws url namespace m).1.
Proof.
  destruct (connections m !! getConnectionKey url namespace) as [c|] eqn:Hkey;
    [|unfold disconnect; rewrite Hkey; by apply quiet_frame].
  rewrite (disconnect_state _ _ _ _ c Hkey). cbn [fst].
  apply quiet_after_turn.
  assert (H1 : turn_quiet m (close_socket cb_throws [] c m).1.1
                 (close_socket cb_throws [] c m).1.2).
  { apply (close_socket_ind cb_throws (λ m' q, turn_quiet m m' q)).
    - intros c0 q0 m0. apply turn_quiet_update.
    - intros c0 q0 m0. apply turn_quiet_emit.
    - apply turn_quiet_start. }
  by destruct (close_socket cb_throws [] c m).2.
Qed.

Lemma quiet_disconnectAll cb_throws m :
  quiet_step m (disconnectAll cb_throws m).1.
Proof.
  rewrite disconnectAll_state. cbn [fst]. apply quiet_after_turn.
  assert (H1 : turn_quiet m (close_all cb_throws (pool_records m) [] m).1.1
                 (close_all cb_throws (pool_records m) [] m).1.2).
  { apply (close_all_ind cb_throws (λ m' q, turn_quiet m m' q)).
    - intros c0 q0 m0. apply turn_quiet_update.
    - intros c0 q0 m0. apply turn_quiet_emit.
    - apply turn_quiet_start. }
  by destruct (close_all cb_throws (pool_records m) [] m).2.
Qed.

Lemma deadline_ok_connecting k url namespace options m :
  deadline_ok m → deadline_ok (connecting k url namespace options m).
Proof.
  intros Hok w x. simpl.
  intros [[_ Hx]|[-> <-]]%lookup_snoc_Some Ho.
  - destruct (Hok w x Hx Ho) as (t & Ht & Hw & Hdue).
    exists t. split; [|done]. rewrite timer_insert_perm. by right.
  - eexists. split; [rewrite timer_insert_perm; left|]. simpl. split; [done|lia].
Qed.

Lemma deadline_ok_getOrCreate k url namespace options m :
  deadline_ok m →
  deadline_ok (getOrCreateConnection k url namespace options m).1
  ∧ deadline_ok (connect_k k url namespace options m).1.
Proof.
  intros Hok.
  assert (Hc : deadline_ok (connect_k k url namespace options m).1).
  { destruct (existing_connected (getConnectionKey url namespace) m)
      as [c|] eqn:Hex.
    - unfold connect_k. rewrite Hex.
      pose proof (quiet_resume k c m) as Hr.
      destruct (resume k c m). by apply (deadline_ok_quiet m).
    - rewrite connect_k_fresh by done. by apply deadline_ok_connecting. }
  split; [|done]. unfold getOrCreateConnection.
  destruct (existing_connected (getConnectionKey url namespace) m) as [c|];
    [|done].
  pose proof (quiet_resume k c m) as Hr.
  destruct (resume k c m). by apply (deadline_ok_quiet m).
Qed.

Lemma quiet_on_timeout w m :
  quiet_step m (on_timeout w m)
  ∧ ∀ x, waits (on_timeout w m) !! w = Some x → w_outcome x ≠ None.
Proof.
  unfold on_timeout. destruct (waits m !! w) as [y|] eqn:Hy.
  - destruct (quiet_reject w (ConnectionTimeout (target_of m (w_conn y)))
                (update_conn (w_conn y)
                   (with_socket (λ s, socket_off "connect_error"
                                        (socket_off "connect" s))) m))
      as [Hq Hs].
    split; [|done]. eapply quiet_trans; [|exact Hq]. by apply quiet_frame.
  - split; [by apply quiet_frame|]. intros x. by rewrite Hy.
Qed.

Lemma quiet_timeouts l m :
  quiet_step m (foldl (λ acc x, on_timeout (t_wait x) acc) m l)
  ∧ ∀ t x, t ∈ l →
      waits (foldl (λ acc x, on_timeout (t_wait x) acc) m l) !! t_wait t
      = Some x →
      w_outcome x ≠ None.
Proof.
  revert m. induction l as [|y l IH]; intros m; simpl.
  - split; [by apply quiet_frame|]. by intros t x ?%elem_of_nil.
  - destruct (quiet_on_timeout (t_wait y) m) as [Hq Hs].
    destruct (IH (on_timeout (t_wait y) m)) as [Hq' Hs'].
    split; [eapply quiet_trans; [exact Hq|exact Hq']|].
    intros t x [->|Hin]%elem_of_cons Hx; [|by apply (Hs' t x)].
    intros Ho. destruct Hq' as (_ & Hback & _).
    by apply (Hs x (Hback _ _ Hx Ho)).
Qed.

Lemma deadline_ok_advance t m : deadline_ok m → deadline_ok (advance t m).
Proof.
  intros Hok w x Hx Ho. unfold advance in *.
  set (m0 := with_now (Z.max (now m) t)
               (with_timers (filter (λ x, ¬ (t_due x ≤ t))) m)) in *.
  destruct (quiet_timeouts (filter (λ x, t_due x ≤ t) (timers m)) m0)
    as [(Hnow & Hback & Hkeep) Hset].
  pose proof (Hback w x Hx Ho) as Hx0.
  destruct (Hok w x Hx0 Ho) as (tm & Htm & Hw & Hdue).
  exists tm. split; [|split; [done|rewrite Hnow; simpl; lia]].
  apply (Hkeep tm x); [|by rewrite Hw|done].
  simpl. apply list_elem_of_filter. split; [|done].
  intros Hd. apply (Hset tm x); [by apply list_elem_of_filter| |done].
  by rewrite Hw.
Qed.

Lemma deadline_ok_step cb_throws a m :
  deadline_ok m → deadline_ok (step cb_throws a m).
Proof.
  intros Hok.
  destruct a as [u n o|u n e cb o|u n e cb o|u n e d o|u n| |c e d|es|t];
    simpl.
  - by apply deadline_ok_getOrCreate.
  - by apply deadline_ok_getOrCreate.
  - apply (deadline_ok_quiet m); [|done]. apply quiet_frame;
      unfold unsubscribe; by destruct (connections m !! _).
  - by apply deadline_ok_getOrCreate.
  - apply (deadline_ok_quiet m); [apply quiet_disconnect|done].
  - apply (deadline_ok_quiet m); [apply quiet_disconnectAll|done].
  - apply (deadline_ok_quiet m); [apply quiet_turn|done].
  - apply (deadline_ok_quiet m); [apply quiet_turn|done].
  - by apply deadline_ok_advance.
Qed.

Lemma deadline_ok_run cb_throws l :
  deadline_ok (run cb_throws l empty_manager).
Proof.
  unfold run.
  assert (H0 : deadline_ok empty_manager).
  { intros w x. simpl. by rewrite lookup_nil. }
  revert H0. generalize empty_manager.
  induction l as [|a l IH]; intros m H0; simpl; [done|].
  apply IH. by apply deadline_ok_step.
Qed.

Lemma on_timeout_other w' w m x :
  w' ≠ w → waits m !! w = Some x → waits (on_timeout w' m) !! w = Some x.
Proof.
  intros Hne Hx. unfold on_timeout.
  destruct (waits m !! w') as [y|]; [|done].
  unfold reject. destruct (pending w' _); [|done].
  rewrite waits_settle. simpl. rewrite Hx. simpl.
  by rewrite decide_False.
Qed.

Lemma target_of_on_timeout w m c :
  target_of (on_timeout w m) c = target_of m c.
Proof.
  unfold on_timeout. destruct (waits m !! w) as [y|]; [|done].
  generalize (ConnectionTimeout (target_of m (w_conn y))). intros e.
  unfold target_of.
  destruct (reject_frame w e
              (update_conn (w_conn y)
                 (with_socket (λ s, socket_off "connect_error"
                                      (socket_off "connect" s))) m))
    as (_ & -> & _).
  simpl. rewrite list_lookup_alter.
  destruct (decide (w_conn y = c)) as [->|Hne]; [|done].
  by destruct (heap m !! c).
Qed.

Lemma timeouts_reject l m w x tm :
  waits m !! w = Some x → w_outcome x = None → tm ∈ l → t_wait tm = w →
  ∃ x', waits (foldl (λ acc y, on_timeout (t_wait y) acc) m l) !! w = Some x'
        ∧ w_outcome x'
          = Some (Rejected (ConnectionTimeout (target_of m (w_conn x)))).
Proof.
  revert m. induction l as [|y l IH]; intros m Hx Ho Hin Hw;
    [by apply elem_of_nil in Hin|].
  simpl. destruct (decide (t_wait y = w)) as [Hy|Hy].
  - assert (Hset : ∃ x', waits (on_timeout (t_wait y) m) !! w = Some x'
                         ∧ w_outcome x'
                           = Some (Rejected
                                     (ConnectionTimeout
                                        (target_of m (w_conn x))))).
    { rewrite Hy. unfold on_timeout. rewrite Hx.
      unfold reject, pending. simpl. rewrite Hx, Ho.
      rewrite waits_settle. simpl. rewrite Hx. simpl.
      rewrite decide_True by done. by eexists. }
    destruct Hset as (x' & Hx' & Ho').
    destruct (promises_kept_timeouts l (on_timeout (t_wait y) m) w x' Hx')
      as (x'' & Hx'' & _ & _ & Hkeep).
    exists x''. split; [done|]. by apply Hkeep.
  - rewrite <- (target_of_on_timeout (t_wait y) m).
    apply IH; [by apply on_timeout_other|done| |done].
    apply elem_of_cons in Hin as [->|Hin]; [done|done].
Qed.

(** X25. No call waits past the deadline.  In every state the manager
    reaches, a promise that is still pending has its timer pending, due
    at most 5000 ms from now; when the clock reaches that point the call
    is rejected with the timeout error that names the URL and the
    namespace of its record, whatever other timers fire on the way. *)
Theorem pending_call_times_out
    (cb_throws : Callback → Data → bool) (l : list Action) (w : WaitId)
    (x : Wait) (t : Z) :
  let m := run cb_throws l empty_manager in
  waits m !! w = Some x → w_outcome x = None → now m + 5000 ≤ t →
  outcome_of (Awaiting w) (advance t m)
  = Some (Rejected (ConnectionTimeout (target_of m (w_conn x)))).
Proof.
  intros m Hx Ho Ht.
  destruct (deadline_ok_run cb_throws l w x Hx Ho) as (tm & Htm & Hw & Hdue).
  fold m in Htm, Hdue.
  destruct (timeouts_reject (filter (λ y, t_due y ≤ t) (timers m))
              (with_now (Z.max (now m) t)
                 (with_timers (filter (λ y, ¬ (t_due y ≤ t))) m))
              w x tm Hx Ho) as (x' & Hx' & Ho'); [|done|].
  { apply list_elem_of_filter. split; [lia|done]. }
  unfold advance. simpl. rewrite Hx'. simpl. exact Ho'.
Qed.

Lemma pending_call_times_out_witness :
  outcome_of (Awaiting 0%nat)
    (advance 5000
       (run never_throws [CallSubscribe "http://h:3000" "/" "x" 7%nat None]
          empty_manager))
  = Some (Rejected (ConnectionTimeout "http://h:3000/")).
Proof.
  eassert (Hx : waits (run never_throws
                         [CallSubscribe "http://h:3000" "/" "x" 7%nat None]
                         empty_manager) !! 0%nat = Some _)
    by (vm_compute; reflexivity).
  match type of Hx with
  | _ = Some ?x =>
      assert (Ho : w_outcome x = None) by reflexivity
  end.
  exact (pending_call_times_out never_throws
           [CallSubscribe "http://h:3000" "/" "x" 7%nat None] 0%nat _ 5000
           Hx Ho ltac:(vm_compute; discriminate)).
Defined.


(** ** [disconnect] and [disconnectAll] *)

Lemma with_state_same conn :
  with_state (reconnectAttempts conn) (connected conn) conn = conn.
Proof. by destruct conn. Qed.

Lemma flag_only_refl c m : flag_only c m m.
Proof.
  do 6 (split; [done|]). intros conn Hc. exists (connected conn).
  by rewrite with_state_same.
Qed.

Lemma flag_only_trans c m1 m2 m3 :
  flag_only c m1 m2 → flag_only c m2 m3 → flag_only c m1 m3.
Proof.
  intros (Ha1 & Ha2 & Ha3 & Ha4 & Ha5 & Ha6 & Ha7)
    (Hb1 & Hb2 & Hb3 & Hb4 & Hb5 & Hb6 & Hb7).
  split; [congruence|]. split; [congruence|]. split; [congruence|].
  split; [congruence|]. split; [congruence|]. split.
  - intros c' Hne. by rewrite Hb6, Ha6.
  - intros conn Hc. destruct (Ha7 conn Hc) as (b & Hb).
    destruct (Hb7 _ Hb) as (b' & Hb'). exists b'. by rewrite Hb'.
Qed.

Lemma flag_only_delivered c f m : flag_only c m (with_delivered f m).
Proof. exact (flag_only_refl c m). Qed.

(** On a record that satisfies the registry invariant nothing but the
    manager's 'disconnect' listener and the wire listener of that name
    listens to 'disconnect'. *)
Lemma handlers_of_disconnect conn h :
  registry_ok conn → h ∈ handlers_of "disconnect" (socket conn) →
  h = OnDisconnect ∨ h = FanOut "disconnect".
Proof.
  intros [Hwf _] Hin%elem_of_handlers_of. apply Hwf in Hin.
  destruct h; simpl in Hin; try discriminate; [by left|right; by subst].
Qed.

Lemma flag_only_handle cb_throws q h c data m :
  h = OnDisconnect ∨ h = FanOut "disconnect" →
  flag_only c m (handle cb_throws q h c data m).1.1
  ∧ (handle cb_throws q h c data m).1.2 = q.
Proof.
  intros [->| ->]; simpl.
  - split; [|done]. do 5 (split; [done|]). split.
    + intros c' Hne. by apply list_lookup_alter_ne.
    + intros conn Hc. exists false. simpl.
      by rewrite list_lookup_alter_eq, Hc.
  - destruct (heap m !! c) as [conn|]; [|split; [apply flag_only_refl|done]].
    destruct (listeners conn !! "disconnect") as [s|];
      [|split; [apply flag_only_refl|done]].
    destruct (forEach_listener cb_throws s data).
    split; [apply flag_only_delivered|done].
Qed.

Lemma flag_only_handle_all cb_throws q hs c data m :
  (∀ h, h ∈ hs → h = OnDisconnect ∨ h = FanOut "disconnect") →
  flag_only c m (handle_all cb_throws q hs c data m).1.1
  ∧ (handle_all cb_throws q hs c data m).1.2 = q.
Proof.
  intros Hhs.
  apply (handle_all_ind cb_throws hs c data
           (λ m' q', flag_only c m m' ∧ q' = q));
    [|split; [apply flag_only_refl|done]].
  intros h q0 m0 Hin [Hm0 ->].
  destruct (flag_only_handle cb_throws q h c data m0 (Hhs h Hin)) as [H1 H2].
  split; [by apply (flag_only_trans c m m0)|done].
Qed.

Lemma registry_ok_with_state a b conn :
  registry_ok conn → registry_ok (with_state a b conn).
Proof. intros H; exact H. Qed.

(** What [socket.disconnect()] does on a record that satisfies the
    registry invariant: the socket is closed, and nothing else moves but
    the flag of the record and the invocations made. *)
Lemma close_socket_spec cb_throws q c conn m :
  heap m !! c = Some conn → registry_ok conn →
  flag_only c (update_conn c (with_socket socket_disconnect) m)
    (close_socket cb_throws q c m).1.1
  ∧ (close_socket cb_throws q c m).1.2 = q
  ∧ (sock_connected (socket conn) = false →
     close_socket cb_throws q c m
     = (update_conn c (with_socket socket_disconnect) m, q, false)).
Proof.
  intros Hc Hok. unfold close_socket. rewrite Hc.
  destruct (sock_connected (socket conn));
    [|split; [apply flag_only_refl|done]].
  assert (Hc1 : heap (update_conn c (with_socket socket_disconnect) m) !! c
                = Some (with_socket socket_disconnect conn))
    by (by rewrite heap_update_conn, Hc).
  unfold emit. rewrite Hc1.
  destruct (flag_only_handle_all cb_throws q
              (handlers_of "disconnect"
                 (socket (with_socket socket_disconnect conn)))
              c "io client disconnect"
              (update_conn c (with_socket socket_disconnect) m))
    as [H1 H2].
  { intros h Hin. by apply (handlers_of_disconnect conn). }
  split; [done|]. split; [done|discriminate].
Qed.

Lemma closed_after_close_socket cb_throws q c conn m :
  heap m !! c = Some conn → registry_ok conn →
  ∃ b, heap (close_socket cb_throws q c m).1.1 !! c
       = Some (with_state (reconnectAttempts conn) b
                 (with_socket socket_disconnect conn)).
Proof.
  intros Hc Hok.
  destruct (close_socket_spec cb_throws q c conn m Hc Hok)
    as ((_ & _ & _ & _ & _ & _ & Hrec) & _).
  apply (Hrec (with_socket socket_disconnect conn)).
  by rewrite heap_update_conn, Hc.
Qed.

Lemma handle_all_silent cb_throws q hs c data m :
  (∀ h x, h ∈ hs → h ≠ FanOut x) →
  delivered (handle_all cb_throws q hs c data m).1.1 = delivered m
  ∧ (handle_all cb_throws q hs c data m).2 = false.
Proof.
  revert q m. induction hs as [|h hs IH]; intros q m Hno; [done|].
  cbn [handle_all].
  pose proof (handle_no_throw cb_throws q h c data m
                (λ x, Hno h x ltac:(by left))) as Hthrew.
  pose proof (delivered_handle cb_throws q h c data m
                (λ x, Hno h x ltac:(by left))) as Hd.
  destruct (handle cb_throws q h c data m) as [[m' q'] threw]; simpl in *.
  subst threw. rewrite <- Hd. apply IH. intros h' x Hin. apply Hno. by right.
Qed.

(** What the listeners of an event deliver on a record that satisfies the
    registry invariant, inside a turn: what the [forEach] over the set of
    the event delivers, and nothing for an event without entry. *)
Lemma emit_deliveries cb_throws q c conn event data m :
  heap m !! c = Some conn → registry_ok conn →
  match listeners conn !! event with
  | Some s =>
      delivered (emit cb_throws q c event data m).1.1
      = delivered m ++ (forEach_listener cb_throws s data).1
      ∧ (emit cb_throws q c event data m).2
        = (forEach_listener cb_throws s data).2
  | None =>
      delivered (emit cb_throws q c event data m).1.1 = delivered m
      ∧ (emit cb_throws q c event data m).2 = false
  end.
Proof.
  intros Hc [Hwf Hreg]. specialize (Hreg event). unfold emit. rewrite Hc.
  assert (Hfan : ∀ h x, h ∈ handlers_of event (socket conn) →
                        h = FanOut x → x = event).
  { intros h x Hin%elem_of_handlers_of ->. by apply Hwf in Hin. }
  destruct (listeners conn !! event) as [s|] eqn:Hs.
  - destruct Hreg as (_ & _ & Hw).
    destruct (handle_all_deliveries cb_throws event s c data
                (handlers_of event (socket conn)) Hfan q m
                ltac:(by exists conn)) as [_ Hone].
    by apply Hone.
  - apply handle_all_silent. intros h x Hin ->.
    pose proof (Hfan _ _ Hin eq_refl) as ->.
    unfold wire_listeners in Hreg. apply length_zero_iff_nil in Hreg.
    assert (Hf : FanOut event
                 ∈ filter (λ h, h = FanOut event)
                     (handlers_of event (socket conn)))
      by (by apply list_elem_of_filter).
    rewrite Hreg in Hf. by apply elem_of_nil in Hf.
Qed.

Lemma flag_after_disconnect_listener cb_throws q h c data m :
  h = OnDisconnect ∨ h = FanOut "disconnect" →
  is_connected c m = false ∨ h = OnDisconnect →
  is_connected c (handle cb_throws q h c data m).1.1 = false.
Proof.
  intros [->| ->] Hflag; simpl.
  - unfold is_connected. simpl. rewrite list_lookup_alter_eq.
    by destruct (heap m !! c).
  - destruct Hflag as [Hflag|]; [|done].
    destruct (heap m !! c) as [conn|] eqn:Hc; [|done].
    destruct (listeners conn !! "disconnect") as [s|]; [|done].
    destruct (forEach_listener cb_throws s data). exact Hflag.
Qed.

Lemma flag_stays_clear cb_throws q hs c data m :
  (∀ h, h ∈ hs → h = OnDisconnect ∨ h = FanOut "disconnect") →
  is_connected c m = false →
  is_connected c (handle_all cb_throws q hs c data m).1.1 = false.
Proof.
  intros Hhs.
  apply (handle_all_ind cb_throws hs c data
           (λ m' _, is_connected c m' = false)).
  intros h q0 m0 Hin Hm0.
  apply flag_after_disconnect_listener; [by apply Hhs|by left].
Qed.

(** The manager's 'disconnect' listener clears the flag, when the round
    of the listeners is not cut short by an exception. *)
Lemma flag_cleared cb_throws q hs c data m :
  (∀ h, h ∈ hs → h = OnDisconnect ∨ h = FanOut "disconnect") →
  OnDisconnect ∈ hs →
  (handle_all cb_throws q hs c data m).2 = false →
  is_connected c (handle_all cb_throws q hs c data m).1.1 = false.
Proof.
  revert q m. induction hs as [|h hs IH]; intros q m Hhs Hin;
    [by apply elem_of_nil in Hin|].
  cbn [handle_all].
  assert (Hhs' : ∀ h', h' ∈ hs → h' = OnDisconnect ∨ h' = FanOut "disconnect")
    by (intros h' Hh'; apply Hhs; by right).
  pose proof (flag_after_disconnect_listener cb_throws q h c data m
                (Hhs h ltac:(by left))) as Hflag.
  destruct (handle cb_throws q h c data m) as [[m' q'] threw]; simpl in *.
  destruct threw; [discriminate|]. intros Hno.
  destruct (decide (h = OnDisconnect)) as [->|Hne].
  - apply flag_stays_clear; [done|]. apply Hflag. by right.
  - apply IH; [done| |done].
    apply elem_of_cons in Hin as [<-|Hin]; [done|done].
Qed.

Lemma disconnect_on_record cb_throws url namespace m c conn :
  connections m !! getConnectionKey url namespace = Some c →
  heap m !! c = Some conn → registry_ok conn →
  disconnect cb_throws url namespace m
  = (if (close_socket cb_throws [] c m).2
     then (close_socket cb_throws [] c m).1.1
     else pool_delete (getConnectionKey url namespace)
            (close_socket cb_throws [] c m).1.1,
     (close_socket cb_throws [] c m).2).
Proof.
  intros Hkey Hc Hok. rewrite (disconnect_state _ _ _ _ c Hkey).
  destruct (close_socket_spec cb_throws [] c conn m Hc Hok) as (_ & -> & _).
  reflexivity.
Qed.

(** X1. [disconnect] of a key whose record satisfies the registry
    invariant closes that record's socket and touches no other record, no
    promise and no timer.  On a socket that is not connected nothing is
    raised: the key is removed, and only that key.  On a connected socket
    the client raises 'disconnect' inside the call: the callbacks
    subscribed to 'disconnect' are invoked with the reason, in order,
    until one throws, and the manager's own listener clears the flag.
    When a callback throws, the exception leaves [disconnect] before the
    key is removed: the pool is as it was, with a closed socket under the
    key.  When none does, the key is removed, only that key, and a second
    [disconnect] changes nothing.  Callbacks that return on the reason
    make [disconnect] return. *)
Theorem disconnect_removes_only_its_key
    (cb_throws : Callback → Data → bool) (url namespace : string)
    (m : SocketManager) (c : ConnId) (conn : SocketConnection) :
  connections m !! getConnectionKey url namespace = Some c →
  heap m !! c = Some conn → registry_ok conn →
  let r := disconnect cb_throws url namespace m in
  let key := getConnectionKey url namespace in
  (sock_closed ∘ socket) <$> heap r.1 !! c = Some true
  ∧ (∀ c', c' ≠ c → heap r.1 !! c' = heap m !! c')
  ∧ waits r.1 = waits m
  ∧ timers r.1 = timers m
  ∧ (r.2 = false →
     connections r.1 = delete key (connections m)
     ∧ disconnect cb_throws url namespace r.1 = (r.1, false))
  ∧ (r.2 = true → connections r.1 = connections m)
  ∧ (sock_connected (socket conn) = false →
     r = (pool_delete key (update_conn c (with_socket socket_disconnect) m),
          false))
  ∧ (sock_connected (socket conn) = true →
     match listeners conn !! "disconnect" with
     | Some s =>
         new_deliveries m r.1
         = (forEach_listener cb_throws s "io client disconnect").1
         ∧ r.2 = (forEach_listener cb_throws s "io client disconnect").2
     | None => new_deliveries m r.1 = [] ∧ r.2 = false
     end
     ∧ (r.2 = false →
        OnDisconnect ∈ handlers_of "disconnect" (socket conn) →
        is_connected c r.1 = false))
  ∧ (returns_on_disconnect cb_throws → r.2 = false).
Proof.
  intros Hkey Hc Hok r key.
  assert (Hr : r = (if (close_socket cb_throws [] c m).2
                    then (close_socket cb_throws [] c m).1.1
                    else pool_delete key (close_socket cb_throws [] c m).1.1,
                    (close_socket cb_throws [] c m).2))
    by (by apply (disconnect_on_record _ _ _ _ c conn)).
  destruct (close_socket_spec cb_throws [] c conn m Hc Hok)
    as ((H1 & H2 & H3 & H4 & H5 & H6 & H7) & _ & Hidle).
  destruct (closed_after_close_socket cb_throws [] c conn m Hc Hok)
    as (b & Hrec).
  set (m1 := (close_socket cb_throws [] c m).1.1) in *.
  set (threw := (close_socket cb_throws [] c m).2) in *.
  assert (Hheap : heap r.1 = heap m1) by (rewrite Hr; by destruct threw).
  assert (Hthrew : r.2 = threw) by (by rewrite Hr).
  split; [by rewrite Hheap, Hrec|].
  split.
  { intros c' Hne. rewrite Hheap, H6 by done. by apply heap_update_conn_ne. }
  split; [rewrite Hr; by destruct threw|].
  split; [rewrite Hr; by destruct threw|].
  split.
  { rewrite Hthrew. intros Hno. rewrite Hr, Hno. cbn [fst].
    split; [simpl; by rewrite H1|].
    unfold disconnect. simpl. fold key. by rewrite H1, lookup_delete_eq. }
  split; [rewrite Hthrew; intros Hyes; rewrite Hr, Hyes; cbn [fst]; done|].
  split.
  { intros Hidle'. rewrite Hr. unfold threw, m1. by rewrite (Hidle Hidle'). }
  split.
  - intros Hlive.
    assert (Hclose : close_socket cb_throws [] c m
                     = emit cb_throws [] c "disconnect" "io client disconnect"
                         (update_conn c (with_socket socket_disconnect) m)).
    { unfold close_socket. by rewrite Hc, Hlive. }
    assert (Hc1 : heap (update_conn c (with_socket socket_disconnect) m) !! c
                  = Some (with_socket socket_disconnect conn))
      by (by rewrite heap_update_conn, Hc).
    pose proof (emit_deliveries cb_throws [] c _ "disconnect"
                  "io client disconnect" _ Hc1 Hok) as Hdel.
    rewrite <- Hclose in Hdel. fold m1 threw in Hdel.
    assert (Hd : delivered r.1 = delivered m1)
      by (rewrite Hr; by destruct threw).
    split.
    + unfold new_deliveries. rewrite Hd, Hthrew.
      change (listeners (with_socket socket_disconnect conn))
        with (listeners conn) in Hdel.
      destruct (listeners conn !! "disconnect") as [s|].
      * destruct Hdel as [-> ->]. split; [|done].
        change (delivered (update_conn c (with_socket socket_disconnect) m))
          with (delivered m).
        by rewrite drop_app_length.
      * destruct Hdel as [-> ->]. split; [|done].
        change (delivered (update_conn c (with_socket socket_disconnect) m))
          with (delivered m).
        by rewrite drop_all.
    + rewrite Hthrew. intros Hno Hon.
      assert (Hflag : is_connected c m1 = false).
      { unfold m1. rewrite Hclose. unfold emit. rewrite Hc1.
        apply flag_cleared.
        - intros h Hin. by apply (handlers_of_disconnect conn).
        - exact Hon.
        - unfold threw in Hno. rewrite Hclose in Hno. unfold emit in Hno.
          by rewrite Hc1 in Hno. }
      unfold is_connected. rewrite Hheap. exact Hflag.
  - intros Hret. rewrite Hthrew. by apply close_socket_returns.
Qed.

Lemma disconnect_removes_only_its_key_witness :
  let r := disconnect never_throws "http://h:3000" "/" example_connected in
  r.2 = false
  ∧ connections r.1 !! getConnectionKey "http://h:3000" "/" = None
  ∧ (sock_closed ∘ socket) <$> heap r.1 !! 0%nat = Some true
  ∧ is_connected 0%nat r.1 = false
  ∧ disconnect never_throws "http://h:3000" "/" r.1 = (r.1, false).
Proof.
  intros r.
  assert (Hkey : connections example_connected
                   !! getConnectionKey "http://h:3000" "/" = Some 0%nat)
    by (vm_compute; reflexivity).
  eassert (Hc : heap example_connected !! 0%nat = Some _)
    by (vm_compute; reflexivity).
  match type of Hc with
  | _ = Some ?conn =>
      assert (Hok : registry_ok conn)
        by (apply (reachable_registry_ok never_throws example_run_connected
                     0%nat);
            vm_compute; reflexivity)
  end.
  destruct (disconnect_removes_only_its_key never_throws "http://h:3000" "/"
              example_connected 0%nat _ Hkey Hc Hok)
    as (Hclosed & _ & _ & _ & Hno & _ & _ & Hlive & Hret).
  assert (Hthrew : r.2 = false) by (apply Hret; intros cb; reflexivity).
  destruct (Hno Hthrew) as [Hcs Hagain].
  destruct Hlive as [_ Hflag]; [vm_compute; reflexivity|].
  split; [exact Hthrew|].
  split; [unfold r; rewrite Hcs; apply lookup_delete_eq|].
  split; [exact Hclosed|]. split; [|exact Hagain].
  apply Hflag; [exact Hthrew|]. vm_compute. repeat constructor.
Defined.

(** [socket.disconnect()] on one record of a manager that satisfies the
    registry invariant. *)
Lemma close_socket_step cb_throws q c m :
  all_registry_ok m →
  (close_socket cb_throws q c m).1.2 = q
  ∧ connections (close_socket cb_throws q c m).1.1 = connections m
  ∧ pool_order (close_socket cb_throws q c m).1.1 = pool_order m
  ∧ waits (close_socket cb_throws q c m).1.1 = waits m
  ∧ timers (close_socket cb_throws q c m).1.1 = timers m
  ∧ all_registry_ok (close_socket cb_throws q c m).1.1
  ∧ (∀ c', c' ≠ c →
       heap (close_socket cb_throws q c m).1.1 !! c' = heap m !! c')
  ∧ (sock_closed ∘ socket) <$> heap (close_socket cb_throws q c m).1.1 !! c
    = (λ _, true) <$> heap m !! c.
Proof.
  intros Hm. destruct (heap m !! c) as [conn|] eqn:Hc.
  - pose proof (Hm c conn Hc) as Hok.
    destruct (close_socket_spec cb_throws q c conn m Hc Hok)
      as ((H1 & H2 & H3 & H4 & H5 & H6 & H7) & Hq & _).
    destruct (closed_after_close_socket cb_throws q c conn m Hc Hok)
      as (b & Hrec).
    do 5 (split; [done|]). split; [|split].
    + intros c' conn'. destruct (decide (c' = c)) as [->|Hne].
      * rewrite Hrec. by intros [= <-].
      * rewrite H6, heap_update_conn_ne by done. apply Hm.
    + intros c' Hne. rewrite H6 by done. by apply heap_update_conn_ne.
    + by rewrite Hrec.
  - unfold close_socket. rewrite Hc. simpl. rewrite Hc.
    do 5 (split; [done|]). split; [done|]. split; done.
Qed.

Lemma close_socket_throws cb_throws q c m :
  (close_socket cb_throws q c m).2 = true → is_Some (heap m !! c).
Proof.
  unfold close_socket. destruct (heap m !! c) as [conn|]; [by eauto|done].
Qed.

(** The [forEach] of [disconnectAll] over the records [cs]. *)
Lemma close_all_spec cb_throws cs q m :
  all_registry_ok m →
  (close_all cb_throws cs q m).1.2 = q
  ∧ connections (close_all cb_throws cs q m).1.1 = connections m
  ∧ pool_order (close_all cb_throws cs q m).1.1 = pool_order m
  ∧ waits (close_all cb_throws cs q m).1.1 = waits m
  ∧ timers (close_all cb_throws cs q m).1.1 = timers m
  ∧ (∀ c, c ∉ cs → heap (close_all cb_throws cs q m).1.1 !! c = heap m !! c)
  ∧ (∀ c, (λ _, true) <$> heap (close_all cb_throws cs q m).1.1 !! c
          = (λ _, true) <$> heap m !! c)
  ∧ (∀ c, (sock_closed ∘ socket) <$> heap m !! c = Some true →
          (sock_closed ∘ socket) <$> heap (close_all cb_throws cs q m).1.1 !! c
          = Some true)
  ∧ ((close_all cb_throws cs q m).2 = false →
     ∀ c, c ∈ cs →
       (sock_closed ∘ socket) <$> heap (close_all cb_throws cs q m).1.1 !! c
       = (λ _, true) <$> heap m !! c)
  ∧ ((close_all cb_throws cs q m).2 = true →
     ∃ c, c ∈ cs
          ∧ (sock_closed ∘ socket)
              <$> heap (close_all cb_throws cs q m).1.1 !! c
            = Some true).
Proof.
  revert q m. induction cs as [|c cs IH]; intros q m Hm.
  { simpl. do 8 (split; [done|]). split; [|done].
    by intros _ c ?%elem_of_nil. }
  cbn [close_all].
  destruct (close_socket_step cb_throws q c m Hm)
    as (Hq & H1 & H2 & H3 & H4 & Hreg & Hother & Hclosed).
  assert (Hdom : ∀ c', (λ _, true)
                         <$> heap (close_socket cb_throws q c m).1.1 !! c'
                       = (λ _, true) <$> heap m !! c').
  { intros c'. destruct (decide (c' = c)) as [->|Hne]; [|by rewrite Hother].
    clear -Hclosed.
    by destruct (heap (close_socket cb_throws q c m).1.1 !! c),
      (heap m !! c). }
  assert (Hmono : ∀ c', (sock_closed ∘ socket) <$> heap m !! c' = Some true →
                        (sock_closed ∘ socket)
                          <$> heap (close_socket cb_throws q c m).1.1 !! c'
                        = Some true).
  { intros c' Hc'. destruct (decide (c' = c)) as [->|Hne];
      [|by rewrite Hother].
    rewrite Hclosed. by destruct (heap m !! c). }
  pose proof (close_socket_throws cb_throws q c m) as Hsome.
  destruct (close_socket cb_throws q c m) as [[m1 q1] threw]; simpl in *.
  subst q1. destruct threw.
  - simpl. do 5 (split; [done|]). split.
    { intros c' Hnot. apply Hother. intros ->. apply Hnot. by left. }
    split; [done|]. split; [done|]. split; [done|].
    intros _. exists c. split; [by left|].
    rewrite Hclosed. by destruct (Hsome eq_refl) as [conn ->].
  - destruct (IH q m1 Hreg)
      as (Iq & I1 & I2 & I3 & I4 & Iother & Idom & Imono & Ino & Iyes).
    split; [done|]. split; [congruence|]. split; [congruence|].
    split; [congruence|]. split; [congruence|]. split.
    { intros c' Hnot. rewrite Iother, Hother; [done| |].
      - intros ->. apply Hnot. by left.
      - intros Hin. apply Hnot. by right. }
    split; [intros c'; by rewrite Idom|].
    split; [intros c' Hc'; by apply Imono, Hmono|].
    split.
    + intros Hno c' [->|Hin]%elem_of_cons.
      * destruct (heap m !! c) as [conn|] eqn:Hc.
        -- apply Imono. by rewrite Hclosed.
        -- specialize (Idom c). rewrite Hdom, Hc in Idom. simpl in *.
           by destruct (heap (close_all cb_throws cs q m1).1.1 !! c).
      * rewrite (Ino Hno c' Hin). apply Hdom.
    + intros Hyes. destruct (Iyes Hyes) as (c' & Hin & Hc').
      exists c'. split; [by right|exact Hc'].
Qed.

Lemma elem_of_pool_records m c :
  pool_order_ok m →
  c ∈ pool_records m ↔ ∃ key, connections m !! key = Some c.
Proof.
  intros [_ Hkeys]. unfold pool_records. rewrite list_elem_of_omap. split.
  - intros (key & _ & Hkey). by exists key.
  - intros (key & Hkey). exists key. split; [|done]. apply Hkeys. by exists c.
Qed.

(** X2. On a manager whose records satisfy the registry invariant,
    [disconnectAll] closes the sockets of the pool in the order of the
    pool and touches no record outside the pool, no promise and no timer.
    Each connected socket raises 'disconnect' inside the call.  When no
    callback throws, every socket of the pool is closed and the pool is
    emptied; a second [disconnectAll] then changes nothing.  When a
    callback subscribed to 'disconnect' throws, the exception leaves
    [disconnectAll] before the pool is cleared: every key is still there,
    and at least one of them leads to a closed socket.  Callbacks that
    return on the reason make [disconnectAll] return. *)
Theorem disconnectAll_closes_the_pool
    (cb_throws : Callback → Data → bool) (m : SocketManager) :
  all_registry_ok m → pool_order_ok m →
  let r := disconnectAll cb_throws m in
  (r.2 = false →
   connections r.1 = ∅
   ∧ (∀ key c, connections m !! key = Some c →
               (sock_closed ∘ socket) <$> heap r.1 !! c
               = (λ _, true) <$> heap m !! c)
   ∧ disconnectAll cb_throws r.1 = (r.1, false))
  ∧ (r.2 = true →
     connections r.1 = connections m
     ∧ ∃ key c, connections m !! key = Some c
                ∧ (sock_closed ∘ socket) <$> heap r.1 !! c = Some true)
  ∧ (∀ c, (∀ key, connections m !! key ≠ Some c) →
          heap r.1 !! c = heap m !! c)
  ∧ waits r.1 = waits m
  ∧ timers r.1 = timers m
  ∧ (returns_on_disconnect cb_throws → r.2 = false).
Proof.
  intros Hm Horder r.
  destruct (close_all_spec cb_throws (pool_records m) [] m Hm)
    as (Hq & H1 & H2 & H3 & H4 & Hother & _ & _ & Hno & Hyes).
  assert (Hr : r = (if (close_all cb_throws (pool_records m) [] m).2
                    then (close_all cb_throws (pool_records m) [] m).1.1
                    else pool_clear
                           (close_all cb_throws (pool_records m) [] m).1.1,
                    (close_all cb_throws (pool_records m) [] m).2)).
  { unfold r. rewrite disconnectAll_state. by rewrite Hq. }
  set (m1 := (close_all cb_throws (pool_records m) [] m).1.1) in *.
  set (threw := (close_all cb_throws (pool_records m) [] m).2) in *.
  assert (Hheap : heap r.1 = heap m1) by (rewrite Hr; by destruct threw).
  assert (Hthrew : r.2 = threw) by (by rewrite Hr).
  split; [|split; [|split; [|split; [|split]]]].
  - rewrite Hthrew. intros Hnot. rewrite Hr, Hnot. cbn [fst].
    split; [done|]. split.
    + intros key c Hkey. apply (Hno Hnot).
      apply elem_of_pool_records; [done|]. by exists key.
    + reflexivity.
  - rewrite Hthrew. intros Hthrown. rewrite Hr, Hthrown. cbn [fst].
    split; [done|]. destruct (Hyes Hthrown) as (c & Hin & Hc).
    apply elem_of_pool_records in Hin as (key & Hkey); [|done].
    by exists key, c.
  - intros c Hnot. rewrite Hheap. apply Hother.
    intros (key & Hkey)%elem_of_pool_records; [|done]. by apply (Hnot key).
  - rewrite Hr. by destruct threw.
  - rewrite Hr. by destruct threw.
  - intros Hret. rewrite Hthrew. by apply close_all_returns.
Qed.

Lemma disconnectAll_closes_the_pool_witness :
  let r := disconnectAll never_throws example_three_subscribers in
  r.2 = false
  ∧ connections r.1 = ∅
  ∧ (sock_closed ∘ socket) <$> heap r.1 !! 0%nat = Some true
  ∧ disconnectAll never_throws r.1 = (r.1, false).
Proof.
  intros r.
  assert (Hrun : example_three_subscribers
                 = run never_throws example_run empty_manager)
    by (vm_compute; reflexivity).
  assert (Hm : all_registry_ok example_three_subscribers).
  { rewrite Hrun. apply (manager_ok_run never_throws example_run). }
  assert (Horder : pool_order_ok example_three_subscribers).
  { rewrite Hrun. apply pool_order_ok_run. }
  destruct (disconnectAll_closes_the_pool never_throws
              example_three_subscribers Hm Horder)
    as (Hno & _ & _ & _ & _ & Hret).
  assert (Hthrew : r.2 = false) by (apply Hret; intros cb; reflexivity).
  destruct (Hno Hthrew) as (Hempty & Hclosed & Hagain).
  split; [exact Hthrew|]. split; [exact Hempty|]. split; [|exact Hagain].
  assert (Hkey : connections example_three_subscribers !! "http://h:3000/"
                 = Some 0%nat) by (vm_compute; reflexivity).
  unfold r. rewrite (Hclosed _ _ Hkey). vm_compute. reflexivity.
Defined.

(** ** Keys *)

Lemma string_app_cons a (x y : string) :
  String a x +:+ y = String a (x +:+ y).
Proof. reflexivity. Qed.

Lemma string_app_assoc (x y z : string) :
  (x +:+ y) +:+ z = x +:+ (y +:+ z).
Proof.
  induction x as [|a x IH]; [done|].
  rewrite !string_app_cons. by rewrite IH.
Qed.

(** C9. The key of a pair is the concatenation of its URL and its
    namespace, and the pool is keyed by it: a [connect] that opens a
    socket registers the new record under the concatenation and under no
    other key.  So two pairs have one key exactly when their
    concatenations are equal, which distinct pairs can be: moving a part
    of the URL to the front of the namespace keeps the key, as with
    [('http://h/a', '/b')] and [('http://h', '/a/b')].  Two pairs with
    equal concatenations name the same record: [unsubscribe] and
    [disconnect] act alike under either pair, and while the record is
    connected so do [connect], [subscribe] and [publish]; a [subscribe]
    under one pair writes the record found under the other, and a
    [disconnect] under one pair that returns removes the other's record
    from the pool. *)
Theorem key_collision :
  (∀ u n, getConnectionKey u n = u +:+ n)
  ∧ (∀ u1 n1 u2 n2,
       getConnectionKey u1 n1 = getConnectionKey u2 n2
       ↔ u1 +:+ n1 = u2 +:+ n2)
  ∧ (∀ k u n o m,
       existing_connected (u +:+ n) m = None →
       connections (connect_k k u n o m).1
       = <[u +:+ n := length (heap m)]> (connections m))
  ∧ (∀ u a n, getConnectionKey (u +:+ a) n = getConnectionKey u (a +:+ n))
  ∧ (("http://h/a", "/b") ≠ ("http://h", "/a/b")
     ∧ getConnectionKey "http://h/a" "/b" = getConnectionKey "http://h" "/a/b"
     ∧ getConnectionKey "http://h/a" "/b" ≠ getConnectionKey "http://h/a" "/c")
  ∧ ∀ u1 n1 u2 n2 m,
      u1 +:+ n1 = u2 +:+ n2 →
      get_connection (getConnectionKey u1 n1) m
      = get_connection (getConnectionKey u2 n2) m
      ∧ (∀ e cb o1 o2,
           unsubscribe u1 n1 e cb o1 m = unsubscribe u2 n2 e cb o2 m)
      ∧ (∀ cb_throws,
           disconnect cb_throws u1 n1 m = disconnect cb_throws u2 n2 m
           ∧ ((disconnect cb_throws u2 n2 m).2 = false →
              connections (disconnect cb_throws u2 n2 m).1
                !! getConnectionKey u1 n1 = None))
      ∧ ∀ c,
          existing_connected (getConnectionKey u1 n1) m = Some c →
          ∀ o1 o2,
            connect u1 n1 o1 m = connect u2 n2 o2 m
            ∧ connect u2 n2 o2 m = (m, Settled (Resolved c))
            ∧ (∀ e cb,
                 subscribe u1 n1 e cb o1 m = subscribe u2 n2 e cb o2 m
                 ∧ subscribe u2 n2 e cb o2 m
                   = (update_conn c (subscribe_on e cb) m,
                      Settled (Resolved c)))
            ∧ ∀ e d, publish u1 n1 e d o1 m = publish u2 n2 e d o2 m.
Proof.
  split; [done|]. split; [done|]. split.
  { intros k u n o m Hex. by rewrite connect_k_fresh. }
  split; [intros u a n; apply string_app_assoc|].
  split; [split; [discriminate|split; [reflexivity|discriminate]]|].
  intros u1 n1 u2 n2 m Hcat.
  assert (Hkey : getConnectionKey u1 n1 = getConnectionKey u2 n2)
    by exact Hcat.
  split; [by rewrite Hkey|].
  split; [intros; unfold unsubscribe; by rewrite Hkey|].
  split.
  { intros cb_throws. split; [unfold disconnect; by rewrite Hkey|].
    rewrite Hkey.
    destruct (connections m !! getConnectionKey u2 n2) as [c|] eqn:Hc;
      [|unfold disconnect; by rewrite Hc].
    intros Hno.
    rewrite (disconnect_state _ _ _ _ c Hc) in Hno |- *.
    cbn [fst snd] in Hno |- *. rewrite Hno.
    destruct (pool_fields_run_microtasks
                (close_socket cb_throws [] c m).1.2
                (pool_delete (getConnectionKey u2 n2)
                   (close_socket cb_throws [] c m).1.1)) as [-> _].
    apply lookup_delete_eq. }
  intros c He o1 o2.
  assert (He2 : existing_connected (getConnectionKey u2 n2) m = Some c)
    by (by rewrite <- Hkey).
  split; [unfold connect, connect_k; by rewrite He, He2|].
  split; [unfold connect, connect_k; by rewrite He2|].
  split.
  - intros e cb. rewrite !(subscribe_connected _ _ _ _ _ m c) by done. done.
  - intros e d. unfold publish, getOrCreateConnection.
    rewrite He, He2. by rewrite Hcat.
Qed.

Lemma key_collision_witness :
  get_connection (getConnectionKey "http://h/a" "/b") example_collision
  = get_connection (getConnectionKey "http://h" "/a/b") example_collision
  ∧ connections (disconnect never_throws "http://h" "/a/b" example_collision).1
      !! getConnectionKey "http://h/a" "/b" = None
  ∧ subscribe "http://h" "/a/b" "x" 7%nat None example_collision
    = (update_conn 0%nat (subscribe_on "x" 7%nat) example_collision,
       Settled (Resolved 0%nat))
  ∧ publish "http://h/a" "/b" "ping" "1" None example_collision
    = publish "http://h" "/a/b" "ping" "1" None example_collision.
Proof.
  destruct key_collision as (_ & _ & _ & _ & _ & Hsame).
  destruct (Hsame "http://h/a" "/b" "http://h" "/a/b" example_collision
              eq_refl)
    as (Hget & _ & Hdis & Hconn).
  destruct (Hdis never_throws) as [_ Hgone].
  destruct (Hconn 0%nat eq_refl None None) as (_ & _ & Hsub & Hpub).
  split; [exact Hget|]. split; [|split; [apply Hsub|apply Hpub]].
  apply Hgone. vm_compute. reflexivity.
Defined.

(** * The sanitiser, the validators, the metrics and the logger *)

(** ** [sanitiseData] on strings *)



Lemma replace_all_app c r x y :
  replace_all c r (x +:+ y) = replace_all c r x +:+ replace_all c r y.
Proof.
  induction x as [|a x IH]; [done|].
  rewrite string_app_cons. cbn [replace_all].
  destruct (Ascii.eqb a c); rewrite IH; [|by rewrite string_app_cons].
  by rewrite string_app_assoc.
Qed.

Lemma sanitise_string_cons a s :
  sanitise_string (String a s) = escape_char a +:+ sanitise_string s.
Proof.
  unfold sanitise_string, escape_char.
  cbn [replace_all].
  destruct (Ascii.eqb a "&") eqn:E1.
  { rewrite !replace_all_app. reflexivity. }
  cbn [replace_all]. destruct (Ascii.eqb a "<") eqn:E2.
  { rewrite !replace_all_app. reflexivity. }
  cbn [replace_all]. destruct (Ascii.eqb a ">") eqn:E3.
  { rewrite !replace_all_app. reflexivity. }
  cbn [replace_all]. destruct (Ascii.eqb a quot) eqn:E4.
  { rewrite !replace_all_app. reflexivity. }
  cbn [replace_all]. destruct (Ascii.eqb a "'") eqn:E5; reflexivity.
Qed.

Lemma sanitise_string_escape_each s : sanitise_string s = escape_each s.
Proof.
  induction s as [|a s IH]; [done|].
  rewrite sanitise_string_cons. simpl. by rewrite IH.
Qed.

Lemma list_ascii_app x y :
  String.list_ascii_of_string (x +:+ y)
  = String.list_ascii_of_string x ++ String.list_ascii_of_string y.
Proof.
  induction x as [|a x IH]; [done|].
  rewrite string_app_cons. simpl. by rewrite IH.
Qed.

Lemma escape_char_clean a b :
  b ∈ String.list_ascii_of_string (escape_char a) →
  b ∉ ["<"; ">"; quot; "'"]%char.
Proof.
  unfold escape_char.
  destruct (Ascii.eqb a "&") eqn:E1; [|
  destruct (Ascii.eqb a "<") eqn:E2; [|
  destruct (Ascii.eqb a ">") eqn:E3; [|
  destruct (Ascii.eqb a quot) eqn:E4; [|
  destruct (Ascii.eqb a "'") eqn:E5]]]]; simpl; intros Hb.
  1-5: repeat (apply elem_of_cons in Hb as [->|Hb];
                 [intros Hx;
                  repeat (apply elem_of_cons in Hx as [Hx|Hx];
                            [discriminate Hx|]);
                  by apply elem_of_nil in Hx|]);
       by apply elem_of_nil in Hb.
  apply list_elem_of_singleton in Hb as ->.
  apply Ascii.eqb_neq in E2, E3, E4, E5.
  intros Hx.
  repeat (apply elem_of_cons in Hx as [Hx|Hx]; [done|]).
  by apply elem_of_nil in Hx.
Qed.

Lemma escape_each_clean s b :
  b ∈ String.list_ascii_of_string (escape_each s) →
  b ∉ ["<"; ">"; quot; "'"]%char.
Proof.
  induction s as [|a s IH]; simpl.
  - by intros ?%elem_of_nil.
  - rewrite list_ascii_app, elem_of_app.
    intros [Hb|Hb]; [by apply (escape_char_clean a)|by apply IH].
Qed.

Lemma string_length_app (x y : string) :
  String.length (x +:+ y) = (String.length x + String.length y)%nat.
Proof.
  induction x as [|a x IH]; [done|].
  rewrite string_app_cons. simpl. by rewrite IH.
Qed.

Lemma escape_char_cases a :
  (a = "&"%char ∧ escape_char a = "&amp;")
  ∨ (a = "<"%char ∧ escape_char a = "&lt;")
  ∨ (a = ">"%char ∧ escape_char a = "&gt;")
  ∨ (a = quot ∧ escape_char a = "&quot;")
  ∨ (a = "'"%char ∧ escape_char a = "&#039;")
  ∨ ((a ∉ special_chars) ∧ escape_char a = String a EmptyString).
Proof.
  unfold escape_char.
  destruct (Ascii.eqb_spec a "&") as [->|N1]; [by left|].
  destruct (Ascii.eqb_spec a "<") as [->|N2]; [by right; left|].
  destruct (Ascii.eqb_spec a ">") as [->|N3]; [by right; right; left|].
  destruct (Ascii.eqb_spec a quot) as [->|N4];
    [by right; right; right; left|].
  destruct (Ascii.eqb_spec a "'") as [->|N5];
    [by right; right; right; right; left|].
  do 5 right. split; [|done]. unfold special_chars. intros Hx.
  repeat (apply elem_of_cons in Hx as [Hx|Hx]; [done|]).
  by apply elem_of_nil in Hx.
Qed.

Lemma escape_each_length s :
  (String.length s ≤ String.length (escape_each s))%nat.
Proof.
  induction s as [|a s IH]; simpl; [done|].
  rewrite string_length_app.
  destruct (escape_char_cases a)
    as [[_ ->]|[[_ ->]|[[_ ->]|[[_ ->]|[[_ ->]|[_ ->]]]]]]; simpl; lia.
Qed.

Lemma escape_each_fixed s :
  escape_each s = s ↔
  (∀ a, a ∈ String.list_ascii_of_string s → a ∉ special_chars).
Proof.
  induction s as [|a s IH]; simpl.
  - split; [by intros _ a ?%elem_of_nil|done].
  - split.
    + intros Heq.
      assert (Ha : (a ∉ special_chars) ∧ escape_each s = s).
      { pose proof (escape_each_length s) as Hlen.
        destruct (escape_char_cases a)
          as [[-> He]|[[-> He]|[[-> He]|[[-> He]|[[-> He]|[Hn He]]]]]];
          rewrite He in Heq.
        - apply (f_equal String.length) in Heq.
          rewrite string_length_app in Heq. simpl in Heq. lia.
        - rewrite string_app_cons in Heq. discriminate Heq.
        - rewrite string_app_cons in Heq. discriminate Heq.
        - rewrite string_app_cons in Heq. discriminate Heq.
        - rewrite string_app_cons in Heq. discriminate Heq.
        - rewrite string_app_cons in Heq. injection Heq as Heq.
          split; [done|exact Heq]. }
      destruct Ha as [Ha Hs]. intros b [->|Hb]%elem_of_cons; [done|].
      by apply IH.
    + intros Hall.
      assert (Ha : a ∉ special_chars) by (apply Hall; left).
      destruct (escape_char_cases a)
        as [[-> _]|[[-> _]|[[-> _]|[[-> _]|[[-> _]|[_ ->]]]]]];
        try (destruct Ha; unfold special_chars; by repeat constructor).
      rewrite string_app_cons. f_equal. apply IH.
      intros b Hb. apply Hall. by right.
Qed.

Lemma escape_each_amp s a :
  a ∈ String.list_ascii_of_string s → a ∈ special_chars →
  "&"%char ∈ String.list_ascii_of_string (escape_each s).
Proof.
  induction s as [|b s IH]; simpl; [by intros ?%elem_of_nil|].
  rewrite list_ascii_app, elem_of_app.
  intros [->|Ha]%elem_of_cons Hsp; [left|right; by apply IH].
  destruct (escape_char_cases b)
    as [[_ ->]|[[_ ->]|[[_ ->]|[[_ ->]|[[_ ->]|[Hn _]]]]]];
    simpl; try (by left). done.
Qed.

Lemma escape_each_inj s1 s2 : escape_each s1 = escape_each s2 → s1 = s2.
Proof.
  revert s2. induction s1 as [|a1 s1 IH]; intros [|a2 s2]; simpl; [done| | |].
  - destruct (escape_char_cases a2)
      as [[_ ->]|[[_ ->]|[[_ ->]|[[_ ->]|[[_ ->]|[_ ->]]]]]]; discriminate.
  - destruct (escape_char_cases a1)
      as [[_ ->]|[[_ ->]|[[_ ->]|[[_ ->]|[[_ ->]|[_ ->]]]]]]; discriminate.
  - intros Heq.
    assert (Hboth : a1 = a2 ∧ escape_each s1 = escape_each s2).
    { destruct (escape_char_cases a1)
        as [[E1 H1]|[[E1 H1]|[[E1 H1]|[[E1 H1]|[[E1 H1]|[N1 H1]]]]]];
      destruct (escape_char_cases a2)
        as [[E2 H2]|[[E2 H2]|[[E2 H2]|[[E2 H2]|[[E2 H2]|[N2 H2]]]]]];
      rewrite H1, H2 in Heq; rewrite ?string_app_cons in Heq;
      first
        [ discriminate Heq
        | injection Heq as Heq; split; [congruence|exact Heq]
        | injection Heq as Hc Heq; split; [exact Hc|exact Heq]
        | injection Heq as Hc Heq; exfalso;
          first [apply N1|apply N2]; subst; unfold special_chars;
          by repeat constructor ]. }
    destruct Hboth as [-> Hs]. f_equal. by apply IH.
Qed.


(** X14. The five chained [replace] calls act on a string as one pass
    that replaces each of the characters &, <, >, double quote and single
    quote by its entity and keeps every other character: the & of an
    entity is never escaped by a later call of the chain.  The result
    contains none of <, >, double quote and single quote. *)
Theorem sanitise_string_is_one_pass (s : string) :
  sanitise_string s = escape_each s
  ∧ ∀ a, a ∈ String.list_ascii_of_string (sanitise_string s) →
         a ∉ ["<"; ">"; quot; "'"]%char.
Proof.
  split; [apply sanitise_string_escape_each|].
  intros a. rewrite sanitise_string_escape_each. apply escape_each_clean.
Qed.

Lemma sanitise_string_is_one_pass_witness :
  sanitise_string "<a href='x'>T&C</a>"
  = "&lt;a href=&#039;x&#039;&gt;T&amp;C&lt;/a&gt;"
  ∧ "<"%char ∉ String.list_ascii_of_string
                 (sanitise_string "<a href='x'>T&C</a>").
Proof.
  destruct (sanitise_string_is_one_pass "<a href='x'>T&C</a>") as [H1 H2].
  split; [rewrite H1; vm_compute; reflexivity|].
  intros Hin. apply (H2 _ Hin). left.
Defined.

(** X15. Sanitising is not idempotent.  A string is left as it is exactly
    when it holds none of the five characters; otherwise the result is
    longer and holds an &, so that sanitising the result again changes it
    again.  Data that passes through [sanitiseData] twice, once when it is
    published and once when it is received, is escaped twice. *)
Theorem sanitise_string_twice (s : string) :
  (sanitise_string s = s ↔
   (∀ a, a ∈ String.list_ascii_of_string s → a ∉ special_chars))
  ∧ (sanitise_string (sanitise_string s) = sanitise_string s ↔
     sanitise_string s = s)
  ∧ (String.length s ≤ String.length (sanitise_string s))%nat.
Proof.
  rewrite !sanitise_string_escape_each.
  split; [apply escape_each_fixed|]. split; [|apply escape_each_length].
  split.
  - intros Htwice. apply escape_each_fixed. intros a Ha Hsp.
    pose proof (escape_each_amp s a Ha Hsp) as Hamp.
    pose proof (proj1 (escape_each_fixed (escape_each s)) Htwice) as Hclean.
    apply (Hclean _ Hamp). unfold special_chars. left.
  - intros Hfix. by rewrite !Hfix.
Qed.

Lemma sanitise_string_twice_witness :
  sanitise_string "abc" = "abc"
  ∧ sanitise_string "a&b" = "a&amp;b"
  ∧ sanitise_string (sanitise_string "a&b") = "a&amp;amp;b".
Proof.
  destruct (sanitise_string_twice "abc") as ((_ & Hfix) & _ & _).
  split; [|split; vm_compute; reflexivity].
  apply Hfix. intros a Ha Hsp.
  repeat (apply elem_of_cons in Ha as [->|Ha];
            [repeat (apply elem_of_cons in Hsp as [Hsp|Hsp];
                       [discriminate Hsp|]);
             by apply elem_of_nil in Hsp|]).
  by apply elem_of_nil in Ha.
Defined.

(** X16. Sanitising loses nothing of a string: two different strings are
    never sanitised to the same string. *)
Theorem sanitise_string_injective (s1 s2 : string) :
  sanitise_string s1 = sanitise_string s2 → s1 = s2.
Proof. rewrite !sanitise_string_escape_each. apply escape_each_inj. Qed.

Lemma sanitise_string_injective_witness :
  sanitise_string "&lt;" = "&amp;lt;" ∧ "&lt;" = "&lt;".
Proof.
  split; [vm_compute; reflexivity|].
  apply (sanitise_string_injective "&lt;" "&lt;"). reflexivity.
Defined.

(** ** [sanitiseData] on values *)

Lemma elem_of_set_entry k x key v l :
  (k, x) ∈ set_entry key v l →
  (k, x) ∈ l ∨ (k = key ∧ x = v).
Proof.
  induction l as [|[k' v'] l IH]; simpl.
  - case_decide; [by intros ?%elem_of_nil|].
    intros [= -> ->]%list_elem_of_singleton. by right.
  - case_decide as Hk.
    + intros [[= -> ->]|Hin]%elem_of_cons; [right; by subst|].
      left. by right.
    + intros [[= -> ->]|Hin]%elem_of_cons; [left; by left|].
      destruct (IH Hin) as [?|?]; [left; by right|by right].
Qed.

Lemma elem_of_sanitised f entries acc k x :
  (k, x) ∈ fold_left (assign_sanitised f) entries acc →
  (k, x) ∈ acc
  ∨ ∃ y, (k, y) ∈ entries ∧ x = f y
         ∧ typeof y ≠ TFunction ∧ typeof y ≠ TSymbol.
Proof.
  revert acc. induction entries as [|[key value] entries IH]; intros acc;
    simpl; [by left|].
  intros Hin. destruct (IH _ Hin) as [Hacc|(y & Hy & -> & Ht)].
  - destruct (typeof value) eqn:Hty; try (by left);
      (apply elem_of_set_entry in Hacc as [?|[-> ->]]; [by left|];
       right; exists value; rewrite Hty; split; [by left|done]).
  - right. exists y. split; [by right|done].
Qed.

Lemma typeof_sanitiseData v :
  typeof (sanitiseData v)
  = match v with JUndefined => TObject | _ => typeof v end.
Proof. by destruct v. Qed.

Lemma set_entry_fresh key v l :
  key ∉ l.*1 →
  set_entry key v l = if decide (key = "__proto__") then l else l ++ [(key, v)].
Proof.
  induction l as [|[k' v'] l IH]; simpl; [done|].
  intros Hnot. rewrite decide_False by (intros ->; apply Hnot; by left).
  rewrite IH by (intros Hin; apply Hnot; by right).
  by case_decide.
Qed.

Lemma assign_kept f acc entry :
  kept entry → entry.1 ∉ acc.*1 →
  assign_sanitised f acc entry = acc ++ [(entry.1, f entry.2)].
Proof.
  destruct entry as [key value]. intros (Hf & Hs & Hp) Hfresh. simpl in *.
  rewrite <- (decide_False (P := key = "__proto__") acc
                (acc ++ [(key, f value)])) by done.
  rewrite <- set_entry_fresh by done.
  by destruct (typeof value).
Qed.

Lemma assign_dropped f acc entry :
  ¬ kept entry → entry.1 ∉ acc.*1 → assign_sanitised f acc entry = acc.
Proof.
  destruct entry as [key value]. intros Hk Hfresh. unfold kept in Hk.
  simpl in *.
  destruct (decide (key = "__proto__")) as [Hp|Hp].
  - destruct (typeof value); try done;
      rewrite set_entry_fresh by done; by rewrite decide_True.
  - destruct (typeof value); try done; destruct Hk; done.
Qed.

Lemma sanitised_fold f entries acc :
  NoDup entries.*1 → (∀ k, k ∈ entries.*1 → k ∉ acc.*1) →
  fold_left (assign_sanitised f) entries acc
  = acc ++ ((λ entry, (entry.1, f entry.2)) <$> filter kept entries).
Proof.
  revert acc. induction entries as [|entry entries IH]; intros acc.
  - intros _ _. simpl. by rewrite app_nil_r.
  - rewrite fmap_cons. intros [Hkey Hnd]%NoDup_cons Hdisj.
    assert (Hfresh : entry.1 ∉ acc.*1) by (apply Hdisj; left).
    cbn [fold_left]. rewrite filter_cons.
    destruct (decide (kept entry)) as [Hk|Hk].
    + rewrite assign_kept by done. rewrite IH; [by rewrite <- app_assoc|done|].
      intros k Hin. rewrite fmap_app, elem_of_app. simpl.
      intros [Hacc|Hacc%list_elem_of_singleton].
      * apply (Hdisj k); [by right|done].
      * by subst.
    + rewrite assign_dropped by done. apply IH; [done|].
      intros k Hin. apply Hdisj. by right.
Qed.

(** X17. On an object, [sanitiseData] builds a new object with the
    properties of the old one in their order, the value of each
    sanitised and its name copied as it is: names are never escaped.  A
    property whose value is a function or a symbol is left out, and so is
    a property named __proto__, whose assignment goes to the accessor of
    the prototype. *)
Theorem sanitiseData_copies_property_names
    (entries : list (string * JsValue)) :
  NoDup entries.*1 →
  sanitiseData (JObject entries)
  = JObject ((λ entry, (entry.1, sanitiseData entry.2))
               <$> filter kept entries).
Proof.
  intros Hnd. simpl. f_equal.
  rewrite (sanitised_fold sanitiseData entries []); [done|done|].
  intros k _. simpl. by intros ?%elem_of_nil.
Qed.

(** X18. Whatever the value, no string value of the result of
    [sanitiseData], at any depth of arrays and objects, contains one of
    the characters <, >, double quote and single quote. *)
Theorem sanitiseData_escapes_every_string (v : JsValue) (s : string)
    (a : ascii) :
  s ∈ strings_of (sanitiseData v) →
  a ∈ String.list_ascii_of_string s →
  a ∉ ["<"; ">"; quot; "'"]%char.
Proof.
  revert s. induction v as [| | | | | | | |items IH|entries IH]
    using JsValue_ind; intros s0; simpl;
    try (by intros ?%elem_of_nil).
  - intros ->%list_elem_of_singleton.
    rewrite sanitise_string_escape_each. apply escape_each_clean.
  - intros (x & Hs & (y & -> & Hy)%list_elem_of_fmap)%list_elem_of_bind.
    rewrite Forall_forall in IH. by apply (IH y Hy).
  - intros ([k x] & Hs & Hin)%list_elem_of_bind. simpl in Hs.
    apply elem_of_sanitised in Hin as [Hin|(y & Hy & -> & _)];
      [by apply elem_of_nil in Hin|].
    rewrite Forall_forall in IH. by apply (IH (k, y) Hy).
Qed.

(** X19. The result of [sanitiseData] contains no [undefined] at any
    depth, and no object in it has a property whose value is a function or
    a symbol. *)
Theorem sanitiseData_leaves_no_undefined (v x : JsValue) :
  x ∈ subvalues (sanitiseData v) →
  x ≠ JUndefined
  ∧ ∀ entries key y,
      x = JObject entries → (key, y) ∈ entries →
      typeof y ≠ TFunction ∧ typeof y ≠ TSymbol.
Proof.
  revert x. induction v as [| | | | | | | |items IH|entries IH]
    using JsValue_ind; intros x0; simpl;
    try (intros [->|?%elem_of_nil]%elem_of_cons; done).
  - intros [->|(x & Hs & (y & -> & Hy)%list_elem_of_fmap)%list_elem_of_bind]
      %elem_of_cons; [done|].
    rewrite Forall_forall in IH. by apply (IH y Hy).
  - intros [->|([k x] & Hs & Hin)%list_elem_of_bind]%elem_of_cons.
    + split; [done|]. intros ? key y [= <-] Hin.
      apply elem_of_sanitised in Hin as [Hin|(y0 & _ & -> & Hf & Hsy)];
        [by apply elem_of_nil in Hin|].
      rewrite typeof_sanitiseData. by destruct y0.
    + simpl in Hs.
      apply elem_of_sanitised in Hin as [Hin|(y & Hy & -> & _)];
        [by apply elem_of_nil in Hin|].
      rewrite Forall_forall in IH. by apply (IH (k, y) Hy).
Qed.

(** ** The validators *)

Lemma get_set_entry k key v l :
  key ≠ "__proto__" →
  get_entry k (set_entry key v l)
  = if decide (key = k) then v else get_entry k l.
Proof.
  intros Hp. induction l as [|[k' v'] l IH]; simpl.
  - rewrite decide_False by done. simpl. by case_decide.
  - destruct (decide (k' = key)) as [->|Hne]; simpl.
    + by case_decide.
    + rewrite IH. destruct (decide (k' = k)) as [->|Hne'];
        [by rewrite decide_False by done|done].
Qed.

Lemma wrong_type_sanitiseData v t :
  truthy v = true → wrong_type (sanitiseData v) t = wrong_type v t.
Proof.
  intros Hv. unfold wrong_type. rewrite typeof_sanitiseData.
  by destruct v.
Qed.

Lemma wrong_type_set_property entries key k t :
  key ≠ "__proto__" → truthy (get_entry key entries) = true →
  wrong_type
    (get_entry k (set_entry key (sanitiseData (get_entry key entries)) entries))
    t
  = wrong_type (get_entry k entries) t.
Proof.
  intros Hp Hv. rewrite get_set_entry by done.
  case_decide as Hk; [subst k; by apply wrong_type_sanitiseData|done].
Qed.

Lemma isValidOptions_sanitise_entries entries key :
  key ≠ "__proto__" → truthy (get_entry key entries) = true →
  isValidOptions
    (JObject (set_entry key (sanitiseData (get_entry key entries)) entries))
  = isValidOptions (JObject entries).
Proof.
  intros Hp Hv. unfold isValidOptions. simpl.
  by rewrite !wrong_type_set_property.
Qed.

(** X20. The exports sanitise [options.headers] and [options.params] in
    place before they validate the options.  This never changes what
    [isValidOptions] answers: a value is accepted after the sanitising
    exactly when it was acceptable before. *)
Theorem sanitising_keeps_the_verdict (options : JsValue) :
  isValidOptions (sanitise_options options) = isValidOptions options.
Proof.
  unfold sanitise_options. destruct (truthy options) eqn:Ht; [|done].
  destruct options as [| | | | | | | | |entries]; try done.
  cbn [get_property set_property].
  destruct (truthy (get_entry "headers" entries)) eqn:Hh.
  - cbn [get_property set_property].
    destruct (truthy (get_entry "params"
                        (set_entry "headers"
                           (sanitiseData (get_entry "headers" entries))
                           entries))) eqn:Hp.
    + rewrite isValidOptions_sanitise_entries by done.
      by rewrite isValidOptions_sanitise_entries.
    + by rewrite isValidOptions_sanitise_entries.
  - cbn [get_property set_property].
    destruct (truthy (get_entry "params" entries)) eqn:Hp; [|done].
    by rewrite isValidOptions_sanitise_entries.
Qed.

(** X21. [isValidOptions] accepts every falsy value (undefined, null,
    false, 0, NaN, the empty string), rejects every truthy value that is
    not an object, and accepts every array, whose six option properties
    are all undefined. *)
Theorem isValidOptions_on_non_objects :
  (∀ options, truthy options = false → isValidOptions options = true)
  ∧ (∀ options, truthy options = true → typeof options ≠ TObject →
       isValidOptions options = false)
  ∧ (∀ items, isValidOptions (JArray items) = true).
Proof.
  split; [|split].
  - intros options Ht. unfold isValidOptions. by rewrite Ht.
  - intros options Ht Hty. unfold isValidOptions. rewrite Ht. simpl.
    by rewrite bool_decide_eq_false_2.
  - done.
Qed.

(** ** The metrics *)

Lemma length_omap_total {A B} (f : A → option B) (l : list A) :
  (∀ x, x ∈ l → is_Some (f x)) → length (omap f l) = length l.
Proof.
  induction l as [|a l IH]; intros Hall; [done|].
  destruct (Hall a) as [b Hb]; [left|].
  change (omap f (a :: l))
    with (match f a with Some y => y :: omap f l | None => omap f l end).
  rewrite Hb. simpl. f_equal. apply IH. intros x Hx. apply Hall. by right.
Qed.

Lemma listener_count_ge (ls : gmap string (list Callback)) :
  (∀ event s, ls !! event = Some s → s ≠ []) →
  (size ls
   ≤ map_fold (λ _ listeners listenerCount,
                 (listenerCount + length listeners)%nat) 0%nat ls)%nat.
Proof.
  apply (map_fold_weak_ind
           (λ (count : nat) (ls : gmap string (list Callback)),
              (∀ event s, ls !! event = Some s → s ≠ []) →
              (size ls ≤ count)%nat)).
  - intros _. by rewrite map_size_empty.
  - intros event s ls' count Hnone IH Hall.
    rewrite map_size_insert_None by done.
    assert (Hs : s ≠ []) by (apply (Hall event); apply lookup_insert_eq).
    assert (Hle : (size ls' ≤ count)%nat).
    { apply IH. intros e s' He. apply (Hall e).
      rewrite lookup_insert_ne; [done|]. intros ->. congruence. }
    destruct s; [done|]. simpl. lia.
Qed.

(** X22. In every state the manager reaches, [getConnectionMetrics]
    reports one entry per key of the pool and [total] is their number;
    [connected] does not exceed [total]; the key of every entry is its URL
    followed by its namespace; and no entry reports fewer listeners than
    events, since no event of a record has an empty callback set. *)
Theorem metrics_agree_with_the_pool
    (cb_throws : Callback → Data → bool) (l : list Action) :
  let m := run cb_throws l empty_manager in
  let metrics := getConnectionMetrics m in
  metrics_total metrics = length (metrics_connections metrics)
  ∧ (metrics_connected metrics ≤ metrics_total metrics)%nat
  ∧ (∀ key, is_Some (connections m !! key) ↔
            ∃ x, x ∈ metrics_connections metrics ∧ cm_key x = key)
  ∧ ∀ x, x ∈ metrics_connections metrics →
      cm_key x = cm_url x +:+ cm_namespace x
      ∧ (cm_events x ≤ cm_totalListeners x)%nat.
Proof.
  intros m metrics.
  destruct (pool_ok_run cb_throws l) as [_ Hpool]. fold m in Hpool.
  assert (Hin : ∀ x, x ∈ metrics_connections metrics ↔
                  ∃ key c conn, connections m !! key = Some c
                                ∧ heap m !! c = Some conn
                                ∧ x = connection_metrics key conn).
  { intros x. unfold metrics, getConnectionMetrics. simpl.
    rewrite list_elem_of_omap. split.
    - intros ([key c] & Hkc%elem_of_map_to_list & Hx). simpl in Hx.
      destruct (heap m !! c) as [conn|] eqn:Hc; [|done].
      injection Hx as <-. by exists key, c, conn.
    - intros (key & c & conn & Hkey & Hc & ->). exists (key, c).
      split; [by apply elem_of_map_to_list|]. simpl. by rewrite Hc. }
  assert (Hlen : length (metrics_connections metrics) = size (connections m)).
  { unfold metrics, getConnectionMetrics. simpl.
    rewrite length_omap_total; [by rewrite length_map_to_list|].
    intros [key c] Hkc%elem_of_map_to_list. simpl.
    destruct (Hpool key c Hkc) as (conn & -> & _). by eexists. }
  split; [done|]. split.
  { unfold metrics at 2. simpl. rewrite <- Hlen. apply length_filter. }
  split.
  - intros key. split.
    + intros [c Hkey]. destruct (Hpool key c Hkey) as (conn & Hc & _).
      exists (connection_metrics key conn).
      split; [|done]. apply Hin. by exists key, c, conn.
    + intros (x & (key' & c & conn & Hkey & Hc & ->)%Hin & <-). by exists c.
  - intros x (key & c & conn & Hkey & Hc & ->)%Hin. simpl.
    destruct (Hpool key c Hkey) as (conn' & Hc' & Hk).
    assert (conn' = conn) as -> by congruence.
    split; [done|]. apply listener_count_ge.
    intros event s Hs.
    pose proof (reachable_registry_ok cb_throws l c conn Hc) as [_ Hreg].
    specialize (Hreg event). rewrite Hs in Hreg. tauto.
Qed.

(** X23. The [socketDisconnectAll] export returns the number of keys the
    pool held as [disconnectedCount] and leaves a pool for which the
    metrics are all zero; a second call returns 0 and changes nothing. *)
Theorem socketDisconnectAll_counts_the_pool (m : SocketManager) :
  (socketDisconnectAll m).2 = size (connections m)
  ∧ getConnectionMetrics (socketDisconnectAll m).1
    = {| metrics_total := 0; metrics_connected := 0;
         metrics_connections := [] |}
  ∧ socketDisconnectAll (socketDisconnectAll m).1
    = ((socketDisconnectAll m).1, 0%nat).
Proof.
  destruct (disconnectAll_returns never_throws m)
    as (Hthrew & Hempty & Horder & Hagain);
    [intros cb; reflexivity|].
  assert (Hmetrics : getConnectionMetrics (disconnectAll never_throws m).1
                     = {| metrics_total := 0; metrics_connected := 0;
                          metrics_connections := [] |}).
  { unfold getConnectionMetrics. rewrite Hempty.
    by rewrite map_to_list_empty, map_size_empty. }
  split; [done|]. split; [done|].
  unfold socketDisconnectAll. cbn [fst]. rewrite Hmetrics. simpl.
  by rewrite Hagain.
Qed.

(** ** The logger *)

(** X24. Whatever the resource metadata holds, and whatever
    [toLowerCase] does to it, the level the logger is created with is one
    of the seven valid levels; it differs from the default only when the
    metadata held a non-empty string, and is then its lower-case form. *)
Theorem log_level_is_always_valid
    (toLowerCase : string → string) (configuredLevel : option string) :
  getConfiguredLogLevel toLowerCase configuredLevel ∈ validLevels
  ∧ (getConfiguredLogLevel toLowerCase configuredLevel ≠ DEFAULT_LOG_LEVEL →
     ∃ level, configuredLevel = Some level ∧ level ≠ ""
              ∧ getConfiguredLogLevel toLowerCase configuredLevel
                = toLowerCase level).
Proof.
  assert (Hdef : DEFAULT_LOG_LEVEL ∈ validLevels)
    by (unfold validLevels; repeat constructor).
  unfold getConfiguredLogLevel.
  destruct configuredLevel as [level|]; [|done].
  case_bool_decide as Hne; simpl; [done|].
  case_bool_decide as Hv; [|done].
  split; [done|]. intros _. by exists level.
Qed.

Lemma sanitiseData_copies_property_names_witness :
  sanitiseData
    (JObject [("<k>", JString "<"); ("f", JFunction 0);
              ("__proto__", JNull); ("u", JUndefined)])
  = JObject [("<k>", JString "&lt;"); ("u", JNull)].
Proof.
  rewrite sanitiseData_copies_property_names.
  - vm_compute. reflexivity.
  - refine (bool_decide_unpack _ _). vm_compute. exact I.
Defined.

Lemma sanitiseData_escapes_every_string_witness :
  "&lt;b&gt;"
    ∈ strings_of
        (sanitiseData (JObject [("<k>", JArray [JNull; JString "<b>"])]))
  ∧ "&"%char ∉ ["<"; ">"; quot; "'"]%char.
Proof.
  assert (Hs : "&lt;b&gt;"
                 ∈ strings_of
                     (sanitiseData
                        (JObject [("<k>", JArray [JNull; JString "<b>"])])))
    by (vm_compute; left).
  split; [exact Hs|].
  apply (sanitiseData_escapes_every_string _ _ _ Hs). left.
Defined.

Lemma sanitiseData_leaves_no_undefined_witness :
  subvalues (sanitiseData (JArray [JUndefined; JObject [("u", JUndefined)]]))
  = [JArray [JNull; JObject [("u", JNull)]]; JNull;
     JObject [("u", JNull)]; JNull]
  ∧ JNull ≠ JUndefined.
Proof.
  assert (Hs : JNull
                 ∈ subvalues
                     (sanitiseData
                        (JArray [JUndefined; JObject [("u", JUndefined)]])))
    by (vm_compute; right; left).
  split; [vm_compute; reflexivity|].
  exact (proj1 (sanitiseData_leaves_no_undefined _ _ Hs)).
Defined.

Lemma isValidOptions_on_non_objects_witness :
  isValidOptions (JString "") = true
  ∧ isValidOptions (JString "fast") = false
  ∧ isValidOptions (JArray [JString "fast"]) = true.
Proof.
  destruct isValidOptions_on_non_objects as (Hfalsy & Htruthy & Harray).
  split; [by apply Hfalsy|]. split; [by apply Htruthy|apply Harray].
Defined.

Lemma metrics_agree_with_the_pool_witness :
  let metrics :=
    getConnectionMetrics (run never_throws example_run empty_manager) in
  metrics_total metrics = 1%nat
  ∧ length (metrics_connections metrics) = 1%nat
  ∧ (metrics_connected metrics ≤ 1)%nat.
Proof.
  intros metrics.
  destruct (metrics_agree_with_the_pool never_throws example_run)
    as (Hlen & Hle & _).
  fold metrics in Hlen, Hle.
  assert (Ht : metrics_total metrics = 1%nat) by (vm_compute; reflexivity).
  split; [exact Ht|]. split; [by rewrite <- Hlen|by rewrite <- Ht].
Defined.

Lemma log_level_is_always_valid_witness :
  getConfiguredLogLevel (λ s, s) (Some "loud") = "info"
  ∧ getConfiguredLogLevel (λ s, s) (Some "debug") = "debug"
  ∧ getConfiguredLogLevel (λ s, s) (Some "loud") ∈ validLevels.
Proof.
  split; [vm_compute; reflexivity|]. split; [vm_compute; reflexivity|].
  exact (proj1 (log_level_is_always_valid (λ s, s) (Some "loud"))).
Defined.

(** ** The [socketDisconnect] export *)

(** When no callback throws on the reason, [disconnect] of a key of a
    manager that satisfies the registry invariant returns and removes the
    key, and only that key. *)
Lemma disconnect_returns cb_throws url namespace m c :
  returns_on_disconnect cb_throws → all_registry_ok m →
  connections m !! getConnectionKey url namespace = Some c →
  (disconnect cb_throws url namespace m).2 = false
  ∧ connections (disconnect cb_throws url namespace m).1
    = delete (getConnectionKey url namespace) (connections m).
Proof.
  intros Hret Hm Hkey. rewrite (disconnect_state _ _ _ _ c Hkey).
  cbn [fst snd]. rewrite (close_socket_returns cb_throws [] c m Hret).
  destruct (close_socket_step cb_throws [] c m Hm) as (-> & Hcs & _).
  split; [done|]. simpl. by rewrite Hcs.
Qed.

Lemma disconnect_clears cb_throws url namespace m c :
  returns_on_disconnect cb_throws →
  connections m !! getConnectionKey url namespace = Some c →
  (disconnect cb_throws url namespace m).2 = false
  ∧ connections (disconnect cb_throws url namespace m).1
      !! getConnectionKey url namespace = None.
Proof.
  intros Hret Hkey. rewrite (disconnect_state _ _ _ _ c Hkey).
  cbn [fst snd]. rewrite (close_socket_returns cb_throws [] c m Hret).
  split; [done|].
  destruct (pool_fields_run_microtasks
              (close_socket cb_throws [] c m).1.2
              (pool_delete (getConnectionKey url namespace)
                 (close_socket cb_throws [] c m).1.1)) as [-> _].
  simpl. apply lookup_delete_eq.
Qed.

(** X26. The [socketDisconnect] export changes nothing when it fails.
    When it succeeds, the URL it reports is the normalised one, the
    namespace it reports is valid, the key made of the two is absent from
    the pool afterwards whether or not it was there before, and a second
    call with the same arguments succeeds with the message that no
    connection was found.  No other key has moved when the records
    satisfy the registry invariant, as they do in every state the manager
    reaches: the socket's 'disconnect' listeners are then the manager's
    own for that event and the fan-out of its subscribers. *)
Theorem socketDisconnect_clears_the_key
    (url_toString url_hostname : string → option string)
    (url namespace : string) (m : SocketManager) :
  let result := socketDisconnect url_toString url_hostname url namespace m in
  (∀ error, result.2 = Failure error → result.1 = m)
  ∧ ∀ message u n,
      result.2 = Success message u n →
      normaliseUrl url_toString url = Some u
      ∧ isValidNamespace n = true
      ∧ connections result.1 !! (u +:+ n) = None
      ∧ (all_registry_ok m →
         ∀ key, key ≠ u +:+ n →
                connections result.1 !! key = connections m !! key)
      ∧ socketDisconnect url_toString url_hostname url namespace result.1
        = (result.1,
           Success (Some "No active connection found to disconnect") u n).
Proof.
  intros result. unfold result, socketDisconnect.
  destruct (normaliseUrl url_toString url) as [u|] eqn:Hn; [|by split].
  destruct (isValidUrl url_hostname u) eqn:Hv; simpl; [|by split].
  set (n := if isValidNamespace namespace then namespace else "/").
  assert (Hvalid : isValidNamespace n = true).
  { unfold n. by destruct (isValidNamespace namespace) eqn:Hns. }
  destruct (connections m !! (u +:+ n)) as [c|] eqn:Hkey; simpl.
  - split; [done|]. intros message u' n' [= <- <- <-].
    destruct (disconnect_clears never_throws u n m c) as [_ Hgone];
      [intros cb; reflexivity|exact Hkey|].
    unfold getConnectionKey in Hgone.
    split; [done|]. split; [done|]. split; [done|]. split.
    + intros Hm key Hne.
      destruct (disconnect_returns never_throws u n m c) as [_ Hcs];
        [intros cb; reflexivity|done|exact Hkey|].
      unfold getConnectionKey in Hcs.
      rewrite Hcs. by apply lookup_delete_ne.
    + by rewrite Hgone.
  - split; [done|]. intros message u' n' [= <- <- <-].
    do 4 (split; [done|]). by rewrite Hkey.
Qed.

Lemma socketDisconnect_clears_the_key_witness :
  let result :=
    socketDisconnect example_toString example_hostname "h:3000" "bad ns"
      example_connected in
  result.2 = Success None "http://h:3000" "/"
  ∧ connections result.1 !! "http://h:3000/" = None
  ∧ socketDisconnect example_toString example_hostname "h:3000" "bad ns"
      result.1
    = (result.1,
       Success (Some "No active connection found to disconnect")
         "http://h:3000" "/").
Proof.
  intros result.
  assert (Hres : result.2 = Success None "http://h:3000" "/")
    by (vm_compute; reflexivity).
  destruct (socketDisconnect_clears_the_key example_toString example_hostname
              "h:3000" "bad ns" example_connected) as [_ Hok].
  destruct (Hok _ _ _ Hres) as (_ & _ & Hgone & _ & Hagain).
  split; [exact Hres|]. split; [exact Hgone|exact Hagain].
Defined.
